(** * Five-Horse: rule engine and search engine

    A shallow embedding of the TypeScript sources
    [game/types.ts], [game/board-config.ts], [game/rules.ts],
    [game/utils.ts], [game/ai.ts] and of the handlers of the page
    component ([executeMove], [handleNodeClick], [handleUndo],
    [handleReset], the turn of the machine), followed by the properties of
    the specification and further properties of the code.

    Conventions of the embedding.
    - A JavaScript object used as a map ([Record<NodeId, _>]) is an
      association list in property order.  No key of the program is an
      array index (node identifiers are ["r,c"] or ["m_..."]), so property
      order is insertion order.
    - The objects of the program are plain objects, so a read [o[k]] also
      finds the properties inherited from [Object.prototype]
      (["constructor"], ["toString"], ...): [Obj.get] is the read of an own
      property and [Obj.read] tells the three cases apart.  The reads of
      the topology that can be given any identifier and behave differently
      at an inherited name ([checkPick], [checkClamp], [addEdge],
      [evaluate]) go through [Obj.read]; where the two reads have the same
      outcome the model uses [Obj.get] and says why.  The writes of the
      program are at node identifiers of the topology, never at
      ["__proto__"], which a write would treat apart.
    - A call either returns a value or throws; [result] records which.  The
      only exception the engine can raise is the [TypeError] of a property
      read on, or an iteration of, [undefined].  [OutOfFuel] is not a behaviour of the program: it
      marks a run of the model whose recursion bound was too small.
    - Numbers that hold scores are integers extended with the two
      infinities ([EZ]); coordinates and counters are in [Z], on which the
      doubles of the program are exact below 2^53. *)

From Stdlib Require Import String List ZArith Lia Bool Permutation Sorted.
From Stdlib Require Import DecimalString.
Import ListNotations.
Local Open Scope string_scope.
Local Open Scope list_scope.

Set Implicit Arguments.

(* ================================================================== *)
(** ** Outcomes of a call *)

Inductive result (A : Type) : Type :=
| Ok (a : A)
| TypeError
| OutOfFuel.

Arguments Ok {A} a.
Arguments TypeError {A}.
Arguments OutOfFuel {A}.

Definition bind {A B : Type} (c : result A) (k : A -> result B) : result B :=
  match c with
  | Ok a => k a
  | TypeError => TypeError
  | OutOfFuel => OutOfFuel
  end.

Notation "x <- c ;; k" := (bind c (fun x => k))
  (at level 61, c at next level, right associativity).
Notation "' pat <- c ;; k" := (bind c (fun x => match x with pat => k end))
  (at level 61, pat pattern, c at next level, right associativity).

(** [for (const x of xs) { acc = body(acc, x) }] where the body may throw. *)
Fixpoint foldM {A B : Type} (body : A -> B -> result A) (acc : A) (xs : list B)
  : result A :=
  match xs with
  | [] => Ok acc
  | x :: xs' => acc' <- body acc x ;; foldM body acc' xs'
  end.

(** Reading a property of a value that may be [undefined].  The reads
    [BOARD_NODES[id].neighbors] that are iterated at once ([getValidMoves],
    the slide, [checkClamp]) are modelled with [deref] on the own property:
    under an inherited name the value has no [neighbors], and iterating
    [undefined] throws the same [TypeError]. *)
Definition deref {A : Type} (o : option A) : result A :=
  match o with
  | Some a => Ok a
  | None => TypeError
  end.

(* ================================================================== *)
(** ** JavaScript objects used as maps *)

Module Obj.
(** The property names every plain object inherits from
    [Object.prototype].  The value read under each of them is a function,
    or [Object.prototype] itself under ["__proto__"]: it is truthy and has
    none of the properties of a node or of a piece. *)
Definition inheritedNames : list string :=
  [ "constructor"; "__defineGetter__"; "__defineSetter__"; "hasOwnProperty";
    "__lookupGetter__"; "__lookupSetter__"; "isPrototypeOf";
    "propertyIsEnumerable"; "toString"; "valueOf"; "__proto__";
    "toLocaleString" ].

Definition inherited (k : string) : bool :=
  existsb (String.eqb k) inheritedNames.

Section Obj.
Variable V : Type.

Definition t := list (string * V).

(** [o[k]] *)
Fixpoint get (o : t) (k : string) : option V :=
  match o with
  | [] => None
  | (k', v) :: o' => if k' =? k then Some v else get o' k
  end.

(** [o[k] = v]: an existing property keeps its place, a new one is last. *)
Fixpoint set (o : t) (k : string) (v : V) : t :=
  match o with
  | [] => [(k, v)]
  | (k', v') :: o' =>
      if k' =? k then (k, v) :: o' else (k', v') :: set o' k v
  end.

(** [delete o[k]] *)
Definition delete (o : t) (k : string) : t :=
  filter (fun kv => negb (fst kv =? k)) o.

Definition keys (o : t) : list string := map fst o.
Definition values (o : t) : list V := map snd o.
Definition entries (o : t) : list (string * V) := o.

(** Property names of an object are unique. *)
Definition wf (o : t) : Prop := NoDup (keys o).

(** What [o[k]] finds: an own property, a property inherited from
    [Object.prototype], or nothing ([undefined]). *)
Inductive Slot : Type :=
| Own (v : V)
| Inherited
| Missing.

Definition read (o : t) (k : string) : Slot :=
  match get o k with
  | Some v => Own v
  | None => if inherited k then Inherited else Missing
  end.
End Obj.

Arguments Inherited {V}.
Arguments Missing {V}.
End Obj.

(** [xs.includes(x)] on an array of strings. *)
Definition includes (xs : list string) (x : string) : bool :=
  existsb (String.eqb x) xs.

(* ================================================================== *)
(** ** types.ts *)

Inductive Player : Type := black | white.

Definition Player_eqb (p q : Player) : bool :=
  match p, q with
  | black, black | white, white => true
  | _, _ => false
  end.

Record Piece : Type := mkPiece { piece_id : string; player : Player }.

Definition NodeId := string.

Record BoardNode : Type := mkNode {
  id : NodeId;
  x : Z;
  y : Z;
  neighbors : list NodeId;
  isMaoce : bool
}.

Record GameStateSnapshot : Type := mkSnapshot {
  snap_pieces : Obj.t Piece;
  snap_currentPlayer : Player
}.

Record GameState : Type := mkState {
  pieces : Obj.t Piece;
  currentPlayer : Player;
  winner : option Player;
  history : list GameStateSnapshot;
  turnCount : Z
}.

Record Move : Type := mkMove {
  from : NodeId;
  to : NodeId;
  captures : option (list NodeId);
  captureSteps : option (list (list NodeId))
}.

(* ================================================================== *)
(** ** board-config.ts *)

Definition ROWS : nat := 5.
Definition COLS : nat := 5.

(** The template string of a number that holds an integer. *)
Definition show (n : Z) : string := NilZero.string_of_int (Z.to_int n).

Definition getId (r c : Z) : NodeId := (show r ++ "," ++ show c)%string.

(** The cells [(r, c)] in the order of the two nested [for] loops. *)
Definition grid : list (Z * Z) :=
  flat_map (fun r => map (fun c => (Z.of_nat r, Z.of_nat c)) (seq 0 COLS))
           (seq 0 ROWS).

Definition gridNodes : Obj.t BoardNode :=
  fold_left
    (fun nodes '(r, c) =>
       let id := getId r c in
       Obj.set nodes id (mkNode id (c * 100) (r * 100) [] false))
    grid [].

Definition attachPointId : NodeId := getId 2 4.

Definition maoceNodes : list BoardNode :=
  [ mkNode "m_top" 500 100 [] true;
    mkNode "m_right" 600 200 [] true;
    mkNode "m_bottom" 500 300 [] true;
    mkNode "m_center" 500 200 [] true ].

Definition allNodes : Obj.t BoardNode :=
  fold_left (fun nodes n => Obj.set nodes (id n) n) maoceNodes gridNodes.

(** [nodes[a].neighbors.push(b)] *)
Definition pushNeighbor (nodes : Obj.t BoardNode) (a b : NodeId)
  : Obj.t BoardNode :=
  match Obj.get nodes a with
  | Some n =>
      Obj.set nodes a
        (mkNode (id n) (x n) (y n) (neighbors n ++ [b]) (isMaoce n))
  | None => nodes
  end.

(** A run of statements on the table [nodes]: the table it leaves and
    whether it returned or threw.  A statement that throws has run in part:
    the table holds what it wrote before. *)
Definition Build : Type := Obj.t BoardNode * result unit.

Definition andThen (b : Build) (k : Obj.t BoardNode -> Build) : Build :=
  match b with
  | (nodes, Ok _) => k nodes
  | (_, _) => b
  end.

(** [xs.forEach(x => body)] and the [for] loops on the table. *)
Definition forEach {A : Type} (body : Obj.t BoardNode -> A -> Build)
                   (xs : list A) (nodes : Obj.t BoardNode) : Build :=
  fold_left (fun b x => andThen b (fun nodes => body nodes x)) xs
            (nodes, Ok tt).

(** Helper to add a bi-directional edge.  [nodes[id1] && nodes[id2]] is
    truthy for own and for inherited names; under an inherited name there
    is no [neighbors], and [.includes] on it throws. *)
Definition addEdge (nodes : Obj.t BoardNode) (id1 id2 : NodeId) : Build :=
  match Obj.read nodes id1, Obj.read nodes id2 with
  | Obj.Missing, _ | _, Obj.Missing => (nodes, Ok tt)
  | Obj.Inherited, _ => (nodes, TypeError)
  | Obj.Own n1, _ =>
      let nodes1 :=
        if includes (neighbors n1) id2 then nodes
        else pushNeighbor nodes id1 id2 in
      match Obj.read nodes1 id2 with
      | Obj.Own n2 =>
          (if includes (neighbors n2) id1 then nodes1
           else pushNeighbor nodes1 id2 id1, Ok tt)
      | _ => (nodes1, TypeError)
      end
  end.

Definition orthogonalEdges (nodes : Obj.t BoardNode) : Build :=
  forEach
    (fun nodes '(r, c) =>
       let id := getId r c in
       andThen
         (if (c + 1 <? Z.of_nat COLS)%Z then addEdge nodes id (getId r (c + 1))
          else (nodes, Ok tt))
         (fun nodes1 =>
            if (r + 1 <? Z.of_nat ROWS)%Z
            then addEdge nodes1 id (getId (r + 1) c)
            else (nodes1, Ok tt)))
    grid nodes.

Definition centers : list (Z * Z) := [(1, 1); (1, 3); (3, 1); (3, 3)]%Z.

Definition diagonalEdges (nodes : Obj.t BoardNode) : Build :=
  forEach
    (fun nodes '(r, c) =>
       let cId := getId r c in
       andThen (addEdge nodes cId (getId (r - 1) (c - 1))) (fun n1 =>
       andThen (addEdge n1 cId (getId (r - 1) (c + 1))) (fun n2 =>
       andThen (addEdge n2 cId (getId (r + 1) (c - 1))) (fun n3 =>
       addEdge n3 cId (getId (r + 1) (c + 1))))))
    centers nodes.

Definition maoceEdges (nodes : Obj.t BoardNode) : Build :=
  forEach (fun nodes '(a, b) => addEdge nodes a b)
    [ (attachPointId, "m_top"); (attachPointId, "m_bottom");
      (attachPointId, "m_center");
      ("m_center", "m_top"); ("m_center", "m_right"); ("m_center", "m_bottom");
      ("m_top", "m_right"); ("m_right", "m_bottom") ]
    nodes.

(** The initialisation of the module from the first call of [addEdge]
    on. *)
Definition buildNodes : Build :=
  andThen (andThen (orthogonalEdges allNodes) diagonalEdges) maoceEdges.

(** The object [nodes] once the module has been initialised (no call
    throws: lemma [BOARD_NODES_built]). *)
Definition BOARD_NODES : Obj.t BoardNode := Eval vm_compute in fst buildNodes.

(** [Math.abs(val) < 1e-5] on an integer [val]. *)
Definition nearZero (val : Z) : bool := (Z.abs val * 100000 <? 1)%Z.

(** Helper to determine if three nodes form a straight line.  Under an
    inherited name the guard passes, the coordinates read are [undefined],
    the cross product is [NaN] and the comparison is false: the result is
    the one of the guard. *)
Definition areCollinear (n1 n2 n3 : NodeId) : result bool :=
  match Obj.get BOARD_NODES n1, Obj.get BOARD_NODES n2, Obj.get BOARD_NODES n3 with
  | Some p1, Some p2, Some p3 =>
      let val := ((y p2 - y p1) * (x p3 - x p2)
                  - (x p2 - x p1) * (y p3 - y p2))%Z in
      Ok (nearZero val)
  | _, _, _ => Ok false
  end.

(* ================================================================== *)
(** ** rules.ts *)

Definition getPieceAt (pieces : Obj.t Piece) (id : NodeId) : option Piece :=
  Obj.get pieces id.

Definition getOpponent (p : Player) : Player :=
  match p with
  | black => white
  | white => black
  end.

(** [!pieces[n]].  The program asks this of neighbours recorded in the
    topology only, none of which bears an inherited name. *)
Definition isEmpty (pieces : Obj.t Piece) (n : NodeId) : bool :=
  match Obj.get pieces n with
  | Some _ => false
  | None => true
  end.

(** [pieces[n]?.player === p]: false also under an inherited name, whose
    value has no [player]. *)
Definition ownedBy (pieces : Obj.t Piece) (n : NodeId) (p : Player) : bool :=
  match Obj.get pieces n with
  | Some q => Player_eqb (player q) p
  | None => false
  end.

(** Truthiness of a string: only the empty string is falsy. *)
Definition truthy (s : string) : bool := negb (s =? "").

(** The inner [for (const nextId of currNode.neighbors)] of the slide: the
    first neighbour other than [prevId] that lies on the line. *)
Fixpoint nextInLine (prevId currentId : NodeId) (candidates : list NodeId)
  : result (option NodeId) :=
  match candidates with
  | [] => Ok None
  | nextId :: rest =>
      if nextId =? prevId then nextInLine prevId currentId rest
      else
        b <- areCollinear prevId currentId nextId ;;
        if b then Ok (Some nextId) else nextInLine prevId currentId rest
  end.

(** [for (let i = 0; i < 10; i++)] with [n] iterations left. *)
Fixpoint slide (n : nat) (pieces : Obj.t Piece) (prevId currentId : NodeId)
               (dests : list NodeId) : result (list NodeId) :=
  match n with
  | O => Ok dests
  | S n' =>
      currNode <- deref (Obj.get BOARD_NODES currentId) ;;
      nxt <- nextInLine prevId currentId (neighbors currNode) ;;
      match nxt with
      | Some nextId =>
          if truthy nextId && isEmpty pieces nextId
          then slide n' pieces currentId nextId (dests ++ [nextId])
          else Ok dests
      | None => Ok dests
      end
  end.

(** [[n1, n2].sort().join('-')] *)
Definition pairKey (n1 n2 : NodeId) : string :=
  (if String.leb n1 n2 then n1 ++ "-" ++ n2 else n2 ++ "-" ++ n1)%string.

(** Check "Pick": Opp - Center - Opp *)
Definition checkPick (pieces : Obj.t Piece) (center : NodeId) (me : Player)
  : result (list NodeId) :=
  match Obj.read BOARD_NODES center with
  | Obj.Missing => Ok []
  | Obj.Inherited => TypeError      (* [centerNode.neighbors] is not iterable *)
  | Obj.Own centerNode =>
      let opp := getOpponent me in
      '(res, _) <-
        foldM (fun acc n1 =>
          foldM (fun '(res, visitedPairs) n2 =>
            if n1 =? n2 then Ok (res, visitedPairs)
            else
              let key := pairKey n1 n2 in
              if includes visitedPairs key then Ok (res, visitedPairs)
              else
                let visitedPairs' := visitedPairs ++ [key] in
                b <- areCollinear n1 center n2 ;;
                if b && (ownedBy pieces n1 opp && ownedBy pieces n2 opp)
                then Ok (res ++ [n1; n2], visitedPairs')
                else Ok (res, visitedPairs'))
            acc (neighbors centerNode))
          ([], []) (neighbors centerNode) ;;
      Ok res
  end.

(** Check "Clamp": Center - Opp - Me *)
Definition checkClamp (pieces : Obj.t Piece) (center : NodeId) (me : Player)
  : result (list NodeId) :=
  match Obj.read BOARD_NODES center with
  | Obj.Missing => Ok []
  | Obj.Inherited => TypeError      (* [centerNode.neighbors] is not iterable *)
  | Obj.Own centerNode =>
      let opp := getOpponent me in
      foldM (fun res n1 =>
        if ownedBy pieces n1 opp then
          n1Node <- deref (Obj.get BOARD_NODES n1) ;;
          foldM (fun res n2 =>
            if n2 =? center then Ok res
            else
              b <- areCollinear center n1 n2 ;;
              if b && ownedBy pieces n2 me then Ok (res ++ [n1]) else Ok res)
            res (neighbors n1Node)
        else Ok res)
        [] (neighbors centerNode)
  end.

(** The variables of [calculateRecursiveCaptures] that one pass of its
    [while] loop reads and writes. *)
Record Cascade : Type := mkCascade {
  board : Obj.t Piece;              (* pieces: the virtual board *)
  totalCaptures : list NodeId;
  processedNodes : list NodeId;     (* a Set, in insertion order *)
  currentStepFlips : list NodeId;
  nextBatch : list NodeId
}.

(** The body of [flipped.forEach(fid => ...)].  [fid] is a target of the
    capture checks, a neighbour recorded in the topology. *)
Definition applyFlip (me : Player) (st : Cascade) (fid : NodeId) : Cascade :=
  if includes (totalCaptures st) fid then st
  else
    let total' := totalCaptures st ++ [fid] in
    let flips' := currentStepFlips st ++ [fid] in
    match Obj.get (board st) fid with
    | Some p =>
        mkCascade (Obj.set (board st) fid (mkPiece (piece_id p) me))
                  total' (processedNodes st) flips' (nextBatch st ++ [fid])
    | None =>
        mkCascade (board st) total' (processedNodes st) flips' (nextBatch st)
    end.

(** Pick first; clamp only when no pick pair was found. *)
Definition centerFlips (pieces : Obj.t Piece) (centerId : NodeId) (me : Player)
  : result (list NodeId) :=
  pickTargets <- checkPick pieces centerId me ;;
  match pickTargets with
  | _ :: _ => Ok pickTargets
  | [] => checkClamp pieces centerId me
  end.

(** [processedNodes.add(centerId)] *)
Definition markProcessed (st : Cascade) (centerId : NodeId) : Cascade :=
  mkCascade (board st) (totalCaptures st) (processedNodes st ++ [centerId])
            (currentStepFlips st) (nextBatch st).

(** The body of [for (const centerId of activeNodes)]. *)
Definition processCenter (me : Player) (st : Cascade) (centerId : NodeId)
  : result Cascade :=
  if includes (processedNodes st) centerId then Ok st
  else
    let st1 := markProcessed st centerId in
    flipped <- centerFlips (board st1) centerId me ;;
    Ok (fold_left (applyFlip me) flipped st1).

(** One pass of the [while] loop over [activeNodes], starting with empty
    [nextBatch] and [currentStepFlips]. *)
Definition cascadePass (me : Player) (st : Cascade) (activeNodes : list NodeId)
  : result Cascade :=
  foldM (processCenter me)
        (mkCascade (board st) (totalCaptures st) (processedNodes st) [] [])
        activeNodes.

(** [while (activeNodes.length > 0)], at most [fuel] passes. *)
Fixpoint cascadeLoop (fuel : nat) (me : Player) (st : Cascade)
                     (activeNodes : list NodeId) (steps : list (list NodeId))
  : result (list NodeId * list (list NodeId)) :=
  match activeNodes with
  | [] => Ok (totalCaptures st, steps)
  | _ :: _ =>
      match fuel with
      | O => OutOfFuel
      | S fuel' =>
          st' <- cascadePass me st activeNodes ;;
          let steps' :=
            match currentStepFlips st' with
            | _ :: _ => steps ++ [currentStepFlips st']
            | [] => steps
            end in
          cascadeLoop fuel' me st' (nextBatch st') steps'
      end
  end.

(** The virtual board after [delete pieces[from]; pieces[to] = mover].  When
    [from] is empty the source stores [undefined] under [to] (or, for an
    inherited name [from], a value without [player]), which every read of
    this function ([pieces[n]?.player], and [if (pieces[fid])] on a node
    that holds an opponent piece) treats as an absent property. *)
Definition virtualBoard (pieces : Obj.t Piece) (from to : NodeId)
  : Obj.t Piece :=
  match Obj.get pieces from with
  | Some mover => Obj.set (Obj.delete pieces from) to mover
  | None => Obj.delete (Obj.delete pieces from) to
  end.

(** Recursive capture logic.  Each pass but the last captures a node that
    holds a piece and was not captured before, so the number of pieces
    bounds the number of passes (lemma [cascadeLoop_total]). *)
Definition calculateRecursiveCaptures (initialState : GameState)
                                      (from to : NodeId)
  : result (list NodeId * list (list NodeId)) :=
  let currentPlayer := currentPlayer initialState in
  let pieces := virtualBoard (pieces initialState) from to in
  cascadeLoop (S (length pieces)) currentPlayer
              (mkCascade pieces [] [] [] []) [to] [].

(** The body of [startNode.neighbors.forEach(neighborId => ...)]. *)
Definition destinationsVia (state : GameState) (fromId : NodeId)
                           (potentialDestinations : list NodeId)
                           (neighborId : NodeId) : result (list NodeId) :=
  if isEmpty (pieces state) neighborId
  then slide 10 (pieces state) fromId neighborId
             (potentialDestinations ++ [neighborId])
  else Ok potentialDestinations.

(** Move generation.  [!piece || piece.player !== state.currentPlayer]
    holds for an empty [fromId] and for an inherited name alike. *)
Definition getValidMoves (state : GameState) (fromId : NodeId)
  : result (list Move) :=
  match Obj.get (pieces state) fromId with
  | None => Ok []
  | Some piece =>
      if negb (Player_eqb (player piece) (currentPlayer state)) then Ok []
      else
        startNode <- deref (Obj.get BOARD_NODES fromId) ;;
        potentialDestinations <-
          foldM (destinationsVia state fromId) [] (neighbors startNode) ;;
        foldM (fun moves toId =>
                 '(allCaptures, steps) <-
                   calculateRecursiveCaptures state fromId toId ;;
                 Ok (moves ++ [mkMove fromId toId (Some allCaptures) (Some steps)]))
              [] potentialDestinations
  end.

(* ================================================================== *)
(** ** utils.ts *)

Definition getInitialState : GameState :=
  let row0 :=
    fold_left (fun pieces c =>
                 Obj.set pieces ("0," ++ show c)%string
                         (mkPiece ("b-" ++ show c)%string black))
              (map Z.of_nat (seq 0 5)) [] in
  let row4 :=
    fold_left (fun pieces c =>
                 Obj.set pieces ("4," ++ show c)%string
                         (mkPiece ("w-" ++ show c)%string white))
              (map Z.of_nat (seq 0 5)) row0 in
  mkState row4 black None [] 0.

(** [Object.values(pieces).filter(p => p.player === who).length] *)
Definition countOf (pieces : Obj.t Piece) (who : Player) : nat :=
  length (filter (fun p => Player_eqb (player p) who) (Obj.values pieces)).

Definition maoceIds : list NodeId :=
  map (@id) (filter isMaoce (Obj.values BOARD_NODES)).

Definition piecesOf (pieces : Obj.t Piece) (who : Player)
  : list (NodeId * Piece) :=
  filter (fun '(_, p) => Player_eqb (player p) who) (Obj.entries pieces).

Definition isAllInMaoce (pieces : Obj.t Piece) (who : Player) : bool :=
  let playerPieces := piecesOf pieces who in
  match playerPieces with
  | [] => false
  | _ :: _ => forallb (fun '(nodeId, _) => includes maoceIds nodeId) playerPieces
  end.

Definition checkWinCondition (state : GameState) : option Player :=
  let blackCount := countOf (pieces state) black in
  let whiteCount := countOf (pieces state) white in
  if Nat.eqb blackCount 0 then Some white
  else if Nat.eqb whiteCount 0 then Some black
  else if isAllInMaoce (pieces state) black then Some white
  else if isAllInMaoce (pieces state) white then Some black
  else None.

(* ================================================================== *)
(** ** Numbers with infinities *)

Inductive EZ : Type := NegInf | Fin (z : Z) | PosInf.

Module EZ.
(** [a <= b] *)
Definition leb (a b : EZ) : bool :=
  match a, b with
  | NegInf, _ => true
  | _, PosInf => true
  | Fin m, Fin n => (m <=? n)%Z
  | _, _ => false
  end.

(** [a > b] is [ltb b a]. *)
Definition ltb (a b : EZ) : bool := negb (leb b a).

(** [Math.max(a, b)] *)
Definition max (a b : EZ) : EZ :=
  match a, b with
  | PosInf, _ | _, PosInf => PosInf
  | NegInf, c | c, NegInf => c
  | Fin m, Fin n => Fin (Z.max m n)
  end.

(** [Math.min(a, b)] *)
Definition min (a b : EZ) : EZ :=
  match a, b with
  | NegInf, _ | _, NegInf => NegInf
  | PosInf, c | c, PosInf => c
  | Fin m, Fin n => Fin (Z.min m n)
  end.

(** The order as a proposition. *)
Definition le (a b : EZ) : Prop :=
  match a, b with
  | NegInf, _ => True
  | _, PosInf => True
  | Fin m, Fin n => (m <= n)%Z
  | _, _ => False
  end.

Definition lt (a b : EZ) : Prop := ~ le b a.
End EZ.

(* ================================================================== *)
(** ** ai.ts *)

Module SCORES.
Definition WIN : Z := 10000.
Definition LOSS : Z := -10000.
Definition PIECE_VALUE : Z := 100.
Definition MAOCE_PENALTY : Z := -500.
Definition MOBILITY_VALUE : Z := 5.
End SCORES.

(** [BOARD_NODES[nodeId].isMaoce] as a condition: the flag of a node,
    [undefined] (falsy) under an inherited name, a [TypeError] where
    [BOARD_NODES[nodeId]] is [undefined]. *)
Definition isMaoceAt (nodeId : NodeId) : result bool :=
  match Obj.read BOARD_NODES nodeId with
  | Obj.Own node => Ok (isMaoce node)
  | Obj.Inherited => Ok false
  | Obj.Missing => TypeError
  end.

(** Heuristic evaluation. *)
Definition evaluate (state : GameState) (aiPlayer : Player) : result Z :=
  match checkWinCondition state with
  | Some w =>
      if Player_eqb w aiPlayer then Ok SCORES.WIN else Ok SCORES.LOSS
  | None =>
      foldM (fun score '(nodeId, piece) =>
               if Player_eqb (player piece) aiPlayer then
                 let score1 := (score + SCORES.PIECE_VALUE)%Z in
                 inMaoce <- isMaoceAt nodeId ;;
                 if inMaoce then Ok (score1 + SCORES.MAOCE_PENALTY)%Z
                 else Ok score1
               else
                 let score1 := (score - SCORES.PIECE_VALUE)%Z in
                 inMaoce <- isMaoceAt nodeId ;;
                 if inMaoce then Ok (score1 - SCORES.MAOCE_PENALTY)%Z
                 else Ok score1)
            0%Z (Obj.entries (pieces state))
  end.

Definition getAllMoves (state : GameState) (who : Player) : result (list Move) :=
  foldM (fun moveList '(nodeId, piece) =>
           if Player_eqb (player piece) who then
             moves <- getValidMoves state nodeId ;;
             Ok (moveList ++ moves)
           else Ok moveList)
        [] (Obj.entries (pieces state)).

(** [newPieces[capId] = { ...newPieces[capId], player }] when occupied. *)
Definition flipTo (who : Player) (pieces : Obj.t Piece) (capId : NodeId)
  : Obj.t Piece :=
  match Obj.get pieces capId with
  | Some p => Obj.set pieces capId (mkPiece (piece_id p) who)
  | None => pieces
  end.

(** Simulation of a move.  The moves the search applies come from
    [getValidMoves] on the same state, so [move.from] holds a piece and the
    captures are nodes that hold pieces; the model is of these moves.  For
    an empty [move.from] the source returns a state with [undefined] stored
    under [move.to], a value [Obj.t Piece] has no place for; the first read
    of that position ([p.player] in [checkWinCondition], which every caller
    runs next) throws, and the model reports that [TypeError] here. *)
Definition simulateMove (state : GameState) (move : Move) : result GameState :=
  movingPiece <- deref (Obj.get (pieces state) (from move)) ;;
  let moved := Obj.set (Obj.delete (pieces state) (from move))
                       (to move) movingPiece in
  let newPieces :=
    match captures move with
    | Some caps => fold_left (flipTo (currentPlayer state)) caps moved
    | None => moved
    end in
  Ok (mkState newPieces (getOpponent (currentPlayer state)) None []
              (turnCount state + 1)).

(** [b.captures?.length || 0] *)
Definition captureCount (m : Move) : nat :=
  match captures m with
  | Some caps => length caps
  | None => 0
  end.

(** [moves.sort((a, b) => count(b) - count(a))]: the sort of an array is
    stable, so the result is the one of a stable insertion sort by
    descending capture count. *)
Fixpoint insertMove (m : Move) (sorted : list Move) : list Move :=
  match sorted with
  | [] => [m]
  | h :: t =>
      if Nat.leb (captureCount h) (captureCount m) then m :: h :: t
      else h :: insertMove m t
  end.

Definition sortMoves (moves : list Move) : list Move :=
  fold_right insertMove [] moves.

Section Loops.
(** [child s alpha beta] is the recursive call of [minimax] on the
    position [s], one ply deeper. *)
Variable child : GameState -> EZ -> EZ -> result EZ.
Variable state : GameState.

Fixpoint maxLoop (moves : list Move) (maxEval alpha beta : EZ) : result EZ :=
  match moves with
  | [] => Ok maxEval
  | move :: rest =>
      nextState <- simulateMove state move ;;
      evalScore <- child nextState alpha beta ;;
      let maxEval' := EZ.max maxEval evalScore in
      let alpha' := EZ.max alpha evalScore in
      if EZ.leb beta alpha' then Ok maxEval'
      else maxLoop rest maxEval' alpha' beta
  end.

Fixpoint minLoop (moves : list Move) (minEval alpha beta : EZ) : result EZ :=
  match moves with
  | [] => Ok minEval
  | move :: rest =>
      nextState <- simulateMove state move ;;
      evalScore <- child nextState alpha beta ;;
      let minEval' := EZ.min minEval evalScore in
      let beta' := EZ.min beta evalScore in
      if EZ.leb beta' alpha then Ok minEval'
      else minLoop rest minEval' alpha beta'
  end.
End Loops.

Definition isSome {A : Type} (o : option A) : bool :=
  match o with Some _ => true | None => false end.

(** Minimax with alpha-beta.  [fuel] bounds the nesting of recursive calls;
    a call with [0 <= depth] needs no more than [depth] (lemma
    [minimax_total]). *)
Fixpoint minimax (fuel : nat) (state : GameState) (depth : Z)
                 (isMaximizing : bool) (alpha beta : EZ) (aiPlayer : Player)
  : result EZ :=
  if isSome (checkWinCondition state) || (depth =? 0)%Z then
    score <- evaluate state aiPlayer ;; Ok (Fin score)
  else
    let currPlayer := if isMaximizing then aiPlayer else getOpponent aiPlayer in
    moves <- getAllMoves state currPlayer ;;
    match moves with
    | [] => score <- evaluate state aiPlayer ;; Ok (Fin score)
    | _ :: _ =>
        match fuel with
        | O => OutOfFuel
        | S fuel' =>
            if isMaximizing then
              maxLoop (fun s a b => minimax fuel' s (depth - 1) false a b aiPlayer)
                      state moves NegInf alpha beta
            else
              minLoop (fun s a b => minimax fuel' s (depth - 1) true a b aiPlayer)
                      state moves PosInf alpha beta
        end
    end.

(** The score [getBestMove] gives a root move: [alpha] and [beta] are the
    constants [-Infinity] and [Infinity] there. *)
Definition rootScore (state : GameState) (depth : Z) (aiPlayer : Player)
                     (move : Move) : result EZ :=
  nextState <- simulateMove state move ;;
  minimax (Z.to_nat (depth - 1)) nextState (depth - 1) false
          NegInf PosInf aiPlayer.

(** The body of the root loop of [getBestMove], on the pair
    [(bestMove, bestScore)]. *)
Definition rootStep (state : GameState) (depth : Z) (aiPlayer : Player)
                    (best : option Move * EZ) (move : Move)
  : result (option Move * EZ) :=
  score <- rootScore state depth aiPlayer move ;;
  if EZ.ltb (snd best) score then Ok (Some move, score) else Ok best.

Definition searchRoot (state : GameState) (depth : Z) (aiPlayer : Player)
  : result (option Move * EZ) :=
  moves <- getAllMoves state aiPlayer ;;
  foldM (rootStep state depth aiPlayer) (None, NegInf) (sortMoves moves).

Definition getBestMove (state : GameState) (depth : Z) (aiPlayer : Player)
  : result (option Move) :=
  best <- searchRoot state depth aiPlayer ;; Ok (fst best).

(* ================================================================== *)
(** ** Plain minimax (the reference of the refinement) *)

(** [xs.map(f)] where [f] may throw. *)
Fixpoint mapM {A B : Type} (f : A -> result B) (xs : list A) : result (list B) :=
  match xs with
  | [] => Ok []
  | x :: xs' => y <- f x ;; ys <- mapM f xs' ;; Ok (y :: ys)
  end.

(** Depth-limited minimax as the specification words it: the same terminal
    conditions, the same moves in generation order, the maximum of the
    children's values at the searching side's plies and the minimum at the
    opponent's; no window, no cut-off, no ordering. *)
Fixpoint plainMinimax (fuel : nat) (state : GameState) (depth : Z)
                      (isMaximizing : bool) (aiPlayer : Player) : result EZ :=
  if isSome (checkWinCondition state) || (depth =? 0)%Z then
    score <- evaluate state aiPlayer ;; Ok (Fin score)
  else
    let currPlayer := if isMaximizing then aiPlayer else getOpponent aiPlayer in
    moves <- getAllMoves state currPlayer ;;
    match moves with
    | [] => score <- evaluate state aiPlayer ;; Ok (Fin score)
    | _ :: _ =>
        match fuel with
        | O => OutOfFuel
        | S fuel' =>
            scores <-
              mapM (fun move =>
                      nextState <- simulateMove state move ;;
                      plainMinimax fuel' nextState (depth - 1)
                                   (negb isMaximizing) aiPlayer)
                   moves ;;
            if isMaximizing then Ok (fold_left EZ.max scores NegInf)
            else Ok (fold_left EZ.min scores PosInf)
        end
    end.

Definition plainRootValue (state : GameState) (depth : Z) (aiPlayer : Player)
                          (move : Move) : result EZ :=
  nextState <- simulateMove state move ;;
  plainMinimax (Z.to_nat (depth - 1)) nextState (depth - 1) false aiPlayer.

(** The value of the root for the searching side: the maximum over its
    moves, in generation order. *)
Definition plainRootScore (state : GameState) (depth : Z) (aiPlayer : Player)
  : result EZ :=
  moves <- getAllMoves state aiPlayer ;;
  scores <- mapM (plainRootValue state depth aiPlayer) moves ;;
  Ok (fold_left EZ.max scores NegInf).

(* ================================================================== *)
(** ** executeMove (page component) *)

(** The position [executeMove] leaves in the game state once its sequence
    of updates has run: the piece moved, the capture groups applied one
    after the other, the turn passed and the winner recorded.  As in
    [simulateMove], an empty [move.from] makes [checkWinCondition] throw. *)
Definition executeMove (gameState : GameState) (move : Move) : result GameState :=
  let nextPlayer := getOpponent (currentPlayer gameState) in
  movingPiece <- deref (Obj.get (pieces gameState) (from move)) ;;
  let moved := Obj.set (Obj.delete (pieces gameState) (from move))
                       (to move) movingPiece in
  let currentHistory :=
    history gameState
      ++ [mkSnapshot (pieces gameState) (currentPlayer gameState)] in
  let currentPieces :=
    match captureSteps move with
    | Some steps =>
        fold_left (fun pcs step =>
                     fold_left (flipTo (currentPlayer gameState)) step pcs)
                  steps moved
    | None => moved
    end in
  let winner :=
    checkWinCondition (mkState currentPieces (currentPlayer gameState)
                               (winner gameState) (history gameState)
                               (turnCount gameState)) in
  Ok (mkState currentPieces nextPlayer winner currentHistory
              (turnCount gameState + 1)).

(* ================================================================== *)
(** ** The page component: reset, undo, clicks and the machine's turn *)

Inductive GameMode : Type := PvP | PvE.

Definition GameMode_eqb (a b : GameMode) : bool :=
  match a, b with
  | PvP, PvP | PvE, PvE => true
  | _, _ => false
  end.

(** animation-types.ts *)
Inductive AnimationStep : Type := highlight | moving | landed.

Record AnimationState : Type := mkAnimation {
  anim_step : AnimationStep;
  anim_from : NodeId;
  anim_to : NodeId;
  anim_piece : Piece
}.

(** The state variables of the component.  A page is described at rest,
    between two events: the handlers below give the page once the updates
    an event starts have all run. *)
Record Page : Type := mkPage {
  gameState : GameState;
  selectedNode : option NodeId;
  validMoves : list Move;
  gameMode : GameMode;
  aiThinking : bool;
  animation : option AnimationState
}.

(** The initial values of the [useState] calls. *)
Definition initialPage : Page :=
  mkPage getInitialState None [] PvP false None.

Definition handleReset (page : Page) : Page :=
  mkPage getInitialState None [] (gameMode page) false None.

(** The mode buttons: [setGameMode(mode); handleReset()]. *)
Definition selectMode (mode : GameMode) (page : Page) : Page :=
  mkPage getInitialState None [] mode false None.

(** The state [handleUndo] stores when it goes [back] snapshots back. *)
Definition undoTo (page : Page) (back : nat) : result Page :=
  let gs := gameState page in
  prev <- deref (nth_error (history gs) (length (history gs) - back)) ;;
  Ok (mkPage (mkState (snap_pieces prev) (snap_currentPlayer prev) None
                      (firstn (length (history gs) - back) (history gs))
                      (turnCount gs))
             None [] (gameMode page) (aiThinking page) (animation page)).

Definition handleUndo (page : Page) : result Page :=
  let gs := gameState page in
  if Nat.eqb (length (history gs)) 0 || aiThinking page then Ok page
  else
    match gameMode page with
    | PvE =>
        if Nat.ltb (length (history gs)) 2 then Ok (handleReset page)
        else undoTo page 2
    | PvP => undoTo page 1
    end.

(** [executeMove] on the page: the game state it leaves, and the selection
    cleared. *)
Definition playMove (page : Page) (move : Move) : result Page :=
  played <- executeMove (gameState page) move ;;
  Ok (mkPage played None [] (gameMode page) (aiThinking page)
             (animation page)).

(** [if (selectedNode)]: [null] and the empty string are falsy. *)
Definition selected (node : option NodeId) : bool :=
  match node with
  | Some s => truthy s
  | None => false
  end.

Definition handleNodeClick (page : Page) (nodeId : NodeId) : result Page :=
  let gs := gameState page in
  if isSome (winner gs) || aiThinking page then Ok page
  else if GameMode_eqb (gameMode page) PvE
          && Player_eqb (currentPlayer gs) white then Ok page
  else
    let select :=
      match Obj.get (pieces gs) nodeId with
      | Some piece => Player_eqb (player piece) (currentPlayer gs)
      | None => false
      end in
    if select then
      moves <- getValidMoves gs nodeId ;;
      Ok (mkPage gs (Some nodeId) moves (gameMode page) (aiThinking page)
                 (animation page))
    else if selected (selectedNode page) then
      match find (fun m => to m =? nodeId) (validMoves page) with
      | Some move => playMove page move
      | None =>
          Ok (mkPage gs None [] (gameMode page) (aiThinking page)
                     (animation page))
      end
    else Ok page.

(** The effect that plays for white against the machine: the page once
    [runAi] has finished. *)
Definition runAi (page : Page) : result Page :=
  let gs := gameState page in
  if GameMode_eqb (gameMode page) PvE
     && Player_eqb (currentPlayer gs) white
     && negb (isSome (winner gs)) && negb (aiThinking page) then
    best <- getBestMove gs 3 white ;;
    match best with
    | Some move =>
        played <- executeMove gs move ;;
        Ok (mkPage played None [] (gameMode page) false None)
    | None =>
        Ok (mkPage gs (selectedNode page) (validMoves page) (gameMode page)
                   false (animation page))
    end
  else Ok page.

(* ================================================================== *)
(** * Properties *)

(** ** Outcomes and loops *)

Lemma bind_Ok (A B : Type) (c : result A) (k : A -> result B) (b : B) :
  bind c k = Ok b -> exists a, c = Ok a /\ k a = Ok b.
Proof.
  destruct c as [a| |]; simpl; intros H; try discriminate.
  exists a. split; [reflexivity | exact H].
Qed.

(** Inversion of a hypothesis [x <- c ;; k = Ok r]. *)
Ltac inv_bind H :=
  let a := fresh "a" in
  let Ha := fresh "Ha" in
  apply bind_Ok in H; destruct H as [a [Ha H]].

(** A loop invariant for [foldM]: what every iteration that returns
    preserves holds of the value of a loop that returns. *)
Lemma foldM_invariant (A B : Type) (P : A -> Prop) (body : A -> B -> result A)
      (xs : list B) :
  (forall a x a', In x xs -> P a -> body a x = Ok a' -> P a') ->
  forall acc r, P acc -> foldM body acc xs = Ok r -> P r.
Proof.
  induction xs as [|x xs IH]; simpl; intros Hstep acc r Hacc Hrun.
  - injection Hrun as <-. exact Hacc.
  - inv_bind Hrun.
    eapply IH; [ | | exact Hrun].
    + intros b y b' Hy. apply Hstep. now right.
    + eapply Hstep; [now left | exact Hacc | exact Ha].
Qed.

(** A loop whose iterations all return, returns. *)
Lemma foldM_total (A B : Type) (P : A -> Prop) (body : A -> B -> result A)
      (xs : list B) :
  (forall a x, In x xs -> P a -> exists a', body a x = Ok a' /\ P a') ->
  forall acc, P acc -> exists r, foldM body acc xs = Ok r /\ P r.
Proof.
  induction xs as [|x xs IH]; simpl; intros Hstep acc Hacc.
  - exists acc. split; [reflexivity | exact Hacc].
  - destruct (Hstep acc x) as [a' [Ha' Pa']]; auto.
    rewrite Ha'. simpl. apply IH; auto.
Qed.

Lemma foldM_returns (A B : Type) (body : A -> B -> result A) (xs : list B) :
  (forall a x, In x xs -> exists a', body a x = Ok a') ->
  forall acc, exists r, foldM body acc xs = Ok r.
Proof.
  intros Hstep acc.
  destruct (@foldM_total A B (fun _ => True) body xs) with (acc := acc)
    as [r [Hr _]]; [|exact I|now exists r].
  intros a x Hx _. destruct (Hstep a x Hx) as [a' Ha']. now exists a'.
Qed.

Lemma Player_eqb_eq (p q : Player) : Player_eqb p q = true <-> p = q.
Proof. destruct p, q; simpl; split; intros H; congruence. Qed.

Lemma Player_eqb_refl (p : Player) : Player_eqb p p = true.
Proof. destruct p; reflexivity. Qed.

Lemma Player_eqb_opponent (p : Player) : Player_eqb p (getOpponent p) = false.
Proof. destruct p; reflexivity. Qed.

Lemma includes_In (xs : list string) (x : string) :
  includes xs x = true <-> In x xs.
Proof.
  unfold includes. rewrite existsb_exists. split.
  - intros [y [Hy Heq]]. apply String.eqb_eq in Heq. subst. exact Hy.
  - intros H. exists x. split; [exact H | apply String.eqb_refl].
Qed.

Lemma includes_app (xs ys : list string) (x : string) :
  includes (xs ++ ys) x = includes xs x || includes ys x.
Proof. unfold includes. apply existsb_app. Qed.

(** ** Objects *)

Section ObjFacts.
Variable V : Type.
Implicit Types (o : Obj.t V) (k : string) (v : V).

Lemma get_In o k v : Obj.get o k = Some v -> In (k, v) o.
Proof.
  induction o as [|[k' v'] o IH]; simpl; intros H; [discriminate|].
  destruct (String.eqb_spec k' k) as [->|Hne].
  - injection H as <-. now left.
  - right. auto.
Qed.

Lemma get_key o k v : Obj.get o k = Some v -> In k (Obj.keys o).
Proof.
  intros H. apply get_In in H. unfold Obj.keys.
  change k with (fst (k, v)). now apply in_map.
Qed.

Lemma get_None_key o k : Obj.get o k = None <-> ~ In k (Obj.keys o).
Proof.
  induction o as [|[k' v'] o IH]; simpl.
  - tauto.
  - destruct (String.eqb_spec k' k) as [->|Hne].
    + split; [discriminate | intros H; exfalso; apply H; now left].
    + rewrite IH. tauto.
Qed.

Lemma In_get o k v : Obj.wf o -> In (k, v) o -> Obj.get o k = Some v.
Proof.
  unfold Obj.wf, Obj.keys.
  induction o as [|[k' v'] o IH]; simpl; intros Hnd Hin; [contradiction|].
  inversion Hnd as [|? ? Hnotin Hnd']; subst.
  destruct Hin as [Heq|Hin].
  - injection Heq as -> ->. now rewrite String.eqb_refl.
  - destruct (String.eqb_spec k' k) as [->|Hne]; [|auto].
    exfalso. apply Hnotin. change k with (fst (k, v)). now apply in_map.
Qed.

Lemma get_set_same o k v : Obj.get (Obj.set o k v) k = Some v.
Proof.
  induction o as [|[k' v'] o IH]; simpl.
  - now rewrite String.eqb_refl.
  - destruct (String.eqb_spec k' k) as [->|Hne]; simpl.
    + now rewrite String.eqb_refl.
    + destruct (String.eqb_spec k' k); [contradiction | exact IH].
Qed.

Lemma get_set_other o k k' v :
  k <> k' -> Obj.get (Obj.set o k v) k' = Obj.get o k'.
Proof.
  intros Hne. induction o as [|[k0 v0] o IH]; simpl.
  - destruct (String.eqb_spec k k'); [contradiction | reflexivity].
  - destruct (String.eqb_spec k0 k) as [->|Hne0]; simpl.
    + destruct (String.eqb_spec k k'); [contradiction | reflexivity].
    + now rewrite IH.
Qed.

Lemma get_delete_same o k : Obj.get (Obj.delete o k) k = None.
Proof.
  unfold Obj.delete. induction o as [|[k' v'] o IH]; simpl; [reflexivity|].
  destruct (String.eqb_spec k' k) as [->|Hne]; simpl; [exact IH|].
  destruct (String.eqb_spec k' k); [contradiction | exact IH].
Qed.

Lemma get_delete_other o k k' :
  k <> k' -> Obj.get (Obj.delete o k) k' = Obj.get o k'.
Proof.
  intros Hne. unfold Obj.delete.
  induction o as [|[k0 v0] o IH]; simpl; [reflexivity|].
  destruct (String.eqb_spec k0 k) as [->|Hne0]; simpl.
  - destruct (String.eqb_spec k k'); [contradiction | exact IH].
  - now rewrite IH.
Qed.

(** Writing an existing property changes no property name. *)
Lemma keys_set_present o k v v' :
  Obj.get o k = Some v' -> Obj.keys (Obj.set o k v) = Obj.keys o.
Proof.
  unfold Obj.keys. induction o as [|[k0 v0] o IH]; simpl; [discriminate|].
  destruct (String.eqb_spec k0 k) as [->|Hne]; simpl; intros H.
  - reflexivity.
  - now rewrite IH.
Qed.

(** Writing a new property adds its name last. *)
Lemma keys_set_absent o k v :
  Obj.get o k = None -> Obj.keys (Obj.set o k v) = Obj.keys o ++ [k].
Proof.
  unfold Obj.keys. induction o as [|[k0 v0] o IH]; simpl; [reflexivity|].
  destruct (String.eqb_spec k0 k) as [->|Hne]; simpl; intros H.
  - discriminate.
  - now rewrite IH.
Qed.

Lemma keys_delete o k k' :
  In k' (Obj.keys (Obj.delete o k)) <-> In k' (Obj.keys o) /\ k' <> k.
Proof.
  unfold Obj.keys, Obj.delete.
  induction o as [|[k0 v0] o IH]; simpl; [tauto|].
  destruct (String.eqb_spec k0 k) as [->|Hne]; simpl; rewrite IH.
  - split; [tauto|]. intros [[Heq|Hin] Hk]; [congruence | tauto].
  - split; [|tauto]. intros [Heq|[Hin Hk]]; [subst; tauto | tauto].
Qed.

Lemma length_set_present o k v v' :
  Obj.get o k = Some v' -> length (Obj.set o k v) = length o.
Proof.
  intros H. apply keys_set_present with (v := v) in H.
  unfold Obj.keys in H. apply (f_equal (@length _)) in H.
  now rewrite !length_map in H.
Qed.

Lemma length_set_absent o k v :
  Obj.get o k = None -> length (Obj.set o k v) = S (length o).
Proof.
  intros H. apply keys_set_absent with (v := v) in H.
  unfold Obj.keys in H. apply (f_equal (@length _)) in H.
  rewrite length_app, !length_map in H. simpl in H. lia.
Qed.

(** Deleting a property of an object removes exactly one entry. *)
Lemma length_delete_present o k v :
  Obj.wf o -> Obj.get o k = Some v ->
  S (length (Obj.delete o k)) = length o.
Proof.
  unfold Obj.wf, Obj.keys, Obj.delete.
  induction o as [|[k0 v0] o IH]; simpl; intros Hnd H; [discriminate|].
  inversion Hnd as [|? ? Hnotin Hnd']; subst.
  destruct (String.eqb_spec k0 k) as [->|Hne]; simpl.
  - f_equal. clear IH H Hnd Hnd'.
    induction o as [|[k1 v1] o IH]; simpl; [reflexivity|].
    destruct (String.eqb_spec k1 k) as [->|Hne1]; simpl.
    + exfalso. apply Hnotin. now left.
    + f_equal. apply IH. intros Hin. apply Hnotin. now right.
  - f_equal. now apply IH.
Qed.
End ObjFacts.

(** ** Board topology *)

(** The topology is a constant of the program; proofs read it through
    the lemmas below and by evaluation of closed terms. *)
#[global] Opaque BOARD_NODES.

(** The initialisation of the module returns, and leaves the topology. *)
Lemma BOARD_NODES_built : buildNodes = (BOARD_NODES, Ok tt).
Proof. vm_compute. reflexivity. Qed.

Definition known (n : NodeId) : Prop :=
  exists node, Obj.get BOARD_NODES n = Some node.

Lemma read_own (V : Type) (o : Obj.t V) (k : string) (v : V) :
  Obj.get o k = Some v -> Obj.read o k = Obj.Own v.
Proof. unfold Obj.read. now intros ->. Qed.

(** No node of the topology bears a name inherited from
    [Object.prototype]. *)
Lemma known_not_inherited (n : NodeId) : known n -> Obj.inherited n = false.
Proof.
  intros [node Hn].
  assert (Hnames : forallb (fun k => negb (Obj.inherited k))
                           (Obj.keys BOARD_NODES) = true)
    by (vm_compute; reflexivity).
  rewrite forallb_forall in Hnames.
  specialize (Hnames n (get_key _ _ Hn)).
  now destruct (Obj.inherited n).
Qed.

(** Every neighbour recorded in the topology is a node of the topology. *)
Lemma neighbors_known (n m : NodeId) (node : BoardNode) :
  Obj.get BOARD_NODES n = Some node -> In m (neighbors node) -> known m.
Proof.
  intros Hn Hm.
  assert (Hclosed :
    forallb (fun kv => forallb (fun m => isSome (Obj.get BOARD_NODES m))
                               (neighbors (snd kv)))
            BOARD_NODES = true) by (vm_compute; reflexivity).
  rewrite forallb_forall in Hclosed.
  apply get_In in Hn. specialize (Hclosed _ Hn). simpl in Hclosed.
  rewrite forallb_forall in Hclosed. specialize (Hclosed _ Hm).
  unfold known. destruct (Obj.get BOARD_NODES m) as [node'|]; [|discriminate].
  now exists node'.
Qed.

(** The topology is undirected: every edge is recorded on both ends. *)
Lemma neighbors_symmetric (n m : NodeId) (node : BoardNode) :
  Obj.get BOARD_NODES n = Some node -> In m (neighbors node) ->
  exists node', Obj.get BOARD_NODES m = Some node' /\ In n (neighbors node').
Proof.
  intros Hn Hm.
  assert (Hsym :
    forallb (fun kv =>
      forallb (fun m => match Obj.get BOARD_NODES m with
                        | Some node' => includes (neighbors node') (fst kv)
                        | None => false
                        end)
              (neighbors (snd kv)))
      BOARD_NODES = true) by (vm_compute; reflexivity).
  rewrite forallb_forall in Hsym.
  apply get_In in Hn. specialize (Hsym _ Hn). simpl in Hsym.
  rewrite forallb_forall in Hsym. specialize (Hsym _ Hm).
  destruct (Obj.get BOARD_NODES m) as [node'|]; [|discriminate].
  exists node'. split; [reflexivity | now apply includes_In].
Qed.

(** The pure content of [areCollinear]. *)
Definition collinear (n1 n2 n3 : NodeId) : bool :=
  match Obj.get BOARD_NODES n1, Obj.get BOARD_NODES n2, Obj.get BOARD_NODES n3 with
  | Some p1, Some p2, Some p3 =>
      nearZero ((y p2 - y p1) * (x p3 - x p2) - (x p2 - x p1) * (y p3 - y p2))
  | _, _, _ => false
  end.

(** [areCollinear] never throws. *)
Lemma areCollinear_Ok (n1 n2 n3 : NodeId) :
  areCollinear n1 n2 n3 = Ok (collinear n1 n2 n3).
Proof.
  unfold areCollinear, collinear.
  destruct (Obj.get BOARD_NODES n1), (Obj.get BOARD_NODES n2),
           (Obj.get BOARD_NODES n3); reflexivity.
Qed.

(** On integers the tolerance test is the test for zero. *)
Lemma nearZero_spec (val : Z) : nearZero val = true <-> val = 0%Z.
Proof. unfold nearZero. rewrite Z.ltb_lt. lia. Qed.

(** ** Capture patterns *)

Section Patterns.
Variable pieces : Obj.t Piece.
Variable me : Player.

Let opp := getOpponent me.

(** Every target of a pick holds an opponent piece. *)
Lemma checkPick_owned (center : NodeId) (targets : list NodeId) :
  checkPick pieces center me = Ok targets ->
  Forall (fun n => ownedBy pieces n opp = true) targets.
Proof.
  unfold checkPick, Obj.read.
  destruct (Obj.get BOARD_NODES center) as [centerNode|].
  2:{ destruct (Obj.inherited center); intros H; [discriminate|].
      injection H as <-. constructor. }
  intros H. inv_bind H. destruct a as [res vis]. injection H as <-.
  revert Ha.
  apply foldM_invariant
    with (P := fun acc => Forall (fun n => ownedBy pieces n opp = true) (fst acc));
    [|simpl; constructor].
  intros acc n1 acc' _ Hacc.
  apply foldM_invariant
    with (P := fun acc => Forall (fun n => ownedBy pieces n opp = true) (fst acc));
    [|exact Hacc].
  clear acc acc' Hacc. intros [r v] n2 acc' _ Hr. simpl in Hr.
  destruct (n1 =? n2); [intros H; injection H as <-; exact Hr|].
  destruct (includes v (pairKey n1 n2)); [intros H; injection H as <-; exact Hr|].
  rewrite areCollinear_Ok. simpl.
  destruct (collinear n1 center n2); simpl;
    [|intros H; injection H as <-; exact Hr].
  fold opp.
  destruct (ownedBy pieces n1 opp) eqn:H1; simpl;
    [|intros H; injection H as <-; exact Hr].
  destruct (ownedBy pieces n2 opp) eqn:H2; simpl;
    intros H; injection H as <-; simpl; [|exact Hr].
  apply Forall_app. split; [exact Hr|]. repeat constructor; assumption.
Qed.

(** [checkPick] returns, but for a centre that bears an inherited name. *)
Lemma checkPick_total (center : NodeId) :
  Obj.inherited center = false ->
  exists targets, checkPick pieces center me = Ok targets.
Proof.
  intros Hname. unfold checkPick, Obj.read. rewrite Hname.
  destruct (Obj.get BOARD_NODES center) as [centerNode|]; [|now exists []].
  match goal with
  | |- context [foldM ?body ?init ?xs] =>
      assert (Hloop : forall acc, exists r, foldM body acc xs = Ok r);
        [apply foldM_returns | destruct (Hloop init) as [[res vis] Hrun]]
  end.
  - intros acc n1 _.
    apply foldM_returns.
    intros [r v] n2 _.
    destruct (n1 =? n2); [eexists; reflexivity|].
    simpl. destruct (includes v (pairKey n1 n2)); [eexists; reflexivity|].
    rewrite areCollinear_Ok. simpl.
    destruct (collinear n1 center n2 &&
              (ownedBy pieces n1 (getOpponent me)
               && ownedBy pieces n2 (getOpponent me)));
      eexists; reflexivity.
  - rewrite Hrun. simpl. now exists res.
Qed.

(** Every target of a clamp holds an opponent piece. *)
Lemma checkClamp_owned (center : NodeId) (targets : list NodeId) :
  checkClamp pieces center me = Ok targets ->
  Forall (fun n => ownedBy pieces n opp = true) targets.
Proof.
  unfold checkClamp, Obj.read.
  destruct (Obj.get BOARD_NODES center) as [centerNode|].
  2:{ destruct (Obj.inherited center); intros H; [discriminate|].
      injection H as <-. constructor. }
  apply foldM_invariant
    with (P := Forall (fun n => ownedBy pieces n opp = true)); [|constructor].
  intros res n1 res' _ Hres. fold opp.
  destruct (ownedBy pieces n1 opp) eqn:H1;
    [|intros H; injection H as <-; exact Hres].
  intros H. inv_bind H. revert H.
  apply foldM_invariant
    with (P := Forall (fun n => ownedBy pieces n opp = true)); [|exact Hres].
  clear res res' Hres. intros res n2 res' _ Hres.
  destruct (n2 =? center); [intros H; injection H as <-; exact Hres|].
  rewrite areCollinear_Ok. simpl.
  destruct (collinear center n1 n2 && ownedBy pieces n2 me);
    intros H; injection H as <-; [|exact Hres].
  apply Forall_app. split; [exact Hres|]. repeat constructor; assumption.
Qed.

(** [checkClamp] returns, but for a centre that bears an inherited name:
    the neighbours it dereferences are nodes of the topology. *)
Lemma checkClamp_total (center : NodeId) :
  Obj.inherited center = false ->
  exists targets, checkClamp pieces center me = Ok targets.
Proof.
  intros Hname. unfold checkClamp, Obj.read. rewrite Hname.
  destruct (Obj.get BOARD_NODES center) as [centerNode|] eqn:Hc;
    [|now exists []].
  apply foldM_returns.
  intros res n1 Hn1.
  destruct (ownedBy pieces n1 (getOpponent me)); [|eexists; reflexivity].
  destruct (@neighbors_known _ _ _ Hc Hn1) as [n1Node Hn1Node].
  rewrite Hn1Node. simpl.
  apply foldM_returns.
  intros res2 n2 _.
  destruct (n2 =? center); [eexists; reflexivity|].
  rewrite areCollinear_Ok. simpl.
  destruct (collinear center n1 n2 && ownedBy pieces n2 me);
    eexists; reflexivity.
Qed.

Lemma centerFlips_owned (center : NodeId) (flipped : list NodeId) :
  centerFlips pieces center me = Ok flipped ->
  Forall (fun n => ownedBy pieces n opp = true) flipped.
Proof.
  unfold centerFlips. intros H. inv_bind H.
  destruct a as [|n rest].
  - now apply checkClamp_owned in H.
  - injection H as <-. now apply checkPick_owned in Ha.
Qed.

Lemma centerFlips_total (center : NodeId) :
  Obj.inherited center = false ->
  exists flipped, centerFlips pieces center me = Ok flipped.
Proof.
  intros Hname. unfold centerFlips.
  destruct (@checkPick_total center Hname) as [picks ->]. simpl.
  destruct picks as [|n rest]; [now apply checkClamp_total | eauto].
Qed.

(** Under an inherited name the pick check throws, and the clamp check is
    not reached. *)
Lemma centerFlips_inherited (center : NodeId) :
  Obj.get BOARD_NODES center = None -> Obj.inherited center = true ->
  checkPick pieces center me = TypeError
  /\ checkClamp pieces center me = TypeError
  /\ centerFlips pieces center me = TypeError.
Proof.
  intros Hget Hname. unfold centerFlips, checkPick, checkClamp, Obj.read.
  rewrite Hget, Hname. auto.
Qed.

(** Every target of a pick is a neighbour of the centre. *)
Lemma checkPick_neighbors (center : NodeId) (targets : list NodeId) :
  checkPick pieces center me = Ok targets -> Forall known targets.
Proof.
  unfold checkPick, Obj.read.
  destruct (Obj.get BOARD_NODES center) as [centerNode|] eqn:Hc.
  2:{ destruct (Obj.inherited center); intros H; [discriminate|].
      injection H as <-. constructor. }
  intros H. inv_bind H. destruct a as [res vis]. injection H as <-.
  revert Ha.
  apply foldM_invariant with (P := fun acc => Forall known (fst acc));
    [|simpl; constructor].
  intros acc n1 acc' Hn1 Hacc.
  apply foldM_invariant with (P := fun acc => Forall known (fst acc));
    [|exact Hacc].
  clear acc acc' Hacc. intros [r v] n2 acc' Hn2 Hr. simpl in Hr.
  destruct (n1 =? n2); [intros H; injection H as <-; exact Hr|].
  destruct (includes v (pairKey n1 n2)); [intros H; injection H as <-; exact Hr|].
  rewrite areCollinear_Ok. simpl.
  destruct (collinear n1 center n2
            && (ownedBy pieces n1 (getOpponent me)
                && ownedBy pieces n2 (getOpponent me)));
    intros H; injection H as <-; simpl; [|exact Hr].
  apply Forall_app. split; [exact Hr|].
  repeat constructor; eapply neighbors_known; eauto.
Qed.

(** Every target of a clamp is a neighbour of the centre. *)
Lemma checkClamp_neighbors (center : NodeId) (targets : list NodeId) :
  checkClamp pieces center me = Ok targets -> Forall known targets.
Proof.
  unfold checkClamp, Obj.read.
  destruct (Obj.get BOARD_NODES center) as [centerNode|] eqn:Hc.
  2:{ destruct (Obj.inherited center); intros H; [discriminate|].
      injection H as <-. constructor. }
  apply foldM_invariant with (P := Forall known); [|constructor].
  intros res n1 res' Hn1 Hres.
  destruct (ownedBy pieces n1 (getOpponent me));
    [|intros H; injection H as <-; exact Hres].
  intros H. inv_bind H. revert H.
  apply foldM_invariant with (P := Forall known); [|exact Hres].
  clear res res' Hres. intros res n2 res' _ Hres.
  destruct (n2 =? center); [intros H; injection H as <-; exact Hres|].
  rewrite areCollinear_Ok. simpl.
  destruct (collinear center n1 n2 && ownedBy pieces n2 me);
    intros H; injection H as <-; [|exact Hres].
  apply Forall_app. split; [exact Hres|].
  repeat constructor. eapply neighbors_known; eauto.
Qed.

Lemma centerFlips_neighbors (center : NodeId) (flipped : list NodeId) :
  centerFlips pieces center me = Ok flipped -> Forall known flipped.
Proof.
  unfold centerFlips. intros H. inv_bind H.
  destruct a as [|n rest].
  - now apply checkClamp_neighbors in H.
  - injection H as <-. now apply checkPick_neighbors in Ha.
Qed.
End Patterns.

(** ** The capture cascade *)

Lemma ownedBy_Some (pieces : Obj.t Piece) (n : NodeId) (p : Player) :
  ownedBy pieces n p = true ->
  exists q, Obj.get pieces n = Some q /\ player q = p.
Proof.
  unfold ownedBy. destruct (Obj.get pieces n) as [q|]; [|discriminate].
  intros H. apply Player_eqb_eq in H. now exists q.
Qed.

(** Nodes captured in one pass, counted against the nodes that can still
    be captured: property names of the board not yet in [totalCaptures]. *)
Definition uncaptured (total : list NodeId) (ks : list string) : nat :=
  length (filter (fun k => negb (includes total k)) ks).

Lemma uncaptured_le (total : list NodeId) (fid : NodeId) (ks : list string) :
  uncaptured (total ++ [fid]) ks <= uncaptured total ks.
Proof.
  unfold uncaptured. induction ks as [|k ks IH]; simpl; [lia|].
  rewrite includes_app.
  destruct (includes total k), (includes [fid] k); simpl; lia.
Qed.

Lemma uncaptured_lt (total : list NodeId) (fid : NodeId) (ks : list string) :
  In fid ks -> includes total fid = false ->
  uncaptured (total ++ [fid]) ks < uncaptured total ks.
Proof.
  unfold uncaptured. intros Hin Hnot.
  induction ks as [|k ks IH]; simpl; [contradiction|].
  rewrite includes_app.
  destruct Hin as [->|Hin].
  - rewrite Hnot. simpl. unfold includes at 1. simpl.
    rewrite String.eqb_refl. simpl.
    pose proof (uncaptured_le total fid ks) as Hle. unfold uncaptured in Hle.
    lia.
  - specialize (IH Hin).
    destruct (includes total k), (includes [fid] k); simpl; lia.
Qed.

Section CascadeFacts.
Variable B0 : Obj.t Piece.      (* the virtual board before the first pass *)
Variable me : Player.

Let opp := getOpponent me.
Let wasOpp (n : NodeId) : Prop := ownedBy B0 n opp = true.

(** What holds between passes and between flips: no node is captured
    twice, and only nodes that held an opponent piece on the initial
    virtual board are captured or still hold one. *)
Definition cascInv (st : Cascade) : Prop :=
  NoDup (totalCaptures st)
  /\ Forall wasOpp (totalCaptures st)
  /\ (forall n, ownedBy (board st) n opp = true -> wasOpp n).

(** [st'] continues [st]: the same nodes were appended to the captures
    of the move and to the flips of the pass. *)
Definition extends (st st' : Cascade) : Prop :=
  exists added,
    totalCaptures st' = totalCaptures st ++ added
    /\ currentStepFlips st' = currentStepFlips st ++ added.

Lemma extends_refl (st : Cascade) : extends st st.
Proof. exists []. now rewrite !app_nil_r. Qed.

Lemma extends_trans (st1 st2 st3 : Cascade) :
  extends st1 st2 -> extends st2 st3 -> extends st1 st3.
Proof.
  intros [a1 [Ht1 Hf1]] [a2 [Ht2 Hf2]]. exists (a1 ++ a2).
  rewrite Ht2, Hf2, Ht1, Hf1, !app_assoc. auto.
Qed.

(** The value of [cascMeasure] bounds the captures still possible. *)
Definition cascMeasure (st : Cascade) : nat :=
  uncaptured (totalCaptures st) (Obj.keys (board st)).

Lemma ownedBy_flip (b : Obj.t Piece) (fid n : NodeId) (i : string) :
  ownedBy (Obj.set b fid (mkPiece i me)) n opp = true ->
  ownedBy b n opp = true.
Proof.
  unfold ownedBy. destruct (String.eqb_spec fid n) as [->|Hne].
  - rewrite get_set_same. simpl. subst opp.
    now rewrite Player_eqb_opponent.
  - now rewrite get_set_other.
Qed.

Lemma applyFlip_inv (st : Cascade) (fid : NodeId) :
  cascInv st -> wasOpp fid -> cascInv (applyFlip me st fid).
Proof.
  intros (Hnd & Hall & Hboard) Hfid. unfold applyFlip.
  destruct (includes (totalCaptures st) fid) eqn:Hinc; [now repeat split|].
  assert (Hnotin : ~ In fid (totalCaptures st)).
  { intros Hin. apply includes_In in Hin. congruence. }
  assert (Hnd' : NoDup (totalCaptures st ++ [fid])).
  { apply NoDup_app; [exact Hnd | repeat constructor; auto|].
    intros z Hz [<-|[]]. contradiction. }
  assert (Hall' : Forall wasOpp (totalCaptures st ++ [fid])).
  { apply Forall_app. split; [exact Hall | now repeat constructor]. }
  destruct (Obj.get (board st) fid) as [q|]; repeat split; simpl; auto.
  intros n Hn. apply Hboard. eapply ownedBy_flip. exact Hn.
Qed.

Lemma applyFlip_extends (st : Cascade) (fid : NodeId) :
  extends st (applyFlip me st fid).
Proof.
  unfold applyFlip.
  destruct (includes (totalCaptures st) fid); [apply extends_refl|].
  destruct (Obj.get (board st) fid); exists [fid]; simpl; auto.
Qed.

Lemma applyFlip_measure (st : Cascade) (fid : NodeId) :
  cascMeasure (applyFlip me st fid) + length (nextBatch (applyFlip me st fid))
  <= cascMeasure st + length (nextBatch st).
Proof.
  unfold applyFlip, cascMeasure.
  destruct (includes (totalCaptures st) fid) eqn:Hinc; [lia|].
  destruct (Obj.get (board st) fid) as [q|] eqn:Hget; simpl.
  - rewrite (keys_set_present _ _ _ Hget), length_app. simpl.
    pose proof (@uncaptured_lt (totalCaptures st) fid (Obj.keys (board st))
                  (get_key _ _ Hget) Hinc).
    lia.
  - pose proof (uncaptured_le (totalCaptures st) fid (Obj.keys (board st))).
    lia.
Qed.

Lemma flips_inv (flipped : list NodeId) :
  forall st, cascInv st -> Forall wasOpp flipped ->
             cascInv (fold_left (applyFlip me) flipped st).
Proof.
  induction flipped as [|fid rest IH]; simpl; intros st Hst Hall; [exact Hst|].
  inversion Hall; subst. apply IH; [apply applyFlip_inv|]; assumption.
Qed.

Lemma flips_extends (flipped : list NodeId) :
  forall st, extends st (fold_left (applyFlip me) flipped st).
Proof.
  induction flipped as [|fid rest IH]; simpl; intros st; [apply extends_refl|].
  eapply extends_trans; [apply applyFlip_extends | apply IH].
Qed.

Lemma flips_measure (flipped : list NodeId) :
  forall st,
    cascMeasure (fold_left (applyFlip me) flipped st)
    + length (nextBatch (fold_left (applyFlip me) flipped st))
    <= cascMeasure st + length (nextBatch st).
Proof.
  induction flipped as [|fid rest IH]; simpl; intros st; [lia|].
  pose proof (applyFlip_measure st fid). specialize (IH (applyFlip me st fid)).
  lia.
Qed.

Lemma processCenter_inv (st st' : Cascade) (centerId : NodeId) :
  cascInv st -> processCenter me st centerId = Ok st' ->
  cascInv st' /\ extends st st'.
Proof.
  intros Hst. unfold processCenter.
  destruct (includes (processedNodes st) centerId).
  - intros H. injection H as <-. split; [exact Hst | apply extends_refl].
  - intros H. inv_bind H. injection H as <-.
    apply centerFlips_owned in Ha. simpl in Ha.
    assert (Hall : Forall wasOpp a).
    { destruct Hst as (_ & _ & Hboard).
      eapply Forall_impl; [|exact Ha]. exact Hboard. }
    split.
    + apply flips_inv; [exact Hst | exact Hall].
    + apply (flips_extends a (markProcessed st centerId)).
Qed.

Lemma processCenter_measure (st st' : Cascade) (centerId : NodeId) :
  processCenter me st centerId = Ok st' ->
  cascMeasure st' + length (nextBatch st')
  <= cascMeasure st + length (nextBatch st).
Proof.
  unfold processCenter.
  destruct (includes (processedNodes st) centerId).
  - intros H. injection H as <-. lia.
  - intros H. inv_bind H. injection H as <-.
    apply (flips_measure a (markProcessed st centerId)).
Qed.

Lemma processCenter_total (st : Cascade) (centerId : NodeId) :
  Obj.inherited centerId = false ->
  exists st', processCenter me st centerId = Ok st'.
Proof.
  intros Hname. unfold processCenter.
  destruct (includes (processedNodes st) centerId); [eauto|].
  destruct (@centerFlips_total (board (markProcessed st centerId)) me centerId
              Hname)
    as [flipped ->].
  simpl. eauto.
Qed.

(** The nodes scheduled for the next pass are nodes of the topology. *)
Lemma applyFlip_batch_known (st : Cascade) (fid : NodeId) :
  Forall known (nextBatch st) -> known fid ->
  Forall known (nextBatch (applyFlip me st fid)).
Proof.
  intros Hst Hfid. unfold applyFlip.
  destruct (includes (totalCaptures st) fid); [exact Hst|].
  destruct (Obj.get (board st) fid); simpl; [|exact Hst].
  apply Forall_app. split; [exact Hst | now repeat constructor].
Qed.

Lemma flips_batch_known (flipped : list NodeId) :
  forall st,
    Forall known (nextBatch st) -> Forall known flipped ->
    Forall known (nextBatch (fold_left (applyFlip me) flipped st)).
Proof.
  induction flipped as [|fid rest IH]; simpl; intros st Hst Hall; [exact Hst|].
  inversion Hall as [|? ? Hfid Hrest]; subst.
  apply IH; [now apply applyFlip_batch_known | exact Hrest].
Qed.

Lemma processCenter_batch_known (st st' : Cascade) (centerId : NodeId) :
  Forall known (nextBatch st) -> processCenter me st centerId = Ok st' ->
  Forall known (nextBatch st').
Proof.
  intros Hst. unfold processCenter.
  destruct (includes (processedNodes st) centerId).
  - intros H. injection H as <-. exact Hst.
  - intros H. inv_bind H. injection H as <-.
    apply flips_batch_known; [exact Hst|].
    eapply centerFlips_neighbors. exact Ha.
Qed.

Lemma cascadePass_batch_known (st st' : Cascade) (activeNodes : list NodeId) :
  cascadePass me st activeNodes = Ok st' -> Forall known (nextBatch st').
Proof.
  unfold cascadePass.
  apply foldM_invariant with (P := fun c => Forall known (nextBatch c));
    [|constructor].
  intros c x c' _ Hc Hstep. eapply processCenter_batch_known; eauto.
Qed.

(** One pass: its flips are exactly the captures it adds. *)
Lemma cascadePass_inv (st st' : Cascade) (activeNodes : list NodeId) :
  cascInv st -> cascadePass me st activeNodes = Ok st' ->
  cascInv st' /\ totalCaptures st' = totalCaptures st ++ currentStepFlips st'.
Proof.
  intros Hst Hrun. unfold cascadePass in Hrun.
  set (st0 := mkCascade (board st) (totalCaptures st) (processedNodes st) [] [])
    in Hrun.
  assert (Hfinal : cascInv st' /\ extends st0 st').
  { revert Hrun.
    apply foldM_invariant with (P := fun c => cascInv c /\ extends st0 c);
      [|split; [exact Hst | apply extends_refl]].
    intros c x c' _ (Hc & Hext) Hstep.
    destruct (processCenter_inv _ Hc Hstep) as (Hc' & Hext').
    split; [exact Hc' | eapply extends_trans; eauto]. }
  destruct Hfinal as (Hinv & [added [Ht Hf]]).
  split; [exact Hinv|]. simpl in *. now rewrite Ht, Hf.
Qed.

(** One pass: each node it schedules for the next pass is one capture
    less to make. *)
Lemma cascadePass_measure (st st' : Cascade) (activeNodes : list NodeId) :
  cascadePass me st activeNodes = Ok st' ->
  cascMeasure st' + length (nextBatch st') <= cascMeasure st.
Proof.
  unfold cascadePass.
  set (st0 := mkCascade (board st) (totalCaptures st) (processedNodes st) [] []).
  intros Hrun.
  assert (Hgoal : cascMeasure st' + length (nextBatch st')
                  <= cascMeasure st0 + length (nextBatch st0)).
  { revert Hrun.
    apply foldM_invariant
      with (P := fun c => cascMeasure c + length (nextBatch c)
                          <= cascMeasure st0 + length (nextBatch st0)); [|lia].
    intros a x a' _ Hle Hstep. apply processCenter_measure in Hstep. lia. }
  unfold cascMeasure in *. simpl in *. lia.
Qed.

Lemma cascadePass_total (st : Cascade) (activeNodes : list NodeId) :
  Forall (fun c => Obj.inherited c = false) activeNodes ->
  exists st', cascadePass me st activeNodes = Ok st'.
Proof.
  intros Hnames. unfold cascadePass. apply foldM_returns.
  intros a c Hc. apply processCenter_total.
  rewrite Forall_forall in Hnames. now apply Hnames.
Qed.

(** The loop returns captures without repetition, all of them nodes that
    held an opponent piece on the initial virtual board, and capture
    groups whose concatenation is the list of captures. *)
Lemma cascadeLoop_inv (fuel : nat) :
  forall st activeNodes steps caps steps',
    cascInv st -> concat steps = totalCaptures st ->
    Forall (fun g => g <> []) steps ->
    cascadeLoop fuel me st activeNodes steps = Ok (caps, steps') ->
    NoDup caps /\ Forall wasOpp caps /\ concat steps' = caps
    /\ Forall (fun g => g <> []) steps'.
Proof.
  induction fuel as [|fuel IH]; intros st activeNodes steps caps steps'
    Hst Hsteps Hne; simpl.
  - destruct activeNodes; [|discriminate].
    intros H. injection H as <- <-. destruct Hst as (Hnd & Hall & _). auto.
  - destruct activeNodes as [|c rest].
    + intros H. injection H as <- <-. destruct Hst as (Hnd & Hall & _). auto.
    + intros H. inv_bind H.
      destruct (cascadePass_inv _ Hst Ha) as (Hinv & Htot).
      apply IH in H; auto.
      * destruct (currentStepFlips a) as [|f fs] eqn:Hflips.
        -- rewrite Htot, app_nil_r. exact Hsteps.
        -- rewrite concat_app. simpl. rewrite app_nil_r, Htot, Hsteps.
           reflexivity.
      * destruct (currentStepFlips a) as [|f fs]; [exact Hne|].
        apply Forall_app. split; [exact Hne|]. repeat constructor. discriminate.
Qed.

(** The loop returns when its fuel exceeds the captures still possible
    and no centre of the first pass bears an inherited name. *)
Lemma cascadeLoop_total (fuel : nat) :
  forall st activeNodes steps,
    Forall (fun c => Obj.inherited c = false) activeNodes ->
    activeNodes = [] \/ cascMeasure st < fuel ->
    exists r, cascadeLoop fuel me st activeNodes steps = Ok r.
Proof.
  induction fuel as [|fuel IH]; intros st activeNodes steps Hnames Hm.
  - destruct Hm as [->|Hm]; [simpl; eauto | lia].
  - simpl. destruct activeNodes as [|c rest]; [eauto|].
    destruct Hm as [Hm|Hm]; [discriminate|].
    destruct (@cascadePass_total st (c :: rest) Hnames) as [st' Hpass].
    rewrite Hpass. simpl. apply IH.
    + eapply Forall_impl; [|eapply cascadePass_batch_known; exact Hpass].
      intros n. apply known_not_inherited.
    + pose proof (cascadePass_measure _ _ Hpass) as Hdec.
      destruct (nextBatch st') as [|n ns]; [now left | right].
      simpl in Hdec. lia.
Qed.
End CascadeFacts.

(** ** Destinations *)

(** The slide rule of the specification: from [cur], reached from [prev],
    a slide continues to a neighbour of [cur] other than [prev] that lies
    on the line through [prev] and [cur] and is empty. *)
Inductive slideTo (pieces : Obj.t Piece) : NodeId -> NodeId -> NodeId -> Prop :=
| slide_stop (prev cur : NodeId) : slideTo pieces prev cur cur
| slide_go (prev cur nxt dest : NodeId) (node : BoardNode) :
    Obj.get BOARD_NODES cur = Some node ->
    In nxt (neighbors node) ->
    nxt <> prev ->
    collinear prev cur nxt = true ->
    isEmpty pieces nxt = true ->
    slideTo pieces cur nxt dest ->
    slideTo pieces prev cur dest.

(** A destination is an empty neighbour of the source, or a node a slide
    through that neighbour reaches. *)
Definition reachable (pieces : Obj.t Piece) (fromId dest : NodeId) : Prop :=
  exists startNode first,
    Obj.get BOARD_NODES fromId = Some startNode
    /\ In first (neighbors startNode)
    /\ isEmpty pieces first = true
    /\ slideTo pieces fromId first dest.

Lemma nextInLine_sound (prevId currentId : NodeId) (candidates : list NodeId)
      (nxt : NodeId) :
  nextInLine prevId currentId candidates = Ok (Some nxt) ->
  In nxt candidates /\ nxt <> prevId /\ collinear prevId currentId nxt = true.
Proof.
  induction candidates as [|c rest IH]; simpl; [discriminate|].
  destruct (String.eqb_spec c prevId) as [->|Hne].
  - intros H. destruct (IH H) as (Hin & Hp & Hc). auto.
  - rewrite areCollinear_Ok. simpl.
    destruct (collinear prevId currentId c) eqn:Hcol.
    + intros H. injection H as <-. auto.
    + intros H. destruct (IH H) as (Hin & Hp & Hc). auto.
Qed.

Lemma nextInLine_total (prevId currentId : NodeId) (candidates : list NodeId) :
  exists r, nextInLine prevId currentId candidates = Ok r.
Proof.
  induction candidates as [|c rest IH]; simpl; [eauto|].
  destruct (c =? prevId); [exact IH|].
  rewrite areCollinear_Ok. simpl.
  destruct (collinear prevId currentId c); [eauto | exact IH].
Qed.

(** What the slide loop appends: nodes a slide reaches, all empty. *)
Lemma slide_sound (pieces : Obj.t Piece) (n : nat) :
  forall prevId currentId dests r,
    slide n pieces prevId currentId dests = Ok r ->
    exists extra,
      r = dests ++ extra
      /\ Forall (fun d => slideTo pieces prevId currentId d
                          /\ isEmpty pieces d = true) extra.
Proof.
  induction n as [|n IH]; simpl; intros prevId currentId dests r H.
  - injection H as <-. exists []. now rewrite app_nil_r.
  - inv_bind H. rename a into currNode.
    destruct (Obj.get BOARD_NODES currentId) as [node|] eqn:Hnode;
      [|discriminate].
    injection Ha as ->. inv_bind H. destruct a as [nxt|].
    2:{ injection H as <-. exists []. now rewrite app_nil_r. }
    destruct (nextInLine_sound _ _ _ Ha) as (Hin & Hprev & Hcol).
    destruct (truthy nxt); simpl in H.
    2:{ injection H as <-. exists []. now rewrite app_nil_r. }
    destruct (isEmpty pieces nxt) eqn:Hempty.
    2:{ injection H as <-. exists []. now rewrite app_nil_r. }
    apply IH in H. destruct H as [extra [-> Hall]].
    exists (nxt :: extra). rewrite <- app_assoc. split; [reflexivity|].
    constructor.
    + split; [|exact Hempty].
      eapply slide_go; eauto. apply slide_stop.
    + eapply Forall_impl; [|exact Hall]. intros d [Hd He]. split; [|exact He].
      eapply slide_go; eauto.
Qed.

Lemma slide_total (pieces : Obj.t Piece) (n : nat) :
  forall prevId currentId dests,
    known currentId ->
    exists r, slide n pieces prevId currentId dests = Ok r.
Proof.
  induction n as [|n IH]; simpl; intros prevId currentId dests [node Hnode];
    [eauto|].
  rewrite Hnode. simpl.
  destruct (nextInLine_total prevId currentId (neighbors node)) as [[nxt|] Hnxt];
    rewrite Hnxt; simpl; [|eauto].
  destruct (truthy nxt && isEmpty pieces nxt); [|eauto].
  apply IH. apply nextInLine_sound in Hnxt. destruct Hnxt as (Hin & _).
  eapply neighbors_known; eauto.
Qed.

Lemma uncaptured_length (total : list NodeId) (ks : list string) :
  uncaptured total ks <= length ks.
Proof. unfold uncaptured. apply filter_length_le. Qed.

(** The capture computation returns for every position and move, but for a
    destination that bears an inherited name. *)
Lemma calculateRecursiveCaptures_total (state : GameState) (fromId toId : NodeId) :
  Obj.inherited toId = false ->
  exists r, calculateRecursiveCaptures state fromId toId = Ok r.
Proof.
  intros Hname. unfold calculateRecursiveCaptures. apply cascadeLoop_total;
    [now repeat constructor | right].
  unfold cascMeasure. simpl.
  pose proof (uncaptured_length []
                (Obj.keys (virtualBoard (pieces state) fromId toId))) as H.
  unfold Obj.keys in H at 2. rewrite length_map in H. lia.
Qed.

(** The shape of every move [getValidMoves] returns. *)
Definition validMove (state : GameState) (fromId : NodeId) (m : Move) : Prop :=
  exists piece caps steps,
    Obj.get (pieces state) fromId = Some piece
    /\ player piece = currentPlayer state
    /\ from m = fromId
    /\ reachable (pieces state) fromId (to m)
    /\ isEmpty (pieces state) (to m) = true
    /\ calculateRecursiveCaptures state fromId (to m) = Ok (caps, steps)
    /\ captures m = Some caps
    /\ captureSteps m = Some steps.

Lemma getValidMoves_valid (state : GameState) (fromId : NodeId)
      (moves : list Move) :
  getValidMoves state fromId = Ok moves ->
  Forall (validMove state fromId) moves.
Proof.
  unfold getValidMoves.
  destruct (Obj.get (pieces state) fromId) as [piece|] eqn:Hpiece.
  2:{ intros H. injection H as <-. constructor. }
  destruct (Player_eqb (player piece) (currentPlayer state)) eqn:Hplayer; simpl.
  2:{ intros H. injection H as <-. constructor. }
  apply Player_eqb_eq in Hplayer.
  intros H. inv_bind H. rename a into startNode.
  destruct (Obj.get BOARD_NODES fromId) as [node|] eqn:Hnode; [|discriminate].
  injection Ha as ->. inv_bind H. rename a into dests.
  assert (Hdests : Forall (fun d => reachable (pieces state) fromId d
                                    /\ isEmpty (pieces state) d = true) dests).
  { revert Ha.
    apply foldM_invariant
      with (P := Forall (fun d => reachable (pieces state) fromId d
                                  /\ isEmpty (pieces state) d = true));
      [|constructor].
    intros acc nb acc' Hnb Hacc. unfold destinationsVia.
    destruct (isEmpty (pieces state) nb) eqn:Hempty.
    2:{ intros H'. injection H' as <-. exact Hacc. }
    intros H'. apply slide_sound in H'. destruct H' as [extra [-> Hextra]].
    apply Forall_app. split.
    - apply Forall_app. split; [exact Hacc|]. repeat constructor; [|exact Hempty].
      exists startNode, nb. repeat split; auto. apply slide_stop.
    - eapply Forall_impl; [|exact Hextra]. intros d [Hd He]. split; [|exact He].
      exists startNode, nb. auto. }
  revert H.
  apply foldM_invariant with (P := Forall (validMove state fromId));
    [|constructor].
  intros acc toId acc' HtoId Hacc H. inv_bind H. destruct a as [caps steps].
  injection H as <-. apply Forall_app. split; [exact Hacc|].
  repeat constructor.
  rewrite Forall_forall in Hdests. destruct (Hdests _ HtoId) as [Hreach Hempty].
  exists piece, caps, steps. simpl. repeat split; auto.
Qed.

(** The destinations of a slide are nodes of the topology. *)
Lemma slide_known (pieces : Obj.t Piece) (n : nat) :
  forall prevId currentId dests r,
    known currentId -> Forall known dests ->
    slide n pieces prevId currentId dests = Ok r -> Forall known r.
Proof.
  induction n as [|n IH]; simpl;
    intros prevId currentId dests r [node Hnode] Hdests H.
  - injection H as <-. exact Hdests.
  - rewrite Hnode in H. simpl in H. inv_bind H. rename a into nxt.
    destruct nxt as [nextId|]; [|injection H as <-; exact Hdests].
    destruct (truthy nextId && isEmpty pieces nextId);
      [|injection H as <-; exact Hdests].
    apply nextInLine_sound in Ha. destruct Ha as (Hin & _).
    assert (Hnext : known nextId) by (eapply neighbors_known; eauto).
    eapply IH; [exact Hnext | | exact H].
    apply Forall_app. split; [exact Hdests | now repeat constructor].
Qed.

(** Move generation returns for every piece that stands on a node of the
    topology. *)
Lemma getValidMoves_total (state : GameState) (fromId : NodeId) :
  known fromId -> exists moves, getValidMoves state fromId = Ok moves.
Proof.
  intros [startNode Hstart]. unfold getValidMoves.
  destruct (Obj.get (pieces state) fromId) as [piece|]; [|eauto].
  destruct (negb (Player_eqb (player piece) (currentPlayer state))); [eauto|].
  rewrite Hstart. simpl.
  destruct (@foldM_total _ _ (Forall known) (destinationsVia state fromId)
              (neighbors startNode))
    with (acc := @nil NodeId) as [dests [Hdests Hknown]].
  - intros acc nb Hnb Hacc. unfold destinationsVia.
    assert (Hnbk : known nb) by (eapply neighbors_known; eauto).
    destruct (isEmpty (pieces state) nb); [|eauto].
    destruct (@slide_total (pieces state) 10 fromId nb (acc ++ [nb]) Hnbk)
      as [r Hr].
    exists r. split; [exact Hr|].
    eapply slide_known; [exact Hnbk | | exact Hr].
    apply Forall_app. split; [exact Hacc | now repeat constructor].
  - constructor.
  - rewrite Hdests. simpl. apply foldM_returns.
    intros acc toId HtoId. rewrite Forall_forall in Hknown.
    destruct (@calculateRecursiveCaptures_total state fromId toId)
      as [[caps steps] ->].
    + apply known_not_inherited. now apply Hknown.
    + simpl. eauto.
Qed.

(** ** Captures of a move *)

Lemma calculateRecursiveCaptures_spec (state : GameState) (fromId toId : NodeId)
      (caps : list NodeId) (steps : list (list NodeId)) :
  calculateRecursiveCaptures state fromId toId = Ok (caps, steps) ->
  NoDup caps
  /\ concat steps = caps
  /\ Forall (fun g => g <> []) steps
  /\ Forall (fun n => ownedBy (virtualBoard (pieces state) fromId toId) n
                              (getOpponent (currentPlayer state)) = true) caps.
Proof.
  unfold calculateRecursiveCaptures. intros H.
  apply cascadeLoop_inv
    with (B0 := virtualBoard (pieces state) fromId toId) in H.
  - tauto.
  - repeat split; simpl; auto; constructor.
  - reflexivity.
  - constructor.
Qed.

Lemma isEmpty_get (pieces : Obj.t Piece) (n : NodeId) :
  isEmpty pieces n = true <-> Obj.get pieces n = None.
Proof.
  unfold isEmpty. destruct (Obj.get pieces n); split; congruence.
Qed.

(** A valid move leaves its source empty and its own piece on the
    destination of the virtual board, so neither is ever captured. *)
Lemma validMove_captures (state : GameState) (fromId : NodeId) (m : Move) :
  validMove state fromId m ->
  exists caps steps,
    captures m = Some caps /\ captureSteps m = Some steps
    /\ concat steps = caps /\ NoDup caps
    /\ Forall (fun g => g <> []) steps
    /\ ~ In (from m) caps /\ ~ In (to m) caps
    /\ Forall (fun n => ownedBy (pieces state) n
                                (getOpponent (currentPlayer state)) = true) caps.
Proof.
  intros (piece & caps & steps & Hpiece & Hplayer & Hfrom & _ & Hempty & Hcalc
          & Hcaps & Hsteps).
  apply calculateRecursiveCaptures_spec in Hcalc.
  destruct Hcalc as (Hnd & Hconcat & Hne & Howned).
  apply isEmpty_get in Hempty.
  assert (Hdiff : fromId <> to m) by congruence.
  unfold virtualBoard in Howned. rewrite Hpiece in Howned.
  rewrite Forall_forall in Howned.
  exists caps, steps. repeat split; auto.
  - rewrite Hfrom. intros Hin. specialize (Howned _ Hin).
    unfold ownedBy in Howned.
    rewrite get_set_other, get_delete_same in Howned by congruence.
    discriminate.
  - intros Hin. specialize (Howned _ Hin).
    unfold ownedBy in Howned. rewrite get_set_same, Hplayer in Howned.
    now rewrite Player_eqb_opponent in Howned.
  - rewrite Forall_forall. intros n Hin. specialize (Howned _ Hin).
    unfold ownedBy in *.
    destruct (String.eqb_spec (to m) n) as [<-|Hn].
    + rewrite get_set_same, Hplayer in Howned.
      now rewrite Player_eqb_opponent in Howned.
    + rewrite get_set_other in Howned by exact Hn.
      destruct (String.eqb_spec fromId n) as [<-|Hn'].
      * now rewrite get_delete_same in Howned.
      * now rewrite get_delete_other in Howned.
Qed.

(** Groups of a list without repetition share no element. *)
Lemma NoDup_concat_disjoint (A : Type) (groups : list (list A)) :
  NoDup (concat groups) ->
  ForallOrdPairs (fun g h => forall n, In n g -> ~ In n h) groups.
Proof.
  induction groups as [|g rest IH]; simpl; intros Hnd; constructor.
  - rewrite Forall_forall. intros h Hh n Hg Hn.
    apply NoDup_app_remove_l in Hnd as Hrest.
    assert (Hin : In n (concat rest)).
    { apply in_concat. exists h. auto. }
    clear IH Hrest. induction g as [|a g IHg]; [contradiction|].
    simpl in Hnd. inversion Hnd as [|? ? Hnotin Hnd']; subst.
    destruct Hg as [->|Hg]; [|auto].
    apply Hnotin. apply in_or_app. now right.
  - apply IH. now apply NoDup_app_remove_l in Hnd.
Qed.

Lemma NoDup_concat_each (A : Type) (groups : list (list A)) :
  NoDup (concat groups) -> Forall (@NoDup A) groups.
Proof.
  induction groups as [|g rest IH]; simpl; intros Hnd; constructor.
  - eapply NoDup_app_remove_r. exact Hnd.
  - apply IH. eapply NoDup_app_remove_l. exact Hnd.
Qed.

(** A position used by the examples: white to move, with a capture by
    clamp ([1,4 -> 1,3]) and a capture by pick ([1,4 -> 2,4]) ... *)
Definition twoWins : GameState :=
  mkState [ ("1,4", mkPiece "w-0" white); ("3,3", mkPiece "w-1" white);
            ("2,3", mkPiece "b-0" black); ("m_center", mkPiece "b-1" black) ]
          white None [] 0.

(** The two capturing moves of the piece on [1,4] in [twoWins]. *)
Definition captureByClamp : Move :=
  mkMove "1,4" "1,3" (Some ["2,3"]) (Some [["2,3"]]).

Definition captureByPick : Move :=
  mkMove "1,4" "2,4" (Some ["2,3"; "m_center"]) (Some [["2,3"; "m_center"]]).

(** ... and a board on which the centre [2,2] completes a pick
    ([2,1], [2,3]) and a clamp ([1,2], against [0,2]) at once. *)
Definition pickAndClamp : Obj.t Piece :=
  [ ("2,2", mkPiece "w-0" white); ("0,2", mkPiece "w-1" white);
    ("2,1", mkPiece "b-0" black); ("2,3", mkPiece "b-1" black);
    ("1,2", mkPiece "b-2" black) ].

(** C1.  Every move returned by [getValidMoves] carries capture groups whose
    concatenation is its capture list and repeats no node: the groups are
    pairwise disjoint, each captured node occurs once in the whole move, and
    neither the source nor the destination of the move is captured. *)
Theorem capture_groups_disjoint (state : GameState) (fromId : NodeId)
        (moves : list Move) (m : Move) :
  getValidMoves state fromId = Ok moves -> In m moves ->
  exists steps caps,
    captureSteps m = Some steps /\ captures m = Some caps
    /\ caps = concat steps
    /\ NoDup (concat steps)
    /\ Forall (@NoDup NodeId) steps
    /\ ForallOrdPairs (fun g h => forall n, In n g -> ~ In n h) steps
    /\ ~ In (from m) (concat steps)
    /\ ~ In (to m) (concat steps).
Proof.
  intros Hmoves Hm. apply getValidMoves_valid in Hmoves.
  rewrite Forall_forall in Hmoves. specialize (Hmoves _ Hm).
  apply validMove_captures in Hmoves.
  destruct Hmoves as (caps & steps & Hcaps & Hsteps & Hconcat & Hnd & _
                      & Hfrom & Hto & _).
  exists steps, caps. subst caps. repeat split; auto.
  - now apply NoDup_concat_each.
  - now apply NoDup_concat_disjoint.
Qed.

Lemma capture_groups_disjoint_witness :
  exists steps caps,
    Some [["2,3"; "m_center"]] = Some steps
    /\ Some ["2,3"; "m_center"] = Some caps
    /\ caps = concat steps
    /\ NoDup (concat steps)
    /\ Forall (@NoDup NodeId) steps
    /\ ForallOrdPairs (fun g h => forall n : NodeId, In n g -> ~ In n h) steps
    /\ ~ In "1,4" (concat steps)
    /\ ~ In "2,4" (concat steps).
Proof.
  refine (@capture_groups_disjoint twoWins "1,4" _
            captureByPick _ _).
  - vm_compute. reflexivity.
  - simpl. tauto.
Defined.

(** C8.  Every move returned by [getValidMoves] starts on the selected
    node, which holds a piece of the side to move, and ends on a node that
    is empty in the given position and that the slide rule reaches: an empty
    neighbour of the source, or the end of a colinear slide through empty
    nodes from such a neighbour. *)
Theorem destinations_reachable_and_empty (state : GameState) (fromId : NodeId)
        (moves : list Move) (m : Move) :
  getValidMoves state fromId = Ok moves -> In m moves ->
  from m = fromId
  /\ ownedBy (pieces state) fromId (currentPlayer state) = true
  /\ Obj.get (pieces state) (to m) = None
  /\ reachable (pieces state) (from m) (to m).
Proof.
  intros Hmoves Hm. apply getValidMoves_valid in Hmoves.
  rewrite Forall_forall in Hmoves.
  destruct (Hmoves _ Hm)
    as (piece & caps & steps & Hpiece & Hplayer & Hfrom & Hreach & Hempty & _).
  repeat split.
  - exact Hfrom.
  - unfold ownedBy. rewrite Hpiece. now apply Player_eqb_eq.
  - now apply isEmpty_get.
  - now rewrite Hfrom.
Qed.

Lemma destinations_reachable_and_empty_witness :
  "0,2" = "0,2"
  /\ ownedBy (pieces getInitialState) "0,2" black = true
  /\ Obj.get (pieces getInitialState) "m_bottom" = None
  /\ reachable (pieces getInitialState) "0,2" "m_bottom".
Proof.
  refine (@destinations_reachable_and_empty getInitialState "0,2" _
            (mkMove "0,2" "m_bottom" (Some []) (Some [])) _ _).
  - vm_compute. reflexivity.
  - simpl. tauto.
Defined.

(** ** Pick before clamp *)

(** On [pickAndClamp] both patterns are complete at [2,2]; only the pick
    targets are flipped. *)
Example pick_and_clamp_at_once :
  checkPick pickAndClamp "2,2" white = Ok ["2,1"; "2,3"]
  /\ checkClamp pickAndClamp "2,2" white = Ok ["1,2"]
  /\ centerFlips pickAndClamp "2,2" white = Ok ["2,1"; "2,3"].
Proof. vm_compute. auto. Qed.

(** C3.  At every centre a pass processes, the nodes flipped are the pick
    targets alone when the pick check finds any, whatever the clamp check
    would find; the clamp check decides the flips only when no pick pair
    exists at that centre.  The pick check returns at every centre but one
    that bears an inherited name; there it throws, and the clamp check is
    not reached either. *)
Theorem pick_suppresses_clamp (me : Player) (st : Cascade) (centerId : NodeId) :
  includes (processedNodes st) centerId = false ->
  (Obj.inherited centerId = false ->
   exists pickTargets,
     checkPick (board st) centerId me = Ok pickTargets
     /\ (pickTargets <> [] ->
         centerFlips (board st) centerId me = Ok pickTargets
         /\ processCenter me st centerId
            = Ok (fold_left (applyFlip me) pickTargets
                            (markProcessed st centerId)))
     /\ (pickTargets = [] ->
         centerFlips (board st) centerId me = checkClamp (board st) centerId me
         /\ processCenter me st centerId
            = (clampTargets <- checkClamp (board st) centerId me ;;
               Ok (fold_left (applyFlip me) clampTargets
                             (markProcessed st centerId)))))
  /\ (checkPick (board st) centerId me = TypeError ->
      centerFlips (board st) centerId me = TypeError
      /\ processCenter me st centerId = TypeError).
Proof.
  intros Hfresh. split.
  - intros Hname.
    destruct (@checkPick_total (board st) me centerId Hname) as [picks Hpick].
    exists picks. split; [exact Hpick|].
    unfold processCenter, centerFlips. rewrite Hfresh. simpl. rewrite Hpick.
    simpl. split.
    + intros Hne. destruct picks as [|n rest]; [contradiction|]. auto.
    + intros ->. auto.
  - intros Hthrows. unfold processCenter, centerFlips. rewrite Hfresh. simpl.
    rewrite Hthrows. auto.
Qed.

Lemma pick_suppresses_clamp_witness :
  (exists pickTargets,
      checkPick pickAndClamp "2,2" white = Ok pickTargets
      /\ (pickTargets <> [] ->
          centerFlips pickAndClamp "2,2" white = Ok pickTargets
          /\ processCenter white (mkCascade pickAndClamp [] [] [] []) "2,2"
             = Ok (fold_left (applyFlip white) pickTargets
                     (markProcessed (mkCascade pickAndClamp [] [] [] []) "2,2")))
      /\ (pickTargets = [] ->
          centerFlips pickAndClamp "2,2" white
          = checkClamp pickAndClamp "2,2" white
          /\ processCenter white (mkCascade pickAndClamp [] [] [] []) "2,2"
             = (clampTargets <- checkClamp pickAndClamp "2,2" white ;;
                Ok (fold_left (applyFlip white) clampTargets
                      (markProcessed (mkCascade pickAndClamp [] [] [] [])
                                     "2,2")))))
  /\ (checkPick pickAndClamp "2,2" white = TypeError ->
      centerFlips pickAndClamp "2,2" white = TypeError
      /\ processCenter white (mkCascade pickAndClamp [] [] [] []) "2,2"
         = TypeError).
Proof.
  destruct (@pick_suppresses_clamp white (mkCascade pickAndClamp [] [] [] [])
              "2,2" eq_refl) as [Hpick Hthrow].
  split; [apply Hpick; reflexivity | exact Hthrow].
Defined.

(** ** Unknown node identifiers *)

(** C9 as stated fails: a collinearity query on an identifier that is not
    in the topology returns [false]; it does not throw. *)
Lemma areCollinear_unknown_returns_false :
  Obj.get BOARD_NODES "9,9" = None
  /\ areCollinear "9,9" "0,0" "0,1" = Ok false
  /\ areCollinear "9,9" "0,0" "0,1" <> TypeError.
Proof.
  split; [vm_compute; reflexivity|].
  split; [vm_compute; reflexivity | vm_compute; discriminate].
Qed.

(** The inherited names at work: the centre ["constructor"] passes the
    guard of the capture checks, which then throw; a piece on
    ["constructor"] counts as a piece outside the trap in the evaluation,
    and a piece on ["9,9"] makes the evaluation throw. *)
Example inherited_names_at_work :
  checkPick [] "constructor" white = TypeError
  /\ checkClamp [] "__proto__" white = TypeError
  /\ checkPick [] "9,9" white = Ok []
  /\ evaluate (mkState [("constructor", mkPiece "b-0" black);
                        ("4,4", mkPiece "w-0" white)] black None [] 0) black
     = Ok 0%Z
  /\ evaluate (mkState [("9,9", mkPiece "b-0" black);
                        ("4,4", mkPiece "w-0" white)] black None [] 0) black
     = TypeError.
Proof. vm_compute. auto 6. Qed.

(** A loop whose body throws at one element, and never runs out of fuel,
    throws. *)
Lemma foldM_throws (A B : Type) (body : A -> B -> result A) (xs : list B)
      (x : B) :
  In x xs -> (forall a, body a x = TypeError) ->
  (forall a y, body a y <> OutOfFuel) ->
  forall acc, foldM body acc xs = TypeError.
Proof.
  intros Hin Hx Hfuel.
  induction xs as [|y rest IH]; simpl; intros acc; [contradiction|].
  destruct Hin as [->|Hin]; [now rewrite Hx|].
  destruct (body acc y) as [a'| |] eqn:Hy; simpl; [auto | reflexivity|].
  exfalso. eapply Hfuel. exact Hy.
Qed.

(** C9, amended.  An unknown identifier is a hard failure in some queries
    of the topology only.  [areCollinear] returns [false] as soon as one of
    its three identifiers is not a node of the topology.  The capture
    checks return no target for a centre under which the topology object
    has no property at all, and throw for a centre that is no node but
    bears a name inherited from [Object.prototype].  Move generation throws
    when the node it is given holds a piece of the side to move and is not
    a node of the topology, and the evaluation of an undecided position
    throws when a piece stands on an identifier under which the topology
    object has no property. *)
Theorem unknown_nodes_are_guarded :
  (forall n1 n2 n3 : NodeId,
      Obj.get BOARD_NODES n1 = None \/ Obj.get BOARD_NODES n2 = None
      \/ Obj.get BOARD_NODES n3 = None ->
      areCollinear n1 n2 n3 = Ok false)
  /\ (forall (pieces : Obj.t Piece) (center : NodeId) (me : Player),
         Obj.get BOARD_NODES center = None ->
         (Obj.inherited center = false ->
          checkPick pieces center me = Ok []
          /\ checkClamp pieces center me = Ok [])
         /\ (Obj.inherited center = true ->
             checkPick pieces center me = TypeError
             /\ checkClamp pieces center me = TypeError))
  /\ (forall (state : GameState) (fromId : NodeId),
         Obj.get BOARD_NODES fromId = None ->
         ownedBy (pieces state) fromId (currentPlayer state) = true ->
         getValidMoves state fromId = TypeError)
  /\ (forall (state : GameState) (aiPlayer : Player) (nodeId : NodeId)
             (piece : Piece),
         checkWinCondition state = None ->
         In (nodeId, piece) (pieces state) ->
         Obj.get BOARD_NODES nodeId = None -> Obj.inherited nodeId = false ->
         evaluate state aiPlayer = TypeError).
Proof.
  split; [|split; [|split]].
  - intros n1 n2 n3 H. unfold areCollinear.
    destruct (Obj.get BOARD_NODES n1), (Obj.get BOARD_NODES n2),
             (Obj.get BOARD_NODES n3); try reflexivity.
    destruct H as [H|[H|H]]; discriminate.
  - intros pcs center me H. unfold checkPick, checkClamp, Obj.read.
    rewrite H. split; intros ->; auto.
  - intros state fromId H Hown. unfold getValidMoves, ownedBy in *.
    destruct (Obj.get (pieces state) fromId) as [piece|]; [|discriminate].
    rewrite Hown, H. reflexivity.
  - intros state aiPlayer nodeId piece Hopen Hin Hget Hname.
    unfold evaluate. rewrite Hopen.
    apply foldM_throws with (x := (nodeId, piece)); [exact Hin | |].
    + intros score. unfold isMaoceAt, Obj.read. rewrite Hget, Hname.
      destruct (Player_eqb (player piece) aiPlayer); reflexivity.
    + intros score [k q]. unfold isMaoceAt.
      destruct (Player_eqb (player q) aiPlayer);
        destruct (Obj.read BOARD_NODES k) as [node| |]; simpl;
        try destruct (isMaoce node); discriminate.
Qed.

(** ** Win condition *)

(** A side is eliminated when no piece on the board is its own. *)
Definition eliminated (pieces : Obj.t Piece) (who : Player) : Prop :=
  forall n p, In (n, p) pieces -> player p <> who.

(** A trap (Maoce) node of the topology. *)
Definition isTrap (n : NodeId) : Prop :=
  exists node, Obj.get BOARD_NODES n = Some node /\ isMaoce node = true.

(** A side is confined when it has a piece and all its pieces stand on
    trap nodes. *)
Definition confined (pieces : Obj.t Piece) (who : Player) : Prop :=
  ~ eliminated pieces who
  /\ forall n p, In (n, p) pieces -> player p = who -> isTrap n.

Lemma maoceIds_spec (n : NodeId) : includes maoceIds n = true <-> isTrap n.
Proof.
  split.
  - intros H. apply includes_In in H.
    assert (Hids : maoceIds = ["m_top"; "m_right"; "m_bottom"; "m_center"])
      by (vm_compute; reflexivity).
    rewrite Hids in H. simpl in H. unfold isTrap.
    destruct H as [<-|[<-|[<-|[<-|[]]]]];
      eexists; (split; [vm_compute; reflexivity | reflexivity]).
  - intros [node [Hnode Htrap]].
    assert (Hall : forallb (fun kv => implb (isMaoce (snd kv))
                                            (includes maoceIds (fst kv)))
                           BOARD_NODES = true) by (vm_compute; reflexivity).
    rewrite forallb_forall in Hall. apply get_In in Hnode.
    specialize (Hall _ Hnode). simpl in Hall. now rewrite Htrap in Hall.
Qed.

Lemma countOf_zero (pieces : Obj.t Piece) (who : Player) :
  countOf pieces who = 0 <-> eliminated pieces who.
Proof.
  unfold countOf, eliminated, Obj.values.
  induction pieces as [|[k q] rest IH]; simpl.
  - split; [intros _ n p [] | reflexivity].
  - destruct (Player_eqb (player q) who) eqn:Hq; simpl.
    + apply Player_eqb_eq in Hq. split; [discriminate|].
      intros H. exfalso. apply (H k q); auto.
    + rewrite IH. split.
      * intros H n p [Heq|Hin]; [|eauto].
        injection Heq as <- <-. intros Heq. apply Player_eqb_eq in Heq. congruence.
      * intros H n p Hin. apply (H n p). now right.
Qed.

Lemma piecesOf_spec (pieces : Obj.t Piece) (who : Player) (n : NodeId) (p : Piece) :
  In (n, p) (piecesOf pieces who) <-> In (n, p) pieces /\ player p = who.
Proof.
  unfold piecesOf, Obj.entries. rewrite filter_In.
  now rewrite Player_eqb_eq.
Qed.

Lemma piecesOf_nil (pieces : Obj.t Piece) (who : Player) :
  piecesOf pieces who = [] <-> eliminated pieces who.
Proof.
  unfold eliminated. split.
  - intros H n p Hin Hp.
    assert (Hmem : In (n, p) (piecesOf pieces who)) by now apply piecesOf_spec.
    now rewrite H in Hmem.
  - intros H. destruct (piecesOf pieces who) as [|[n p] rest] eqn:Hl; [reflexivity|].
    assert (Hmem : In (n, p) (piecesOf pieces who)) by (rewrite Hl; now left).
    apply piecesOf_spec in Hmem. destruct Hmem as [Hin Hp].
    exfalso. exact (H n p Hin Hp).
Qed.

Lemma isAllInMaoce_spec (pieces : Obj.t Piece) (who : Player) :
  isAllInMaoce pieces who = true <-> confined pieces who.
Proof.
  unfold isAllInMaoce, confined.
  destruct (piecesOf pieces who) as [|e rest] eqn:Hl.
  - apply piecesOf_nil in Hl. split; [discriminate | tauto].
  - assert (Hne : ~ eliminated pieces who).
    { intros He. apply piecesOf_nil in He. congruence. }
    rewrite <- Hl, forallb_forall. split.
    + intros H. split; [exact Hne|]. intros n p Hin Hp.
      apply maoceIds_spec. apply (H (n, p)). now apply piecesOf_spec.
    + intros [_ H] [n p] Hin. apply piecesOf_spec in Hin.
      apply maoceIds_spec. now apply (H n p).
Qed.

(** C4.  [checkWinCondition] names a winner exactly when a side is
    eliminated or a side that still has pieces is confined to the trap.
    Elimination is decided first (black's, then white's), confinement next
    (black's, then white's); an eliminated side never counts as confined. *)
Theorem winner_iff_eliminated_or_confined (state : GameState) :
  (checkWinCondition state <> None <->
     eliminated (pieces state) black \/ eliminated (pieces state) white
     \/ confined (pieces state) black \/ confined (pieces state) white)
  /\ (eliminated (pieces state) black -> checkWinCondition state = Some white)
  /\ (~ eliminated (pieces state) black -> eliminated (pieces state) white ->
      checkWinCondition state = Some black)
  /\ (~ eliminated (pieces state) black -> ~ eliminated (pieces state) white ->
      confined (pieces state) black -> checkWinCondition state = Some white)
  /\ (~ eliminated (pieces state) black -> ~ eliminated (pieces state) white ->
      ~ confined (pieces state) black -> confined (pieces state) white ->
      checkWinCondition state = Some black)
  /\ (forall who, eliminated (pieces state) who ->
                  isAllInMaoce (pieces state) who = false
                  /\ ~ confined (pieces state) who).
Proof.
  unfold checkWinCondition.
  set (P := pieces state).
  assert (Hexcl : forall who, eliminated P who ->
                              isAllInMaoce P who = false /\ ~ confined P who).
  { intros who He. split; [|intros [Hc _]; contradiction].
    destruct (isAllInMaoce P who) eqn:Hwho; [|reflexivity].
    apply isAllInMaoce_spec in Hwho. destruct Hwho. contradiction. }
  assert (Hb : Nat.eqb (countOf P black) 0 = true <-> eliminated P black).
  { rewrite Nat.eqb_eq. apply countOf_zero. }
  assert (Hw : Nat.eqb (countOf P white) 0 = true <-> eliminated P white).
  { rewrite Nat.eqb_eq. apply countOf_zero. }
  pose proof (isAllInMaoce_spec P black) as Hcb.
  pose proof (isAllInMaoce_spec P white) as Hcw.
  pose proof (Hexcl black) as Hxb. pose proof (Hexcl white) as Hxw.
  destruct (Nat.eqb (countOf P black) 0);
    destruct (Nat.eqb (countOf P white) 0);
    destruct (isAllInMaoce P black);
    destruct (isAllInMaoce P white);
    intuition (try discriminate; try congruence).
Qed.

(** ** Applying a move *)

Lemma countOf_total (pieces : Obj.t Piece) :
  countOf pieces black + countOf pieces white = length pieces.
Proof.
  unfold countOf, Obj.values.
  induction pieces as [|[k [i [|]]] rest IH]; simpl; lia.
Qed.

Lemma flipTo_keys (who : Player) (pieces : Obj.t Piece) (capId : NodeId) :
  Obj.keys (flipTo who pieces capId) = Obj.keys pieces.
Proof.
  unfold flipTo. destruct (Obj.get pieces capId) as [p|] eqn:Hget; [|reflexivity].
  eapply keys_set_present. exact Hget.
Qed.

Lemma flips_keys (who : Player) (caps : list NodeId) :
  forall pieces, Obj.keys (fold_left (flipTo who) caps pieces) = Obj.keys pieces.
Proof.
  induction caps as [|c rest IH]; simpl; intros pieces; [reflexivity|].
  now rewrite IH, flipTo_keys.
Qed.

Lemma keys_length (V : Type) (o : Obj.t V) : length (Obj.keys o) = length o.
Proof. unfold Obj.keys. apply length_map. Qed.

Lemma get_Some_key (V : Type) (o : Obj.t V) (k : string) :
  In k (Obj.keys o) -> exists v, Obj.get o k = Some v.
Proof.
  intros Hin. destruct (Obj.get o k) as [v|] eqn:Hget; [eauto|].
  apply get_None_key in Hget. contradiction.
Qed.

(** A flip never takes a node away from the side that flips. *)
Lemma flipTo_owned (who : Player) (pieces : Obj.t Piece) (capId n : NodeId) :
  ownedBy pieces n who = true -> ownedBy (flipTo who pieces capId) n who = true.
Proof.
  unfold flipTo, ownedBy. intros H.
  destruct (Obj.get pieces capId) as [p|] eqn:Hget; [|exact H].
  destruct (String.eqb_spec capId n) as [->|Hne].
  - rewrite get_set_same. simpl. apply Player_eqb_refl.
  - now rewrite get_set_other.
Qed.

Lemma flips_owned (who : Player) (caps : list NodeId) (n : NodeId) :
  forall pieces,
    ownedBy pieces n who = true ->
    ownedBy (fold_left (flipTo who) caps pieces) n who = true.
Proof.
  induction caps as [|c rest IH]; simpl; intros pieces H; [exact H|].
  apply IH. now apply flipTo_owned.
Qed.

(** Every occupied node of the capture list ends up owned by the mover. *)
Lemma flips_capture (who : Player) (caps : list NodeId) (n : NodeId) :
  forall pieces,
    In n caps -> In n (Obj.keys pieces) ->
    ownedBy (fold_left (flipTo who) caps pieces) n who = true.
Proof.
  induction caps as [|c rest IH]; simpl; intros pieces Hin Hkey; [contradiction|].
  destruct Hin as [->|Hin].
  - apply flips_owned. unfold flipTo, ownedBy.
    destruct (get_Some_key _ _ Hkey) as [p Hp]. rewrite Hp, get_set_same.
    simpl. apply Player_eqb_refl.
  - apply IH; [exact Hin|]. now rewrite flipTo_keys.
Qed.

(** Applying the groups one after the other is applying their
    concatenation. *)
Lemma flips_concat (who : Player) (steps : list (list NodeId)) :
  forall pieces,
    fold_left (fun pcs step => fold_left (flipTo who) step pcs) steps pieces
    = fold_left (flipTo who) (concat steps) pieces.
Proof.
  induction steps as [|g rest IH]; simpl; intros pieces; [reflexivity|].
  now rewrite fold_left_app, IH.
Qed.

(** The position a valid move leads to, by simulation and by staged
    execution. *)
Lemma validMove_applies (state : GameState) (fromId : NodeId) (m : Move) :
  validMove state fromId m ->
  exists piece caps steps,
    Obj.get (pieces state) (from m) = Some piece
    /\ captures m = Some caps /\ captureSteps m = Some steps
    /\ concat steps = caps
    /\ simulateMove state m
       = Ok (mkState
               (fold_left (flipTo (currentPlayer state)) caps
                  (Obj.set (Obj.delete (pieces state) (from m)) (to m) piece))
               (getOpponent (currentPlayer state)) None [] (turnCount state + 1))
    /\ exists played,
         executeMove state m = Ok played
         /\ pieces played
            = fold_left (flipTo (currentPlayer state)) caps
                (Obj.set (Obj.delete (pieces state) (from m)) (to m) piece)
         /\ currentPlayer played = getOpponent (currentPlayer state).
Proof.
  intros Hvalid.
  destruct (validMove_captures Hvalid)
    as (caps & steps & Hcaps & Hsteps & Hconcat & _).
  destruct Hvalid as (piece & _ & _ & Hpiece & _ & Hfrom & _).
  rewrite <- Hfrom in Hpiece.
  exists piece, caps, steps. repeat split; auto.
  - unfold simulateMove. rewrite Hpiece, Hcaps. reflexivity.
  - unfold executeMove. rewrite Hpiece, Hsteps. simpl.
    eexists. split; [reflexivity|]. simpl.
    split; [|reflexivity]. rewrite flips_concat. now rewrite Hconcat.
Qed.

(** The board after a valid move has as many entries as before. *)
Lemma moved_board_length (state : GameState) (fromId : NodeId) (m : Move)
      (piece : Piece) (caps : list NodeId) :
  Obj.wf (pieces state) -> validMove state fromId m ->
  Obj.get (pieces state) (from m) = Some piece ->
  length (fold_left (flipTo (currentPlayer state)) caps
            (Obj.set (Obj.delete (pieces state) (from m)) (to m) piece))
  = length (pieces state).
Proof.
  intros Hwf Hvalid Hpiece.
  destruct Hvalid as (_ & _ & _ & _ & _ & _ & _ & Hempty & _).
  apply isEmpty_get in Hempty.
  rewrite <- keys_length, flips_keys, keys_length.
  rewrite length_set_absent.
  - now apply length_delete_present with (v := piece).
  - destruct (String.eqb_spec (from m) (to m)) as [Heq|Hne].
    + rewrite <- Heq. apply get_delete_same.
    + now rewrite get_delete_other.
Qed.

(** C6.  Applying a move returned by [getValidMoves], by [simulateMove] as
    well as by [executeMove], keeps the number of pieces on the board summed
    over both sides: the property names of the new position are those of the
    old one with the source removed and the destination added, and every
    captured node is still occupied, now by the mover's side. *)
Theorem applying_a_move_preserves_piece_count (state : GameState)
        (fromId : NodeId) (moves : list Move) (m : Move) :
  Obj.wf (pieces state) ->
  getValidMoves state fromId = Ok moves -> In m moves ->
  exists next played caps,
    simulateMove state m = Ok next
    /\ executeMove state m = Ok played
    /\ captures m = Some caps
    /\ countOf (pieces next) black + countOf (pieces next) white
       = countOf (pieces state) black + countOf (pieces state) white
    /\ countOf (pieces played) black + countOf (pieces played) white
       = countOf (pieces state) black + countOf (pieces state) white
    /\ Obj.keys (pieces next)
       = Obj.keys (Obj.delete (pieces state) (from m)) ++ [to m]
    /\ (forall c, In c caps ->
                  ownedBy (pieces state) c (getOpponent (currentPlayer state)) = true
                  /\ ownedBy (pieces next) c (currentPlayer state) = true).
Proof.
  intros Hwf Hmoves Hm. apply getValidMoves_valid in Hmoves.
  rewrite Forall_forall in Hmoves. specialize (Hmoves _ Hm).
  destruct (validMove_applies Hmoves)
    as (piece & caps & steps & Hpiece & Hcaps & Hsteps & Hconcat & Hsim
        & played & Hexec & Hplayed & _).
  destruct (validMove_captures Hmoves)
    as (caps' & steps' & Hcaps' & _ & _ & _ & _ & Hnotfrom & Hnotto & Howned).
  assert (caps' = caps) by congruence. subst caps'.
  pose proof (moved_board_length caps Hwf Hmoves Hpiece) as Hlen.
  assert (Hempty : Obj.get (Obj.delete (pieces state) (from m)) (to m) = None).
  { destruct Hmoves as (_ & _ & _ & _ & _ & _ & _ & Hempty & _).
    apply isEmpty_get in Hempty.
    destruct (String.eqb_spec (from m) (to m)) as [Heq|Hne].
    - rewrite <- Heq. apply get_delete_same.
    - now rewrite get_delete_other. }
  eexists. exists played, caps.
  split; [exact Hsim|]. split; [exact Hexec|]. split; [exact Hcaps|]. simpl.
  rewrite Hplayed, !countOf_total, Hlen.
  split; [reflexivity|]. split; [reflexivity|]. split.
  - rewrite flips_keys. now apply keys_set_absent.
  - intros c Hc. rewrite Forall_forall in Howned. specialize (Howned _ Hc).
    split; [exact Howned|].
    apply flips_capture; [exact Hc|].
    rewrite keys_set_absent by exact Hempty. apply in_or_app. left.
    apply keys_delete. split.
    + apply ownedBy_Some in Howned. destruct Howned as [q [Hq _]].
      eapply get_key. exact Hq.
    + intros ->. contradiction.
Qed.

Lemma applying_a_move_preserves_piece_count_witness :
  exists next played caps,
    simulateMove twoWins
      captureByPick
    = Ok next
    /\ executeMove twoWins
         captureByPick
       = Ok played
    /\ Some ["2,3"; "m_center"] = Some caps
    /\ countOf (pieces next) black + countOf (pieces next) white
       = countOf (pieces twoWins) black + countOf (pieces twoWins) white
    /\ countOf (pieces played) black + countOf (pieces played) white
       = countOf (pieces twoWins) black + countOf (pieces twoWins) white
    /\ Obj.keys (pieces next)
       = Obj.keys (Obj.delete (pieces twoWins) "1,4") ++ ["2,4"]
    /\ (forall c, In c caps ->
                  ownedBy (pieces twoWins) c black = true
                  /\ ownedBy (pieces next) c white = true).
Proof.
  refine (@applying_a_move_preserves_piece_count twoWins "1,4" _
            captureByPick _ _ _).
  - unfold Obj.wf. simpl. repeat constructor; simpl; intuition discriminate.
  - vm_compute. reflexivity.
  - simpl. tauto.
Defined.

(** C7.  For a move returned by [getValidMoves], applying its capture
    groups one at a time in their order ([executeMove]) and applying its
    whole capture list in one step ([simulateMove]) lead to the same piece
    mapping, with the same side to move next. *)
Theorem staged_captures_equal_atomic (state : GameState) (fromId : NodeId)
        (moves : list Move) (m : Move) :
  getValidMoves state fromId = Ok moves -> In m moves ->
  exists played next steps caps piece,
    executeMove state m = Ok played
    /\ simulateMove state m = Ok next
    /\ captureSteps m = Some steps /\ captures m = Some caps
    /\ Obj.get (pieces state) (from m) = Some piece
    /\ pieces played
       = fold_left (fun pcs step => fold_left (flipTo (currentPlayer state)) step pcs)
                   steps
                   (Obj.set (Obj.delete (pieces state) (from m)) (to m) piece)
    /\ pieces next
       = fold_left (flipTo (currentPlayer state)) caps
                   (Obj.set (Obj.delete (pieces state) (from m)) (to m) piece)
    /\ pieces played = pieces next
    /\ currentPlayer played = currentPlayer next.
Proof.
  intros Hmoves Hm. apply getValidMoves_valid in Hmoves.
  rewrite Forall_forall in Hmoves. specialize (Hmoves _ Hm).
  destruct (validMove_applies Hmoves)
    as (piece & caps & steps & Hpiece & Hcaps & Hsteps & Hconcat & Hsim
        & played & Hexec & Hplayed & Hturn).
  exists played. eexists. exists steps, caps, piece.
  split; [exact Hexec|]. split; [exact Hsim|]. simpl.
  repeat split; auto.
  rewrite Hplayed, flips_concat. now rewrite Hconcat.
Qed.

Lemma staged_captures_equal_atomic_witness :
  exists played next steps caps piece,
    executeMove twoWins
      captureByPick
    = Ok played
    /\ simulateMove twoWins
         captureByPick
       = Ok next
    /\ Some [["2,3"; "m_center"]] = Some steps
    /\ Some ["2,3"; "m_center"] = Some caps
    /\ Obj.get (pieces twoWins) "1,4" = Some piece
    /\ pieces played
       = fold_left (fun pcs step => fold_left (flipTo white) step pcs) steps
                   (Obj.set (Obj.delete (pieces twoWins) "1,4") "2,4" piece)
    /\ pieces next
       = fold_left (flipTo white) caps
                   (Obj.set (Obj.delete (pieces twoWins) "1,4") "2,4" piece)
    /\ pieces played = pieces next
    /\ currentPlayer played = currentPlayer next.
Proof.
  refine (@staged_captures_equal_atomic twoWins "1,4" _
            captureByPick _ _).
  - vm_compute. reflexivity.
  - simpl. tauto.
Defined.

(** ** Extended integers *)

(** Case analysis on extended integers down to linear arithmetic. *)
Ltac ez :=
  unfold EZ.lt in *;
  repeat match goal with
         | x : EZ |- _ => destruct x
         end;
  cbn in *; try lia.

Lemma EZ_leb_le (a b : EZ) : EZ.leb a b = true <-> EZ.le a b.
Proof.
  destruct a, b; cbn; try tauto; try (split; [discriminate | contradiction]).
  apply Z.leb_le.
Qed.

Lemma EZ_leb_gt (a b : EZ) : EZ.leb a b = false <-> EZ.lt b a.
Proof.
  unfold EZ.lt. rewrite <- EZ_leb_le. destruct (EZ.leb a b); split; congruence.
Qed.

Lemma EZ_ltb_lt (a b : EZ) : EZ.ltb a b = true <-> EZ.lt a b.
Proof.
  unfold EZ.ltb. rewrite negb_true_iff. apply EZ_leb_gt.
Qed.

Lemma EZ_ltb_ge (a b : EZ) : EZ.ltb a b = false <-> EZ.le b a.
Proof.
  unfold EZ.ltb. rewrite negb_false_iff. apply EZ_leb_le.
Qed.

Lemma EZ_le_antisym (a b : EZ) : EZ.le a b -> EZ.le b a -> a = b.
Proof. destruct a, b; cbn; intros; try contradiction; try reflexivity. f_equal. lia. Qed.

Lemma EZ_le_refl (a : EZ) : EZ.le a a.
Proof. ez. Qed.

Lemma EZ_le_trans (a b c : EZ) : EZ.le a b -> EZ.le b c -> EZ.le a c.
Proof. ez. Qed.

Lemma EZ_le_lt_trans (a b c : EZ) : EZ.le a b -> EZ.lt b c -> EZ.lt a c.
Proof. ez. Qed.

Lemma EZ_lt_trans (a b c : EZ) : EZ.lt a b -> EZ.lt b c -> EZ.lt a c.
Proof. ez. Qed.

Lemma EZ_max_swap (a x y : EZ) :
  EZ.max (EZ.max a x) y = EZ.max (EZ.max a y) x.
Proof. destruct a, x, y; cbn; try reflexivity; f_equal; lia. Qed.

Lemma EZ_max_assoc (a b c : EZ) : EZ.max (EZ.max a b) c = EZ.max a (EZ.max b c).
Proof. destruct a, b, c; cbn; try reflexivity; f_equal; lia. Qed.

Lemma EZ_min_assoc (a b c : EZ) : EZ.min (EZ.min a b) c = EZ.min a (EZ.min b c).
Proof. destruct a, b, c; cbn; try reflexivity; f_equal; lia. Qed.

Lemma EZ_max_ge (a b : EZ) : EZ.le a (EZ.max a b).
Proof. ez. Qed.

Lemma EZ_min_le (a b : EZ) : EZ.le (EZ.min a b) a.
Proof. ez. Qed.

Lemma fold_max_ge (scores : list EZ) :
  forall a, EZ.le a (fold_left EZ.max scores a).
Proof.
  induction scores as [|s rest IH]; simpl; intros a; [apply EZ_le_refl|].
  eapply EZ_le_trans; [apply EZ_max_ge | apply IH].
Qed.

Lemma fold_min_le (scores : list EZ) :
  forall a, EZ.le (fold_left EZ.min scores a) a.
Proof.
  induction scores as [|s rest IH]; simpl; intros a; [apply EZ_le_refl|].
  eapply EZ_le_trans; [apply IH | apply EZ_min_le].
Qed.

(** ** Windows *)

(** [r] answers for the true value [v] in the window [(alpha, beta)]: it is
    [v] when [v] lies inside the window, and lies on the same side as [v]
    when [v] lies outside. *)
Definition within (alpha beta v r : EZ) : Prop :=
  (EZ.lt alpha v -> EZ.lt v beta -> EZ.le r v /\ EZ.le v r)
  /\ (EZ.le v alpha -> EZ.le r alpha)
  /\ (EZ.le beta v -> EZ.le beta r).

Lemma within_refl (alpha beta v : EZ) : within alpha beta v v.
Proof. unfold within. ez. Qed.

(** In the full window the answer is the value. *)
Lemma within_full (z : Z) (r : EZ) : within NegInf PosInf (Fin z) r -> r = Fin z.
Proof.
  intros (H & _).
  destruct H as [Hle Hge]; [unfold EZ.lt; cbn; tauto | unfold EZ.lt; cbn; tauto|].
  now apply EZ_le_antisym.
Qed.

(** A maximising node: one more child, searched in the raised window. *)
Lemma within_step_max (alpha beta M maxEval v e : EZ) :
  EZ.lt alpha beta ->
  within alpha beta M maxEval ->
  EZ.lt (EZ.max alpha maxEval) beta ->
  within (EZ.max alpha maxEval) beta v e ->
  within alpha beta (EZ.max M v) (EZ.max maxEval e).
Proof. unfold within. ez. Qed.

(** A maximising node: after a cut-off the value found so far answers for
    any larger true value. *)
Lemma within_cut_max (alpha beta M maxEval F : EZ) :
  EZ.lt alpha beta ->
  within alpha beta M maxEval ->
  EZ.le beta (EZ.max alpha maxEval) ->
  EZ.le M F ->
  within alpha beta F maxEval.
Proof. unfold within. ez. Qed.

Lemma within_step_min (alpha beta M minEval v e : EZ) :
  EZ.lt alpha beta ->
  within alpha beta M minEval ->
  EZ.lt alpha (EZ.min beta minEval) ->
  within alpha (EZ.min beta minEval) v e ->
  within alpha beta (EZ.min M v) (EZ.min minEval e).
Proof. unfold within. ez. Qed.

Lemma within_cut_min (alpha beta M minEval F : EZ) :
  EZ.lt alpha beta ->
  within alpha beta M minEval ->
  EZ.le (EZ.min beta minEval) alpha ->
  EZ.le F M ->
  within alpha beta F minEval.
Proof. unfold within. ez. Qed.

(** ** Alpha-beta against plain minimax *)

Lemma EZ_max_NegInf_r (a : EZ) : EZ.max a NegInf = a.
Proof. destruct a; reflexivity. Qed.

Lemma EZ_min_PosInf_r (a : EZ) : EZ.min a PosInf = a.
Proof. destruct a; reflexivity. Qed.

Lemma mapM_Forall2 (A B : Type) (f : A -> result B) (xs : list A) :
  forall ys, mapM f xs = Ok ys -> Forall2 (fun x y => f x = Ok y) xs ys.
Proof.
  induction xs as [|x xs IH]; simpl; intros ys H.
  - injection H as <-. constructor.
  - inv_bind H. inv_bind H. injection H as <-. constructor; auto.
Qed.

Section LoopRefinement.
Variable child : GameState -> EZ -> EZ -> result EZ.
Variable plainChild : GameState -> result EZ.
Variable state : GameState.

(** The recursive call answers for the plain value in every window. *)
Hypothesis child_refines :
  forall next alpha beta v,
    EZ.lt alpha beta -> plainChild next = Ok v ->
    exists r, child next alpha beta = Ok r /\ within alpha beta v r.

Let plainMove (move : Move) : result EZ :=
  nextState <- simulateMove state move ;; plainChild nextState.

Lemma maxLoop_refines (moves : list Move) :
  forall scores M maxEval alpha beta,
    mapM plainMove moves = Ok scores ->
    EZ.lt alpha beta ->
    within alpha beta M maxEval ->
    EZ.lt (EZ.max alpha maxEval) beta ->
    exists r,
      maxLoop child state moves maxEval (EZ.max alpha maxEval) beta = Ok r
      /\ within alpha beta (fold_left EZ.max scores M) r.
Proof.
  induction moves as [|move rest IH]; simpl;
    intros scores M maxEval alpha beta Hplain Hab Hwithin Hcur.
  - injection Hplain as <-. simpl. eauto.
  - inv_bind Hplain. rename a into v. inv_bind Hplain. rename a into vs.
    injection Hplain as <-. simpl.
    unfold plainMove in Ha. inv_bind Ha. rename a into next.
    rewrite Ha1. simpl.
    destruct (child_refines Hcur Ha) as [e [He Hwe]].
    rewrite He. simpl.
    pose proof (within_step_max Hab Hwithin Hcur Hwe) as Hstep.
    rewrite EZ_max_assoc.
    destruct (EZ.leb beta (EZ.max alpha (EZ.max maxEval e))) eqn:Hcut.
    + apply EZ_leb_le in Hcut. eexists. split; [reflexivity|].
      eapply within_cut_max; eauto. apply fold_max_ge.
    + apply EZ_leb_gt in Hcut. apply IH; auto.
Qed.

Lemma minLoop_refines (moves : list Move) :
  forall scores M minEval alpha beta,
    mapM plainMove moves = Ok scores ->
    EZ.lt alpha beta ->
    within alpha beta M minEval ->
    EZ.lt alpha (EZ.min beta minEval) ->
    exists r,
      minLoop child state moves minEval alpha (EZ.min beta minEval) = Ok r
      /\ within alpha beta (fold_left EZ.min scores M) r.
Proof.
  induction moves as [|move rest IH]; simpl;
    intros scores M minEval alpha beta Hplain Hab Hwithin Hcur.
  - injection Hplain as <-. simpl. eauto.
  - inv_bind Hplain. rename a into v. inv_bind Hplain. rename a into vs.
    injection Hplain as <-. simpl.
    unfold plainMove in Ha. inv_bind Ha. rename a into next.
    rewrite Ha1. simpl.
    destruct (child_refines Hcur Ha) as [e [He Hwe]].
    rewrite He. simpl.
    pose proof (within_step_min Hab Hwithin Hcur Hwe) as Hstep.
    rewrite EZ_min_assoc.
    destruct (EZ.leb (EZ.min beta (EZ.min minEval e)) alpha) eqn:Hcut.
    + apply EZ_leb_le in Hcut. eexists. split; [reflexivity|].
      eapply within_cut_min; eauto. apply fold_min_le.
    + apply EZ_leb_gt in Hcut. apply IH; auto.
Qed.
End LoopRefinement.

Lemma minimax_eq (fuel : nat) (state : GameState) (depth : Z)
      (isMaximizing : bool) (alpha beta : EZ) (aiPlayer : Player) :
  minimax fuel state depth isMaximizing alpha beta aiPlayer
  = if isSome (checkWinCondition state) || (depth =? 0)%Z then
      score <- evaluate state aiPlayer ;; Ok (Fin score)
    else
      moves <- getAllMoves state
                 (if isMaximizing then aiPlayer else getOpponent aiPlayer) ;;
      match moves with
      | [] => score <- evaluate state aiPlayer ;; Ok (Fin score)
      | _ :: _ =>
          match fuel with
          | O => OutOfFuel
          | S fuel' =>
              if isMaximizing then
                maxLoop (fun s a b => minimax fuel' s (depth - 1) false a b aiPlayer)
                        state moves NegInf alpha beta
              else
                minLoop (fun s a b => minimax fuel' s (depth - 1) true a b aiPlayer)
                        state moves PosInf alpha beta
          end
      end.
Proof. destruct fuel; reflexivity. Qed.

Lemma plainMinimax_eq (fuel : nat) (state : GameState) (depth : Z)
      (isMaximizing : bool) (aiPlayer : Player) :
  plainMinimax fuel state depth isMaximizing aiPlayer
  = if isSome (checkWinCondition state) || (depth =? 0)%Z then
      score <- evaluate state aiPlayer ;; Ok (Fin score)
    else
      moves <- getAllMoves state
                 (if isMaximizing then aiPlayer else getOpponent aiPlayer) ;;
      match moves with
      | [] => score <- evaluate state aiPlayer ;; Ok (Fin score)
      | _ :: _ =>
          match fuel with
          | O => OutOfFuel
          | S fuel' =>
              scores <-
                mapM (fun move =>
                        nextState <- simulateMove state move ;;
                        plainMinimax fuel' nextState (depth - 1)
                                     (negb isMaximizing) aiPlayer)
                     moves ;;
              if isMaximizing then Ok (fold_left EZ.max scores NegInf)
              else Ok (fold_left EZ.min scores PosInf)
          end
      end.
Proof. destruct fuel; reflexivity. Qed.

(** Alpha-beta answers for plain minimax in every window: whenever plain
    minimax returns, so does alpha-beta (it searches no position plain
    minimax does not), with the same value inside the window. *)
Lemma minimax_refines_plain (fuel : nat) :
  forall state depth isMaximizing aiPlayer alpha beta v,
    EZ.lt alpha beta ->
    plainMinimax fuel state depth isMaximizing aiPlayer = Ok v ->
    exists r,
      minimax fuel state depth isMaximizing alpha beta aiPlayer = Ok r
      /\ within alpha beta v r.
Proof.
  induction fuel as [|fuel IH];
    intros state depth isMaximizing aiPlayer alpha beta v Hab;
    rewrite minimax_eq, plainMinimax_eq;
    (destruct (isSome (checkWinCondition state) || (depth =? 0)%Z);
     [intros H; exists v; split; [exact H | apply within_refl]|]);
    (destruct (getAllMoves state
                 (if isMaximizing then aiPlayer else getOpponent aiPlayer))
       as [moves| |]; simpl; try discriminate);
    (destruct moves as [|m rest];
     [intros H; exists v; split; [exact H | apply within_refl]|]);
    [discriminate|].
  intros H. inv_bind H. rename a into scores.
  assert (Hmax : EZ.lt (EZ.max alpha NegInf) beta)
    by now rewrite EZ_max_NegInf_r.
  assert (Hmin : EZ.lt alpha (EZ.min beta PosInf))
    by now rewrite EZ_min_PosInf_r.
  destruct isMaximizing; injection H as <-; simpl in Ha.
  - destruct (@maxLoop_refines
                (fun s a b => minimax fuel s (depth - 1) false a b aiPlayer)
                (fun s => plainMinimax fuel s (depth - 1) false aiPlayer)
                state
                (fun next a b v Hab' Hp =>
                   IH next (depth - 1)%Z false aiPlayer a b v Hab' Hp)
                (m :: rest) scores NegInf NegInf alpha beta
                Ha Hab (within_refl alpha beta NegInf) Hmax)
      as [r [Hr Hw]].
    rewrite EZ_max_NegInf_r in Hr. eauto.
  - destruct (@minLoop_refines
                (fun s a b => minimax fuel s (depth - 1) true a b aiPlayer)
                (fun s => plainMinimax fuel s (depth - 1) true aiPlayer)
                state
                (fun next a b v Hab' Hp =>
                   IH next (depth - 1)%Z true aiPlayer a b v Hab' Hp)
                (m :: rest) scores PosInf PosInf alpha beta
                Ha Hab (within_refl alpha beta PosInf) Hmin)
      as [r [Hr Hw]].
    rewrite EZ_min_PosInf_r in Hr. eauto.
Qed.

(** ** Scores are finite *)

Definition isFin (a : EZ) : Prop := exists z, a = Fin z.

Lemma fold_max_fin (scores : list EZ) :
  forall a,
    a = NegInf \/ isFin a -> Forall isFin scores -> isFin a \/ scores <> [] ->
    isFin (fold_left EZ.max scores a).
Proof.
  induction scores as [|s rest IH]; simpl; intros a Ha Hall Hne.
  - destruct Hne as [H|H]; [exact H | contradiction].
  - inversion Hall as [|? ? [z ->] Hrest]; subst.
    apply IH; auto.
    + right. destruct Ha as [->|[y ->]]; cbn; eexists; reflexivity.
    + left. destruct Ha as [->|[y ->]]; cbn; eexists; reflexivity.
Qed.

Lemma fold_min_fin (scores : list EZ) :
  forall a,
    a = PosInf \/ isFin a -> Forall isFin scores -> isFin a \/ scores <> [] ->
    isFin (fold_left EZ.min scores a).
Proof.
  induction scores as [|s rest IH]; simpl; intros a Ha Hall Hne.
  - destruct Hne as [H|H]; [exact H | contradiction].
  - inversion Hall as [|? ? [z ->] Hrest]; subst.
    apply IH; auto.
    + right. destruct Ha as [->|[y ->]]; cbn; eexists; reflexivity.
    + left. destruct Ha as [->|[y ->]]; cbn; eexists; reflexivity.
Qed.

Lemma Forall2_Forall_r (A B : Type) (R : A -> B -> Prop) (Q : B -> Prop)
      (xs : list A) (ys : list B) :
  (forall x y, In x xs -> R x y -> Q y) -> Forall2 R xs ys -> Forall Q ys.
Proof.
  intros HQ H. induction H as [|x y xs ys Hxy Hrest IH]; constructor.
  - apply (HQ x y); [now left | exact Hxy].
  - apply IH. intros x' y' Hin. apply HQ. now right.
Qed.

Lemma plainMinimax_fin (fuel : nat) :
  forall state depth isMaximizing aiPlayer v,
    plainMinimax fuel state depth isMaximizing aiPlayer = Ok v -> isFin v.
Proof.
  induction fuel as [|fuel IH]; intros state depth isMaximizing aiPlayer v;
    rewrite plainMinimax_eq;
    (destruct (isSome (checkWinCondition state) || (depth =? 0)%Z);
     [intros H; inv_bind H; injection H as <-; eexists; reflexivity|]);
    (destruct (getAllMoves state
                 (if isMaximizing then aiPlayer else getOpponent aiPlayer))
       as [moves| |]; simpl; try discriminate);
    (destruct moves as [|m rest];
     [intros H; inv_bind H; injection H as <-; eexists; reflexivity|]);
    [discriminate|].
  intros H. inv_bind H. rename a into scores.
  apply mapM_Forall2 in Ha.
  assert (Hall : Forall isFin scores).
  { eapply Forall2_Forall_r; [|exact Ha]. intros x y _ Hxy. simpl in Hxy.
    inv_bind Hxy. eapply IH. exact Hxy. }
  assert (Hne : scores <> []).
  { inversion Ha. discriminate. }
  destruct isMaximizing; injection H as <-.
  - apply fold_max_fin; auto.
  - apply fold_min_fin; auto.
Qed.

Section LoopFinite.
Variable child : GameState -> EZ -> EZ -> result EZ.
Variable state : GameState.
Hypothesis child_fin : forall s a b r, child s a b = Ok r -> isFin r.

Lemma maxLoop_fin (moves : list Move) :
  forall maxEval alpha beta r,
    maxLoop child state moves maxEval alpha beta = Ok r ->
    maxEval = NegInf \/ isFin maxEval -> isFin maxEval \/ moves <> [] ->
    isFin r.
Proof.
  induction moves as [|move rest IH]; simpl; intros maxEval alpha beta r H Ha Hne.
  - injection H as <-. destruct Hne as [Hf|Hf]; [exact Hf | contradiction].
  - inv_bind H. inv_bind H. apply child_fin in Ha1. destruct Ha1 as [z ->].
    assert (Hfin : isFin (EZ.max maxEval (Fin z))).
    { destruct Ha as [->|[y ->]]; cbn; eexists; reflexivity. }
    destruct (EZ.leb beta (EZ.max alpha (Fin z))).
    + injection H as <-. exact Hfin.
    + eapply IH; eauto.
Qed.

Lemma minLoop_fin (moves : list Move) :
  forall minEval alpha beta r,
    minLoop child state moves minEval alpha beta = Ok r ->
    minEval = PosInf \/ isFin minEval -> isFin minEval \/ moves <> [] ->
    isFin r.
Proof.
  induction moves as [|move rest IH]; simpl; intros minEval alpha beta r H Ha Hne.
  - injection H as <-. destruct Hne as [Hf|Hf]; [exact Hf | contradiction].
  - inv_bind H. inv_bind H. apply child_fin in Ha1. destruct Ha1 as [z ->].
    assert (Hfin : isFin (EZ.min minEval (Fin z))).
    { destruct Ha as [->|[y ->]]; cbn; eexists; reflexivity. }
    destruct (EZ.leb (EZ.min beta (Fin z)) alpha).
    + injection H as <-. exact Hfin.
    + eapply IH; eauto.
Qed.
End LoopFinite.

(** [minimax] returns a finite score. *)
Lemma minimax_fin (fuel : nat) :
  forall state depth isMaximizing alpha beta aiPlayer r,
    minimax fuel state depth isMaximizing alpha beta aiPlayer = Ok r -> isFin r.
Proof.
  induction fuel as [|fuel IH];
    intros state depth isMaximizing alpha beta aiPlayer r;
    rewrite minimax_eq;
    (destruct (isSome (checkWinCondition state) || (depth =? 0)%Z);
     [intros H; inv_bind H; injection H as <-; eexists; reflexivity|]);
    (destruct (getAllMoves state
                 (if isMaximizing then aiPlayer else getOpponent aiPlayer))
       as [moves| |]; simpl; try discriminate);
    (destruct moves as [|m rest];
     [intros H; inv_bind H; injection H as <-; eexists; reflexivity|]);
    [discriminate|].
  destruct isMaximizing; intros H.
  - apply (@maxLoop_fin
             (fun s a b => minimax fuel s (depth - 1) false a b aiPlayer) state
             (fun s a b r' => IH s (depth - 1)%Z false a b aiPlayer r')
             (m :: rest) NegInf alpha beta r H);
      [now left | right; discriminate].
  - apply (@minLoop_fin
             (fun s a b => minimax fuel s (depth - 1) true a b aiPlayer) state
             (fun s a b r' => IH s (depth - 1)%Z true a b aiPlayer r')
             (m :: rest) PosInf alpha beta r H);
      [now left | right; discriminate].
Qed.

(** ** Ordering of the root moves *)

Lemma insertMove_perm (m : Move) (sorted : list Move) :
  Permutation (insertMove m sorted) (m :: sorted).
Proof.
  induction sorted as [|h t IH]; simpl; [reflexivity|].
  destruct (Nat.leb (captureCount h) (captureCount m)); [reflexivity|].
  rewrite IH. apply perm_swap.
Qed.

(** Sorting keeps the moves. *)
Lemma sortMoves_perm (moves : list Move) : Permutation (sortMoves moves) moves.
Proof.
  induction moves as [|m rest IH]; simpl; [reflexivity|].
  rewrite insertMove_perm. now constructor.
Qed.

(** The order of [sortMoves]: descending capture count. *)
Definition moreCaptures (a b : Move) : Prop := captureCount b <= captureCount a.

Lemma insertMove_sorted (m : Move) (sorted : list Move) :
  StronglySorted moreCaptures sorted ->
  StronglySorted moreCaptures (insertMove m sorted).
Proof.
  induction sorted as [|h t IH]; simpl; intros Hs.
  - repeat constructor.
  - inversion Hs as [|? ? Ht Hh]; subst.
    destruct (Nat.leb_spec (captureCount h) (captureCount m)) as [Hle|Hgt].
    + constructor; [exact Hs|]. constructor; [exact Hle|].
      eapply Forall_impl; [|exact Hh]. unfold moreCaptures. intros; lia.
    + constructor; [auto|].
      eapply Permutation_Forall; [symmetry; apply insertMove_perm|].
      constructor; [unfold moreCaptures; lia | exact Hh].
Qed.

Lemma sortMoves_sorted (moves : list Move) :
  StronglySorted moreCaptures (sortMoves moves).
Proof.
  induction moves as [|m rest IH]; simpl; [constructor|].
  now apply insertMove_sorted.
Qed.

(** The sort is stable: moves with the same capture count keep their
    generation order. *)
Lemma insertMove_stable (k : nat) (m : Move) (sorted : list Move) :
  StronglySorted moreCaptures sorted ->
  filter (fun a => Nat.eqb (captureCount a) k) (insertMove m sorted)
  = filter (fun a => Nat.eqb (captureCount a) k) (m :: sorted).
Proof.
  induction sorted as [|h t IH]; intros Hs; [reflexivity|].
  inversion Hs as [|? ? Ht Hh]; subst.
  cbn [insertMove].
  destruct (Nat.leb_spec (captureCount h) (captureCount m)) as [Hle|Hgt];
    [reflexivity|].
  cbn [filter]. rewrite (IH Ht). cbn [filter].
  destruct (Nat.eqb_spec (captureCount h) k) as [Hh'|Hh'];
    destruct (Nat.eqb_spec (captureCount m) k) as [Hm'|Hm']; try reflexivity.
  lia.
Qed.

Lemma sortMoves_stable (k : nat) (moves : list Move) :
  filter (fun a => Nat.eqb (captureCount a) k) (sortMoves moves)
  = filter (fun a => Nat.eqb (captureCount a) k) moves.
Proof.
  induction moves as [|m rest IH]; [reflexivity|].
  cbn [sortMoves fold_right]. fold (sortMoves rest).
  rewrite insertMove_stable by apply sortMoves_sorted.
  cbn [filter]. now rewrite IH.
Qed.

Lemma Forall2_permute (A B : Type) (R : A -> B -> Prop) (l l' : list A) :
  Permutation l l' ->
  forall s, Forall2 R l s -> exists s', Permutation s s' /\ Forall2 R l' s'.
Proof.
  induction 1 as [|x l l' Hperm IH|x y l|l l' l'' H1 IH1 H2 IH2]; intros s Hs.
  - inversion Hs; subst. exists []. split; constructor.
  - inversion Hs as [|? b ? bs Hb Hrest]; subst.
    destruct (IH _ Hrest) as [s' [Hp Hf]].
    exists (b :: s'). split; constructor; auto.
  - inversion Hs as [|? b ? bs Hb Hrest]; subst.
    inversion Hrest as [|? c ? cs Hc Hrest']; subst.
    exists (c :: b :: cs). split; [apply perm_swap | repeat constructor; auto].
  - destruct (IH1 _ Hs) as [s1 [Hp1 Hf1]].
    destruct (IH2 _ Hf1) as [s2 [Hp2 Hf2]].
    exists s2. split; [etransitivity; eauto | exact Hf2].
Qed.

Lemma fold_max_perm (l l' : list EZ) :
  Permutation l l' -> forall a, fold_left EZ.max l a = fold_left EZ.max l' a.
Proof.
  induction 1 as [|x l l' Hperm IH|x y l|l l' l'' H1 IH1 H2 IH2]; intros a; simpl.
  - reflexivity.
  - apply IH.
  - now rewrite EZ_max_swap.
  - now rewrite IH1, IH2.
Qed.

(** ** Positions on the board *)

(** Every piece of a well-formed position stands on a node of the
    topology. *)
Definition wfPosition (state : GameState) : Prop :=
  forall k, In k (Obj.keys (pieces state)) -> known k.

Lemma entry_key (V : Type) (o : Obj.t V) (k : string) (v : V) :
  In (k, v) o -> In k (Obj.keys o).
Proof.
  intros H. unfold Obj.keys. change k with (fst (k, v)). now apply in_map.
Qed.

Lemma keys_set_In (V : Type) (o : Obj.t V) (k k' : string) (v : V) :
  In k' (Obj.keys (Obj.set o k v)) -> In k' (Obj.keys o) \/ k' = k.
Proof.
  intros Hin. destruct (String.eqb_spec k k') as [->|Hne]; [now right|].
  left. apply get_Some_key in Hin. destruct Hin as [w Hw].
  rewrite get_set_other in Hw by exact Hne. eapply get_key. exact Hw.
Qed.

Lemma evaluate_total (state : GameState) (aiPlayer : Player) :
  wfPosition state -> exists z, evaluate state aiPlayer = Ok z.
Proof.
  intros Hwf. unfold evaluate.
  destruct (checkWinCondition state) as [w|].
  - destruct (Player_eqb w aiPlayer); eauto.
  - apply foldM_returns. intros score [nodeId piece] Hin.
    destruct (Hwf nodeId) as [node Hnode].
    { eapply entry_key. exact Hin. }
    unfold isMaoceAt. rewrite (read_own _ _ Hnode).
    destruct (Player_eqb (player piece) aiPlayer); simpl;
      destruct (isMaoce node); eauto.
Qed.

Lemma getAllMoves_total (state : GameState) (who : Player) :
  wfPosition state -> exists moves, getAllMoves state who = Ok moves.
Proof.
  intros Hwf. unfold getAllMoves. apply foldM_returns.
  intros acc [nodeId piece] Hin.
  destruct (Player_eqb (player piece) who); [|eauto].
  destruct (@getValidMoves_total state nodeId) as [moves ->].
  - apply Hwf. eapply entry_key. exact Hin.
  - simpl. eauto.
Qed.

(** Every move of [getAllMoves] is a valid move of one of the pieces. *)
Lemma getAllMoves_valid (state : GameState) (who : Player) (moves : list Move) :
  getAllMoves state who = Ok moves ->
  Forall (fun m => exists fromId, validMove state fromId m) moves.
Proof.
  unfold getAllMoves.
  apply foldM_invariant
    with (P := Forall (fun m => exists fromId, validMove state fromId m));
    [|constructor].
  intros acc [nodeId piece] acc' _ Hacc.
  destruct (Player_eqb (player piece) who).
  - intros H. inv_bind H. injection H as <-.
    apply Forall_app. split; [exact Hacc|].
    apply getValidMoves_valid in Ha.
    eapply Forall_impl; [|exact Ha]. intros m Hm. now exists nodeId.
  - intros H. injection H as <-. exact Hacc.
Qed.

Lemma slideTo_known (pieces : Obj.t Piece) (prev cur dest : NodeId) :
  slideTo pieces prev cur dest -> known cur -> known dest.
Proof.
  induction 1 as [|prev cur nxt dest node Hnode Hin _ _ _ _ IH]; intros Hk;
    [exact Hk|].
  apply IH. eapply neighbors_known; eauto.
Qed.

Lemma reachable_known (pieces : Obj.t Piece) (fromId dest : NodeId) :
  reachable pieces fromId dest -> known dest.
Proof.
  intros (startNode & first & Hstart & Hfirst & _ & Hslide).
  eapply slideTo_known; [exact Hslide|]. eapply neighbors_known; eauto.
Qed.

(** A valid move leads to a well-formed position. *)
Lemma validMove_simulates (state : GameState) (fromId : NodeId) (m : Move) :
  wfPosition state -> validMove state fromId m ->
  exists next, simulateMove state m = Ok next /\ wfPosition next.
Proof.
  intros Hwf Hvalid.
  destruct (validMove_applies Hvalid)
    as (piece & caps & steps & _ & _ & _ & _ & Hsim & _).
  eexists. split; [exact Hsim|].
  intros k. simpl. rewrite flips_keys. intros Hk.
  apply keys_set_In in Hk. destruct Hk as [Hk| ->].
  - apply keys_delete in Hk. apply Hwf. tauto.
  - destruct Hvalid as (_ & _ & _ & _ & _ & _ & Hreach & _).
    eapply reachable_known. exact Hreach.
Qed.

Lemma mapM_returns (A B : Type) (f : A -> result B) (xs : list A) :
  (forall x, In x xs -> exists y, f x = Ok y) -> exists ys, mapM f xs = Ok ys.
Proof.
  induction xs as [|x xs IH]; simpl; intros H; [eauto|].
  destruct (H x) as [y ->]; [now left|]. simpl.
  destruct IH as [ys ->]; [intros; apply H; now right|]. simpl. eauto.
Qed.

(** Plain minimax returns on a well-formed position when its fuel covers
    the depth. *)
Lemma plainMinimax_total (fuel : nat) :
  forall state depth isMaximizing aiPlayer,
    wfPosition state -> (0 <= depth)%Z -> Z.to_nat depth <= fuel ->
    exists v, plainMinimax fuel state depth isMaximizing aiPlayer = Ok v.
Proof.
  induction fuel as [|fuel IH];
    intros state depth isMaximizing aiPlayer Hwf Hdepth Hfuel;
    rewrite plainMinimax_eq;
    destruct (evaluate_total aiPlayer Hwf) as [z Hz];
    (destruct (isSome (checkWinCondition state)); simpl;
     [rewrite Hz; simpl; eauto|]);
    (destruct (Z.eqb_spec depth 0) as [Hd|Hd]; [rewrite Hz; simpl; eauto|]);
    (destruct (@getAllMoves_total state
                 (if isMaximizing then aiPlayer else getOpponent aiPlayer) Hwf)
       as [moves Hmoves]; rewrite Hmoves; simpl);
    (destruct moves as [|m rest]; [rewrite Hz; simpl; eauto|]);
    [lia|].
  apply getAllMoves_valid in Hmoves. rewrite Forall_forall in Hmoves.
  match goal with
  | |- context [mapM ?f ?xs] => destruct (@mapM_returns _ _ f xs) as [scores ->]
  end.
  - intros mv Hmv. destruct (Hmoves _ Hmv) as [fromId Hvalid].
    destruct (validMove_simulates Hwf Hvalid) as [next [-> Hnext]]. simpl.
    apply IH; [exact Hnext | lia | lia].
  - simpl. destruct isMaximizing; eauto.
Qed.

Lemma plainRootScore_total (state : GameState) (depth : Z) (aiPlayer : Player) :
  wfPosition state -> (1 <= depth)%Z ->
  exists v, plainRootScore state depth aiPlayer = Ok v.
Proof.
  intros Hwf Hdepth. unfold plainRootScore.
  destruct (@getAllMoves_total state aiPlayer Hwf) as [moves Hmoves].
  rewrite Hmoves. simpl.
  apply getAllMoves_valid in Hmoves. rewrite Forall_forall in Hmoves.
  destruct (@mapM_returns _ _ (plainRootValue state depth aiPlayer) moves)
    as [scores ->]; [|simpl; eauto].
  intros mv Hmv. destruct (Hmoves _ Hmv) as [fromId Hvalid].
  destruct (validMove_simulates Hwf Hvalid) as [next [Hnext Hwfnext]].
  unfold plainRootValue. rewrite Hnext. simpl.
  apply plainMinimax_total; [exact Hwfnext | lia | lia].
Qed.

(** ** The root of the search *)

Lemma EZ_lt_full : EZ.lt NegInf PosInf.
Proof. unfold EZ.lt. cbn. tauto. Qed.

(** At the root the window is full, so the score of a move is its plain
    value. *)
Lemma rootScore_refines (state : GameState) (depth : Z) (aiPlayer : Player)
      (move : Move) (v : EZ) :
  plainRootValue state depth aiPlayer move = Ok v ->
  rootScore state depth aiPlayer move = Ok v.
Proof.
  unfold plainRootValue, rootScore. intros H. inv_bind H. rewrite Ha. simpl.
  destruct (plainMinimax_fin _ _ _ _ _ H) as [z ->].
  destruct (minimax_refines_plain _ _ _ _ _ EZ_lt_full H) as [r [Hr Hw]].
  rewrite Hr. f_equal. now apply within_full.
Qed.

Lemma rootScore_fin (state : GameState) (depth : Z) (aiPlayer : Player)
      (move : Move) (s : EZ) :
  rootScore state depth aiPlayer move = Ok s -> isFin s.
Proof.
  unfold rootScore. intros H. inv_bind H. eapply minimax_fin. exact H.
Qed.

Lemma rootStep_max (a s : EZ) :
  snd (if EZ.ltb a s then (@None Move, s) else (None, a)) = EZ.max a s.
Proof.
  destruct (EZ.ltb a s) eqn:H; simpl.
  - apply EZ_ltb_lt in H. destruct a, s; cbn in *; unfold EZ.lt in H; cbn in H;
      try reflexivity; try tauto. f_equal. lia.
  - apply EZ_ltb_ge in H. destruct a, s; cbn in *; try reflexivity; try tauto.
    f_equal. lia.
Qed.

(** The best score of the root loop is the maximum of the scores. *)
Lemma rootLoop_max (state : GameState) (depth : Z) (aiPlayer : Player)
      (moves : list Move) :
  forall best scores,
    Forall2 (fun m s => rootScore state depth aiPlayer m = Ok s) moves scores ->
    exists best',
      foldM (rootStep state depth aiPlayer) best moves = Ok best'
      /\ snd best' = fold_left EZ.max scores (snd best).
Proof.
  induction moves as [|m rest IH]; intros best scores H; inversion H; subst.
  - simpl. eauto.
  - simpl. unfold rootStep at 1.
    match goal with
    | Hm : rootScore _ _ _ m = Ok ?y, Hr : Forall2 _ rest ?l |- _ =>
        rewrite Hm; simpl;
        pose proof (rootStep_max (snd best) y) as Hmax;
        destruct (EZ.ltb (snd best) y); simpl in *;
        [destruct (IH (Some m, y) l Hr) as [best' [Hrun Hsnd]]
        |destruct (IH best l Hr) as [best' [Hrun Hsnd]]];
        exists best'; (split; [exact Hrun|]); rewrite Hsnd; simpl;
        now rewrite <- Hmax
    end.
Qed.

(** The root of the search refines plain minimax: whenever the plain root
    score is defined, the search returns and its best score is that
    value. *)
Lemma searchRoot_refines_plain (state : GameState) (depth : Z)
      (aiPlayer : Player) (v : EZ) :
  plainRootScore state depth aiPlayer = Ok v ->
  exists best, searchRoot state depth aiPlayer = Ok best /\ snd best = v.
Proof.
  unfold plainRootScore, searchRoot. intros H. inv_bind H. rename a into moves.
  inv_bind H. rename a into scores. injection H as <-. rewrite Ha. simpl.
  apply mapM_Forall2 in Ha0.
  assert (Hroot : Forall2 (fun m s => rootScore state depth aiPlayer m = Ok s)
                          moves scores).
  { eapply Forall2_impl; [|exact Ha0]. intros m s. apply rootScore_refines. }
  destruct (Forall2_permute (Permutation_sym (sortMoves_perm moves)) Hroot)
    as [scores' [Hperm Hsorted]].
  destruct (@rootLoop_max state depth aiPlayer (sortMoves moves)
              (None, NegInf) scores' Hsorted) as [best [Hrun Hsnd]].
  exists best. split; [exact Hrun|]. rewrite Hsnd. simpl.
  symmetry. now apply fold_max_perm.
Qed.

(** C2.  When the searching side is the side to move, the best score of
    the root loop of [getBestMove] (alpha-beta below the root, root moves
    ordered by capture count) is the value of plain depth-limited minimax
    over the same moves, for every position and depth for which that value
    is defined; the move returned is the one recorded with that score.  The
    value is defined, and both searches return, on every position whose
    pieces stand on nodes of the topology and for every depth of at least
    one. *)
Theorem alphabeta_root_score_is_minimax (state : GameState) (depth : Z)
        (aiPlayer : Player) :
  currentPlayer state = aiPlayer ->
  (forall v,
      plainRootScore state depth aiPlayer = Ok v ->
      exists best,
        searchRoot state depth aiPlayer = Ok best
        /\ snd best = v
        /\ getBestMove state depth aiPlayer = Ok (fst best))
  /\ (wfPosition state -> (1 <= depth)%Z ->
      exists best v,
        plainRootScore state depth aiPlayer = Ok v
        /\ searchRoot state depth aiPlayer = Ok best
        /\ snd best = v).
Proof.
  intros _.
  assert (Hrefines : forall v,
             plainRootScore state depth aiPlayer = Ok v ->
             exists best,
               searchRoot state depth aiPlayer = Ok best
               /\ snd best = v
               /\ getBestMove state depth aiPlayer = Ok (fst best)).
  { intros v Hv.
    destruct (searchRoot_refines_plain _ _ _ Hv) as [best [Hbest Hsnd]].
    exists best. repeat split; auto.
    unfold getBestMove. now rewrite Hbest. }
  split; [exact Hrefines|].
  intros Hwf Hdepth.
  destruct (plainRootScore_total aiPlayer Hwf Hdepth) as [v Hv].
  destruct (Hrefines v Hv) as [best [Hbest [Hsnd _]]].
  exists best, v. auto.
Qed.

Lemma alphabeta_root_score_is_minimax_witness :
  (forall v,
      plainRootScore twoWins 2 white = Ok v ->
      exists best,
        searchRoot twoWins 2 white = Ok best
        /\ snd best = v
        /\ getBestMove twoWins 2 white = Ok (fst best))
  /\ (wfPosition twoWins -> (1 <= 2)%Z ->
      exists best v,
        plainRootScore twoWins 2 white = Ok v
        /\ searchRoot twoWins 2 white = Ok best
        /\ snd best = v).
Proof.
  apply (@alphabeta_root_score_is_minimax twoWins 2 white).
  reflexivity.
Defined.

(** The plain value of [twoWins] at depth 2 is defined: white wins at
    once. *)
Example plainRootScore_twoWins :
  plainRootScore twoWins 2 white = Ok (Fin 10000)
  /\ searchRoot twoWins 2 white = Ok (Some captureByPick, Fin 10000).
Proof. vm_compute. auto. Qed.

(** ** The move returned *)

(** [best] is the first move of [moves] with the greatest score: every
    move before it scores strictly less, every move after it scores no
    more.  No move is returned only when there is none. *)
Definition firstBest (score : Move -> result EZ) (moves : list Move)
                     (best : option Move) : Prop :=
  match best with
  | None => moves = []
  | Some m =>
      exists before after s,
        moves = before ++ m :: after
        /\ score m = Ok s
        /\ Forall (fun m' => exists s', score m' = Ok s' /\ EZ.lt s' s) before
        /\ Forall (fun m' => exists s', score m' = Ok s' /\ EZ.le s' s) after
  end.

(** The invariant of the root loop over the moves processed so far. *)
Definition rootInv (score : Move -> result EZ) (processed : list Move)
                   (best : option Move * EZ) : Prop :=
  match fst best with
  | None => processed = [] /\ snd best = NegInf
  | Some m =>
      exists before after,
        processed = before ++ m :: after
        /\ score m = Ok (snd best)
        /\ Forall (fun m' => exists s', score m' = Ok s' /\ EZ.lt s' (snd best))
                  before
        /\ Forall (fun m' => exists s', score m' = Ok s' /\ EZ.le s' (snd best))
                  after
  end.

Lemma rootLoop_first (state : GameState) (depth : Z) (aiPlayer : Player)
      (moves : list Move) :
  forall processed best best',
    rootInv (rootScore state depth aiPlayer) processed best ->
    foldM (rootStep state depth aiPlayer) best moves = Ok best' ->
    rootInv (rootScore state depth aiPlayer) (processed ++ moves) best'.
Proof.
  induction moves as [|x rest IH]; simpl; intros processed best best' Hinv Hrun.
  - injection Hrun as <-. now rewrite app_nil_r.
  - inv_bind Hrun. rename a into next.
    replace (processed ++ x :: rest) with ((processed ++ [x]) ++ rest)
      by now rewrite <- app_assoc.
    apply IH with (best := next); [|exact Hrun]. clear IH Hrun.
    unfold rootStep in Ha. inv_bind Ha. rename a into sx.
    destruct (rootScore_fin _ _ _ _ Ha0) as [z ->].
    destruct best as [[m|] s]; unfold rootInv in *; simpl in *.
    + destruct Hinv as (before & after & -> & Hm & Hbefore & Hafter).
      destruct (EZ.ltb s (Fin z)) eqn:Hlt; injection Ha as <-; simpl.
      * apply EZ_ltb_lt in Hlt.
        exists (before ++ m :: after), []. repeat split; auto.
        apply Forall_app. split.
        -- eapply Forall_impl; [|exact Hbefore]. intros m' [s' [Hs' Hlt']].
           exists s'. split; [exact Hs'|]. eapply EZ_lt_trans; eauto.
        -- constructor; [exists s; auto|].
           eapply Forall_impl; [|exact Hafter]. intros m' [s' [Hs' Hle']].
           exists s'. split; [exact Hs'|]. eapply EZ_le_lt_trans; eauto.
      * apply EZ_ltb_ge in Hlt.
        exists before, (after ++ [x]). rewrite <- app_assoc. simpl.
        repeat split; auto.
        apply Forall_app. split; [exact Hafter|].
        constructor; [|constructor]. exists (Fin z). auto.
    + destruct Hinv as [-> ->]. cbn in Ha. injection Ha as <-. simpl.
      exists [], []. repeat split; auto.
Qed.

(** C5 as stated fails.  On [twoWins], white to move and searched to depth
    3 as the interactive opponent does, the moves [1,4 -> 1,3] (one capture)
    and [1,4 -> 2,4] (two captures) both reach the greatest score, 10000.
    The first is generated before the second (places 1 and 5 of the move
    list), so it is the first best move in generation order; [getBestMove]
    returns the second. *)
Lemma best_move_not_first_in_generation_order :
  exists moves,
    getAllMoves twoWins white = Ok moves
    /\ nth_error moves 1 = Some captureByClamp
    /\ nth_error moves 5 = Some captureByPick
    /\ rootScore twoWins 3 white captureByClamp = Ok (Fin 10000)
    /\ rootScore twoWins 3 white captureByPick = Ok (Fin 10000)
    /\ Forall (fun m => exists s, rootScore twoWins 3 white m = Ok s
                                  /\ EZ.le s (Fin 10000)) moves
    /\ getBestMove twoWins 3 white = Ok (Some captureByPick)
    /\ ~ firstBest (rootScore twoWins 3 white) moves (Some captureByPick).
Proof.
  assert (HsA : rootScore twoWins 3 white captureByClamp = Ok (Fin 10000))
    by (vm_compute; reflexivity).
  assert (HsB : rootScore twoWins 3 white captureByPick = Ok (Fin 10000))
    by (vm_compute; reflexivity).
  eexists. split; [vm_compute; reflexivity|].
  split; [reflexivity|]. split; [reflexivity|].
  split; [exact HsA|]. split; [exact HsB|].
  split.
  { rewrite Forall_forall. intros m Hm.
    match type of Hm with
    | In m ?moves =>
        assert (Hb : forallb (fun m => match rootScore twoWins 3 white m with
                                       | Ok s => EZ.leb s (Fin 10000)
                                       | _ => false
                                       end) moves = true)
          by (vm_compute; reflexivity)
    end.
    rewrite forallb_forall in Hb. specialize (Hb m Hm).
    destruct (rootScore twoWins 3 white m) as [s| |]; try discriminate.
    exists s. split; [reflexivity | now apply EZ_leb_le]. }
  split; [vm_compute; reflexivity|].
  intros (before & after & s & Hsplit & Hs & Hbefore & _).
  rewrite HsB in Hs. injection Hs as <-.
  destruct before as [|b0 before]; [discriminate Hsplit|].
  destruct before as [|b1 before]; [discriminate Hsplit|].
  simpl in Hsplit. injection Hsplit as _ Hb1 _.
  inversion Hbefore as [|? ? _ Hrest]; subst.
  inversion Hrest as [|? ? [s' [Hs' Hlt]] _]; subst.
  change (rootScore twoWins 3 white captureByClamp = Ok s') in Hs'.
  rewrite HsA in Hs'. injection Hs' as <-.
  unfold EZ.lt in Hlt. cbn in Hlt. lia.
Qed.

(** C5, amended.  [getBestMove] is a function of its arguments, and the
    move it returns is the first move with the greatest score in the order
    in which the root loop visits the moves: the moves of [getAllMoves]
    sorted by descending capture count, moves with equal counts in
    generation order.  It returns no move only when there is none. *)
Theorem best_move_is_first_maximum_in_search_order (state : GameState)
        (depth : Z) (aiPlayer : Player) (best : option Move) :
  getBestMove state depth aiPlayer = Ok best ->
  (forall state' depth' aiPlayer',
      state' = state -> depth' = depth -> aiPlayer' = aiPlayer ->
      getBestMove state' depth' aiPlayer' = Ok best)
  /\ exists moves,
       getAllMoves state aiPlayer = Ok moves
       /\ firstBest (rootScore state depth aiPlayer) (sortMoves moves) best
       /\ Permutation (sortMoves moves) moves
       /\ StronglySorted moreCaptures (sortMoves moves)
       /\ (forall k,
              filter (fun m => Nat.eqb (captureCount m) k) (sortMoves moves)
              = filter (fun m => Nat.eqb (captureCount m) k) moves).
Proof.
  intros Hbest. split.
  { intros state' depth' aiPlayer' -> -> ->. exact Hbest. }
  unfold getBestMove, searchRoot in Hbest.
  inv_bind Hbest. rename a into found. injection Hbest as <-.
  inv_bind Ha. rename a into moves.
  exists moves. split; [exact Ha0|].
  split; [|split; [apply sortMoves_perm | split;
                   [apply sortMoves_sorted | intros k; apply sortMoves_stable]]].
  apply rootLoop_first with (processed := []) in Ha;
    [|unfold rootInv; simpl; auto].
  simpl in Ha. unfold rootInv in Ha. unfold firstBest.
  destruct (fst found) as [m|].
  - destruct Ha as (before & after & Hsplit & Hm & Hbefore & Hafter).
    exists before, after, (snd found). auto.
  - tauto.
Qed.

Lemma best_move_is_first_maximum_in_search_order_witness :
  (forall state' depth' aiPlayer',
      state' = twoWins -> depth' = 3%Z -> aiPlayer' = white ->
      getBestMove state' depth' aiPlayer' = Ok (Some captureByPick))
  /\ exists moves,
       getAllMoves twoWins white = Ok moves
       /\ firstBest (rootScore twoWins 3 white) (sortMoves moves)
                    (Some captureByPick)
       /\ Permutation (sortMoves moves) moves
       /\ StronglySorted moreCaptures (sortMoves moves)
       /\ (forall k,
              filter (fun m => Nat.eqb (captureCount m) k) (sortMoves moves)
              = filter (fun m => Nat.eqb (captureCount m) k) moves).
Proof.
  apply (@best_move_is_first_maximum_in_search_order twoWins 3 white
           (Some captureByPick)).
  vm_compute. reflexivity.
Defined.

(** ** The side that is not to move *)

Lemma getAllMoves_other_side (state : GameState) (who : Player) :
  Obj.wf (pieces state) -> who <> currentPlayer state ->
  getAllMoves state who = Ok [].
Proof.
  intros Hwf Hwho. unfold getAllMoves.
  assert (Hgen : forall entries,
             (forall e, In e entries -> In e (pieces state)) ->
             foldM (fun moveList '(nodeId, piece) =>
                      if Player_eqb (player piece) who then
                        moves <- getValidMoves state nodeId ;;
                        Ok (moveList ++ moves)
                      else Ok moveList)
                   [] entries = Ok []).
  { induction entries as [|[nodeId piece] rest IH]; simpl; intros Hsub;
      [reflexivity|].
    destruct (Player_eqb (player piece) who) eqn:Hp.
    - apply Player_eqb_eq in Hp. unfold getValidMoves.
      rewrite (In_get _ _ Hwf (Hsub _ (or_introl eq_refl))).
      destruct (Player_eqb (player piece) (currentPlayer state)) eqn:Hcur.
      + apply Player_eqb_eq in Hcur. congruence.
      + simpl. apply IH. intros e He. apply Hsub. now right.
    - simpl. apply IH. intros e He. apply Hsub. now right. }
  apply Hgen. auto.
Qed.

(** C10.  When the searching side is not the side to move of the
    position, [getBestMove] returns no move, whatever the depth and whatever
    pieces and free destinations that side has: [getValidMoves] yields moves
    for the side to move only. *)
Theorem no_best_move_for_side_not_to_move (state : GameState) (depth : Z)
        (aiPlayer : Player) :
  Obj.wf (pieces state) -> aiPlayer <> currentPlayer state ->
  getAllMoves state aiPlayer = Ok []
  /\ getBestMove state depth aiPlayer = Ok None.
Proof.
  intros Hwf Hside.
  pose proof (@getAllMoves_other_side state aiPlayer Hwf Hside) as Hnone.
  split; [exact Hnone|].
  unfold getBestMove, searchRoot. rewrite Hnone. reflexivity.
Qed.

Lemma no_best_move_for_side_not_to_move_witness :
  getAllMoves getInitialState white = Ok []
  /\ getBestMove getInitialState 3 white = Ok None.
Proof.
  apply (@no_best_move_for_side_not_to_move getInitialState 3 white).
  - unfold Obj.wf. vm_compute.
    repeat constructor; simpl; intuition discriminate.
  - discriminate.
Defined.

(* ================================================================== *)
(** * Further properties of the code *)

(** ** Collinearity *)

Lemma nearZero_opp (val : Z) : nearZero (- val) = nearZero val.
Proof. unfold nearZero. now rewrite Z.abs_opp. Qed.

Lemma collinear_reverse (n1 n2 n3 : NodeId) :
  collinear n1 n2 n3 = collinear n3 n2 n1.
Proof.
  unfold collinear.
  destruct (Obj.get BOARD_NODES n1) as [p1|], (Obj.get BOARD_NODES n2) as [p2|],
           (Obj.get BOARD_NODES n3) as [p3|]; try reflexivity.
  rewrite <- nearZero_opp. f_equal. ring.
Qed.

Lemma collinear_swap_first (n1 n2 n3 : NodeId) :
  collinear n1 n2 n3 = collinear n2 n1 n3.
Proof.
  unfold collinear.
  destruct (Obj.get BOARD_NODES n1) as [p1|], (Obj.get BOARD_NODES n2) as [p2|],
           (Obj.get BOARD_NODES n3) as [p3|]; try reflexivity.
  rewrite <- nearZero_opp. f_equal. ring.
Qed.

(** X1.  [areCollinear] does not depend on the order of its three
    identifiers: the cross product only changes sign when two of them are
    exchanged, and an unknown identifier gives [false] in every position. *)
Theorem areCollinear_order_irrelevant (n1 n2 n3 : NodeId) :
  areCollinear n1 n2 n3 = areCollinear n3 n2 n1
  /\ areCollinear n1 n2 n3 = areCollinear n2 n1 n3
  /\ areCollinear n1 n2 n3 = areCollinear n1 n3 n2.
Proof.
  rewrite !areCollinear_Ok. repeat split; f_equal.
  - apply collinear_reverse.
  - apply collinear_swap_first.
  - rewrite collinear_reverse, collinear_swap_first. apply collinear_reverse.
Qed.

(** X2.  A repeated identifier makes three known nodes collinear: the
    cross product of a zero vector vanishes.  (This is why the callers skip
    [nextId === prevId], [n1 === n2] and [n2 === center] themselves.) *)
Theorem areCollinear_repeated_identifier (a b : NodeId) :
  known a -> known b ->
  areCollinear a a b = Ok true
  /\ areCollinear a b b = Ok true
  /\ areCollinear a b a = Ok true.
Proof.
  intros [pa Ha] [pb Hb]. unfold areCollinear. rewrite Ha, Hb.
  repeat split; f_equal; apply nearZero_spec; ring.
Qed.

Lemma areCollinear_repeated_identifier_witness :
  areCollinear "2,2" "2,2" "m_top" = Ok true
  /\ areCollinear "2,2" "m_top" "m_top" = Ok true
  /\ areCollinear "2,2" "m_top" "2,2" = Ok true.
Proof.
  apply (@areCollinear_repeated_identifier "2,2" "m_top");
    eexists; vm_compute; reflexivity.
Defined.

(** ** Building the topology: [addEdge] *)

(** The neighbours recorded for [k]; none for an unknown node. *)
Definition nbrs (nodes : Obj.t BoardNode) (k : NodeId) : list NodeId :=
  match Obj.get nodes k with
  | Some n => neighbors n
  | None => []
  end.

(** What [addEdge] never touches in a node. *)
Definition sameBut (n n' : BoardNode) : Prop :=
  id n' = id n /\ x n' = x n /\ y n' = y n /\ isMaoce n' = isMaoce n.

Lemma pushNeighbor_get (nodes : Obj.t BoardNode) (a b k : NodeId) (n : BoardNode) :
  Obj.get nodes a = Some n ->
  Obj.get (pushNeighbor nodes a b) k
  = if a =? k
    then Some (mkNode (id n) (x n) (y n) (neighbors n ++ [b]) (isMaoce n))
    else Obj.get nodes k.
Proof.
  intros Ha. unfold pushNeighbor. rewrite Ha.
  destruct (String.eqb_spec a k) as [->|Hne].
  - apply get_set_same.
  - now apply get_set_other.
Qed.

Lemma pushNeighbor_keys (nodes : Obj.t BoardNode) (a b : NodeId) :
  Obj.keys (pushNeighbor nodes a b) = Obj.keys nodes.
Proof.
  unfold pushNeighbor. destruct (Obj.get nodes a) as [n|] eqn:Ha; [|reflexivity].
  eapply keys_set_present. exact Ha.
Qed.

(** The first half of [addEdge]: [id2] recorded at [id1] unless it is. *)
Definition addHalf (nodes : Obj.t BoardNode) (id1 id2 : NodeId)
  : Obj.t BoardNode :=
  match Obj.get nodes id1 with
  | Some n1 =>
      if includes (neighbors n1) id2 then nodes else pushNeighbor nodes id1 id2
  | None => nodes
  end.

Lemma addHalf_get (nodes : Obj.t BoardNode) (a b k : NodeId) :
  Obj.get (addHalf nodes a b) k
  = match Obj.get nodes k with
    | Some n =>
        if (a =? k) && negb (includes (neighbors n) b)
        then Some (mkNode (id n) (x n) (y n) (neighbors n ++ [b]) (isMaoce n))
        else Some n
    | None => None
    end.
Proof.
  unfold addHalf. destruct (Obj.get nodes a) as [na|] eqn:Ha.
  - destruct (includes (neighbors na) b) eqn:Hinc.
    + destruct (Obj.get nodes k) as [n|] eqn:Hk; [|reflexivity].
      destruct (String.eqb_spec a k) as [->|Hne]; [|reflexivity].
      assert (n = na) by congruence. subst. now rewrite Hinc.
    + rewrite pushNeighbor_get with (n := na) by exact Ha.
      destruct (String.eqb_spec a k) as [->|Hne].
      * rewrite Ha, Hinc. reflexivity.
      * destruct (Obj.get nodes k); reflexivity.
  - destruct (Obj.get nodes k) as [n|] eqn:Hk; [|reflexivity].
    destruct (String.eqb_spec a k) as [->|Hne]; [congruence | reflexivity].
Qed.

Lemma addHalf_keys (nodes : Obj.t BoardNode) (a b : NodeId) :
  Obj.keys (addHalf nodes a b) = Obj.keys nodes.
Proof.
  unfold addHalf. destruct (Obj.get nodes a) as [na|]; [|reflexivity].
  destruct (includes (neighbors na) b); [reflexivity | apply pushNeighbor_keys].
Qed.

(** The neighbours after half an edge: [b] is added at [a], once. *)
Lemma addHalf_nbrs (nodes : Obj.t BoardNode) (a b k : NodeId) :
  nbrs (addHalf nodes a b) k
  = if (a =? k) && isSome (Obj.get nodes a) && negb (includes (nbrs nodes k) b)
    then nbrs nodes k ++ [b]
    else nbrs nodes k.
Proof.
  unfold nbrs. rewrite addHalf_get.
  destruct (String.eqb_spec a k) as [->|Hne]; simpl.
  - destruct (Obj.get nodes k) as [n|]; simpl; [|reflexivity].
    destruct (includes (neighbors n) b); reflexivity.
  - destruct (Obj.get nodes k); reflexivity.
Qed.

Lemma addHalf_present (nodes : Obj.t BoardNode) (a b k : NodeId) :
  isSome (Obj.get (addHalf nodes a b) k) = isSome (Obj.get nodes k).
Proof.
  rewrite addHalf_get. destruct (Obj.get nodes k) as [n|]; [|reflexivity].
  destruct ((a =? k) && negb (includes (neighbors n) b)); reflexivity.
Qed.

Lemma addHalf_In (nodes : Obj.t BoardNode) (a b k m : NodeId) :
  In m (nbrs (addHalf nodes a b) k)
  <-> In m (nbrs nodes k)
      \/ (k = a /\ m = b /\ isSome (Obj.get nodes a) = true).
Proof.
  rewrite addHalf_nbrs.
  destruct (String.eqb_spec a k) as [->|Hne]; simpl.
  - destruct (isSome (Obj.get nodes k)) eqn:Hp; simpl.
    + destruct (includes (nbrs nodes k) b) eqn:Hinc; simpl.
      * apply includes_In in Hinc. split; [tauto|].
        intros [H|(_ & -> & _)]; assumption.
      * rewrite in_app_iff. simpl. split.
        -- intros [H|[<-|[]]]; auto.
        -- intros [H|(_ & -> & _)]; auto.
    + split; [tauto|]. intros [H|(_ & _ & H)]; [exact H | discriminate].
  - split; [tauto|]. intros [H|(H & _)]; [exact H | congruence].
Qed.

Lemma addHalf_noop (nodes : Obj.t BoardNode) (a b : NodeId) :
  In b (nbrs nodes a) -> addHalf nodes a b = nodes.
Proof.
  unfold addHalf, nbrs. destruct (Obj.get nodes a) as [na|]; [|reflexivity].
  intros H. apply includes_In in H. now rewrite H.
Qed.

Lemma addHalf_NoDup (nodes : Obj.t BoardNode) (a b : NodeId) :
  (forall k, NoDup (nbrs nodes k)) ->
  forall k, NoDup (nbrs (addHalf nodes a b) k).
Proof.
  intros Hnd k. rewrite addHalf_nbrs.
  destruct ((a =? k) && isSome (Obj.get nodes a)); simpl; [|apply Hnd].
  destruct (includes (nbrs nodes k) b) eqn:Hinc; simpl; [apply Hnd|].
  apply NoDup_app; [apply Hnd | repeat constructor; auto|].
  intros z Hz [<-|[]]. apply includes_In in Hz. congruence.
Qed.

(** Whether [o[k]] is an own property, and whether it is truthy. *)
Definition own (nodes : Obj.t BoardNode) (k : NodeId) : bool :=
  isSome (Obj.get nodes k).

Definition present (nodes : Obj.t BoardNode) (k : NodeId) : bool :=
  own nodes k || Obj.inherited k.

Lemma read_cases (nodes : Obj.t BoardNode) (k : NodeId) :
  match Obj.read nodes k with
  | Obj.Own n => Obj.get nodes k = Some n
  | Obj.Inherited => Obj.get nodes k = None /\ Obj.inherited k = true
  | Obj.Missing => Obj.get nodes k = None /\ Obj.inherited k = false
  end.
Proof.
  unfold Obj.read. destruct (Obj.get nodes k); [reflexivity|].
  destruct (Obj.inherited k); auto.
Qed.

(** [addEdge] in its four cases: a falsy end, an inherited first end, two
    nodes, and a node with an inherited second end. *)
Lemma addEdge_halves (nodes : Obj.t BoardNode) (id1 id2 : NodeId) :
  addEdge nodes id1 id2
  = match Obj.read nodes id1, Obj.read nodes id2 with
    | Obj.Missing, _ | _, Obj.Missing => (nodes, Ok tt)
    | Obj.Inherited, _ => (nodes, TypeError)
    | Obj.Own _, Obj.Own _ => (addHalf (addHalf nodes id1 id2) id2 id1, Ok tt)
    | Obj.Own _, Obj.Inherited => (addHalf nodes id1 id2, TypeError)
    end.
Proof.
  unfold addEdge.
  pose proof (read_cases nodes id1) as H1.
  pose proof (read_cases nodes id2) as H2.
  destruct (Obj.read nodes id1) as [n1| |]; [|reflexivity|reflexivity].
  assert (Hhalf : (if includes (neighbors n1) id2 then nodes
                   else pushNeighbor nodes id1 id2) = addHalf nodes id1 id2).
  { unfold addHalf. now rewrite H1. }
  rewrite Hhalf. clear Hhalf.
  pose proof (addHalf_present nodes id1 id2 id2) as Hp.
  set (half := addHalf nodes id1 id2) in *.
  destruct (Obj.read nodes id2) as [n2| |]; [| |reflexivity]; unfold Obj.read.
  - rewrite H2 in Hp. unfold addHalf.
    destruct (Obj.get half id2) as [n2'|]; [reflexivity | discriminate].
  - destruct H2 as [H2 Hname]. rewrite H2 in Hp. rewrite Hname.
    destruct (Obj.get half id2); [discriminate | reflexivity].
Qed.

(** The outcome: [addEdge] throws exactly when both ends are truthy and one
    of them is inherited. *)
Lemma addEdge_outcome (nodes : Obj.t BoardNode) (a b : NodeId) :
  snd (addEdge nodes a b)
  = if present nodes a && present nodes b && negb (own nodes a && own nodes b)
    then TypeError else Ok tt.
Proof.
  rewrite addEdge_halves. unfold present, own.
  pose proof (read_cases nodes a) as Ha. pose proof (read_cases nodes b) as Hb.
  destruct (Obj.read nodes a) as [na| |], (Obj.read nodes b) as [nb| |];
    repeat match goal with
           | H : _ /\ _ |- _ => destruct H as [? ?]
           end;
    repeat match goal with
           | H : Obj.get _ _ = _ |- _ => rewrite H
           | H : Obj.inherited _ = _ |- _ => rewrite H
           end; simpl; try reflexivity;
    destruct (Obj.inherited a), (Obj.inherited b); reflexivity.
Qed.

Lemma addEdge_returns (nodes : Obj.t BoardNode) (a b : NodeId) :
  Obj.inherited a = false -> Obj.inherited b = false ->
  snd (addEdge nodes a b) = Ok tt.
Proof.
  intros Ha Hb. rewrite addEdge_outcome. unfold present, own. rewrite Ha, Hb.
  destruct (isSome (Obj.get nodes a)), (isSome (Obj.get nodes b)); reflexivity.
Qed.

(** The neighbours after [addEdge]: the old ones, [b] at [a] when [a] is a
    node and [b] is truthy, and [a] at [b] when both are nodes. *)
Lemma addEdge_In (nodes : Obj.t BoardNode) (a b k m : NodeId) :
  In m (nbrs (fst (addEdge nodes a b)) k)
  <-> In m (nbrs nodes k)
      \/ (own nodes a = true /\ present nodes b = true /\ k = a /\ m = b)
      \/ (own nodes a = true /\ own nodes b = true /\ k = b /\ m = a).
Proof.
  rewrite addEdge_halves. unfold present, own.
  pose proof (read_cases nodes a) as Ha. pose proof (read_cases nodes b) as Hb.
  destruct (Obj.read nodes a) as [na| |], (Obj.read nodes b) as [nb| |];
    repeat match goal with
           | H : _ /\ _ |- _ => destruct H as [? ?]
           end;
    repeat match goal with
           | H : Obj.get _ _ = _ |- _ => rewrite H
           | H : Obj.inherited _ = _ |- _ => rewrite H
           end; simpl;
    rewrite ?addHalf_In, ?addHalf_present;
    repeat match goal with
           | H : Obj.get _ _ = _ |- _ => rewrite H
           end; simpl;
    intuition (try discriminate; try congruence).
Qed.

(** X3.  [addEdge] between two nodes of the object returns and records the
    edge on both ends, also when the two ends are the same node, and
    whether or not a half of it was there. *)
Theorem addEdge_records_both_ends (nodes : Obj.t BoardNode) (a b : NodeId)
        (na nb : BoardNode) :
  Obj.get nodes a = Some na -> Obj.get nodes b = Some nb ->
  exists built,
    addEdge nodes a b = (built, Ok tt)
    /\ In b (nbrs built a) /\ In a (nbrs built b).
Proof.
  intros Ha Hb. exists (fst (addEdge nodes a b)). split.
  - pose proof (addEdge_outcome nodes a b) as Hout.
    unfold present, own in Hout. rewrite Ha, Hb in Hout. simpl in Hout.
    destruct (addEdge nodes a b) as [built outcome]. simpl in *. now subst.
  - rewrite !addEdge_In. unfold present, own. rewrite Ha, Hb. simpl. tauto.
Qed.

Lemma addEdge_records_both_ends_witness :
  exists built,
    addEdge allNodes "0,0" "m_right" = (built, Ok tt)
    /\ In "m_right" (nbrs built "0,0") /\ In "0,0" (nbrs built "m_right").
Proof.
  refine (@addEdge_records_both_ends allNodes "0,0" "m_right" _ _ _ _);
    vm_compute; reflexivity.
Defined.

Lemma addEdge_keys (nodes : Obj.t BoardNode) (a b : NodeId) :
  Obj.keys (fst (addEdge nodes a b)) = Obj.keys nodes.
Proof.
  rewrite addEdge_halves.
  destruct (Obj.read nodes a), (Obj.read nodes b); simpl;
    now rewrite ?addHalf_keys.
Qed.

Lemma addEdge_NoDup (nodes : Obj.t BoardNode) (a b : NodeId) :
  (forall k, NoDup (nbrs nodes k)) ->
  forall k, NoDup (nbrs (fst (addEdge nodes a b)) k).
Proof.
  intros Hnd k. rewrite addEdge_halves.
  destruct (Obj.read nodes a), (Obj.read nodes b); simpl;
    repeat apply addHalf_NoDup; apply Hnd.
Qed.

Lemma addHalf_own (nodes : Obj.t BoardNode) (a b k : NodeId) :
  own (addHalf nodes a b) k = own nodes k.
Proof. apply addHalf_present. Qed.

Lemma addEdge_own (nodes : Obj.t BoardNode) (a b k : NodeId) :
  own (fst (addEdge nodes a b)) k = own nodes k.
Proof.
  rewrite addEdge_halves.
  destruct (Obj.read nodes a), (Obj.read nodes b); simpl;
    now rewrite ?addHalf_own.
Qed.

(** X4.  [addEdge] is idempotent and never records a neighbour twice: a
    second call with the same ends leaves the table the first call left and
    ends as the first did, whether that returned or threw, and neighbour
    lists without repetition stay so. *)
Theorem addEdge_idempotent_without_duplicates (nodes : Obj.t BoardNode)
        (a b : NodeId) :
  addEdge (fst (addEdge nodes a b)) a b = addEdge nodes a b
  /\ ((forall k, NoDup (nbrs nodes k)) ->
      forall k, NoDup (nbrs (fst (addEdge nodes a b)) k)).
Proof.
  split; [|apply addEdge_NoDup].
  assert (Hsnd : snd (addEdge (fst (addEdge nodes a b)) a b)
                 = snd (addEdge nodes a b)).
  { rewrite !addEdge_outcome. unfold present. now rewrite !addEdge_own. }
  assert (Hfst : fst (addEdge (fst (addEdge nodes a b)) a b)
                 = fst (addEdge nodes a b)).
  { pose proof (addEdge_In nodes a b) as Hin.
    set (built := fst (addEdge nodes a b)) in *.
    pose proof (addEdge_own nodes a b) as Hown. fold built in Hown.
    rewrite (addEdge_halves built).
    pose proof (read_cases built a) as Ha.
    pose proof (read_cases built b) as Hb.
    destruct (Obj.read built a) as [na| |];
      [|now destruct (Obj.read built b) | now destruct (Obj.read built b)].
    assert (Hoa : own nodes a = true).
    { rewrite <- Hown. unfold own. now rewrite Ha. }
    destruct (Obj.read built b) as [nb| |]; [| |reflexivity]; simpl.
    - assert (Hob : own nodes b = true).
      { rewrite <- Hown. unfold own. now rewrite Hb. }
      assert (Hab : In b (nbrs built a)).
      { apply Hin. right. left. unfold present. rewrite Hob. auto. }
      assert (Hba : In a (nbrs built b)).
      { apply Hin. right. right. auto. }
      rewrite (addHalf_noop _ _ _ Hab). now rewrite (addHalf_noop _ _ _ Hba).
    - destruct Hb as [_ Hb].
      assert (Hab : In b (nbrs built a)).
      { apply Hin. right. left. unfold present. rewrite Hb.
        rewrite orb_true_r. auto. }
      now rewrite (addHalf_noop _ _ _ Hab). }
  destruct (addEdge (fst (addEdge nodes a b)) a b) as [t1 o1],
           (addEdge nodes a b) as [t2 o2].
  simpl in *. now subst.
Qed.

Lemma addHalf_frame (nodes : Obj.t BoardNode) (a b k : NodeId) (n : BoardNode) :
  Obj.get nodes k = Some n ->
  exists n' extra,
    Obj.get (addHalf nodes a b) k = Some n'
    /\ sameBut n n'
    /\ neighbors n' = neighbors n ++ extra
    /\ (k <> a -> extra = []).
Proof.
  intros Hk. rewrite addHalf_get, Hk.
  destruct (String.eqb_spec a k) as [->|Hne]; simpl.
  - destruct (includes (neighbors n) b); simpl.
    + exists n, []. rewrite app_nil_r. unfold sameBut. intuition congruence.
    + eexists. exists [b]. split; [reflexivity|]. unfold sameBut. simpl.
      intuition congruence.
  - exists n, []. rewrite app_nil_r. unfold sameBut. intuition congruence.
Qed.

Lemma addEdge_frame (nodes : Obj.t BoardNode) (a b k : NodeId) (n : BoardNode) :
  Obj.get nodes k = Some n ->
  exists n' extra,
    Obj.get (fst (addEdge nodes a b)) k = Some n'
    /\ sameBut n n'
    /\ neighbors n' = neighbors n ++ extra
    /\ (k <> a -> k <> b -> extra = []).
Proof.
  intros Hk.
  assert (Hsame : exists n' extra,
             Obj.get nodes k = Some n' /\ sameBut n n'
             /\ neighbors n' = neighbors n ++ extra
             /\ (k <> a -> k <> b -> extra = [])).
  { exists n, []. rewrite app_nil_r. unfold sameBut. intuition congruence. }
  destruct (@addHalf_frame nodes a b k n Hk) as (n1 & e1 & H1 & S1 & N1 & E1).
  destruct (@addHalf_frame (addHalf nodes a b) b a k n1 H1)
    as (n2 & e2 & H2 & S2 & N2 & E2).
  rewrite addEdge_halves.
  destruct (Obj.read nodes a), (Obj.read nodes b); simpl; try exact Hsame.
  - exists n2, (e1 ++ e2). split; [exact H2|]. split; [|split].
    + unfold sameBut in *. intuition congruence.
    + now rewrite N2, N1, app_assoc.
    + intros Hka Hkb. now rewrite (E1 Hka), (E2 Hkb).
  - exists n1, e1. split; [exact H1|]. split; [exact S1|].
    split; [exact N1 | auto].
Qed.

(** X5.  [addEdge] only appends to the neighbour lists of its two ends: the
    nodes of the object and their order, the identifier, coordinates and
    trap flag of every node, and the neighbours of every other node are
    unchanged, also when it throws.  With an end under which the object
    has no property it returns and changes nothing; with an inherited name
    for first end and a truthy second end it throws and changes nothing;
    with a node for first end and an inherited name for second end it
    records the second end at the first and then throws; with two nodes it
    returns. *)
Theorem addEdge_changes_only_the_two_ends (nodes : Obj.t BoardNode)
        (a b : NodeId) :
  Obj.keys (fst (addEdge nodes a b)) = Obj.keys nodes
  /\ (forall k n,
         Obj.get nodes k = Some n ->
         exists n' extra,
           Obj.get (fst (addEdge nodes a b)) k = Some n'
           /\ sameBut n n'
           /\ neighbors n' = neighbors n ++ extra
           /\ (k <> a -> k <> b -> extra = []))
  /\ (Obj.read nodes a = Obj.Missing \/ Obj.read nodes b = Obj.Missing ->
      addEdge nodes a b = (nodes, Ok tt))
  /\ (Obj.read nodes a = Obj.Inherited -> Obj.read nodes b <> Obj.Missing ->
      addEdge nodes a b = (nodes, TypeError))
  /\ (forall na,
         Obj.get nodes a = Some na -> Obj.read nodes b = Obj.Inherited ->
         snd (addEdge nodes a b) = TypeError
         /\ nbrs (fst (addEdge nodes a b)) a
            = if includes (neighbors na) b then neighbors na
              else neighbors na ++ [b])
  /\ (forall na nb,
         Obj.get nodes a = Some na -> Obj.get nodes b = Some nb ->
         snd (addEdge nodes a b) = Ok tt).
Proof.
  split; [apply addEdge_keys|]. split; [intros k n; apply addEdge_frame|].
  split; [|split; [|split]].
  - rewrite addEdge_halves. intros [H|H]; rewrite H; [reflexivity|].
    destruct (Obj.read nodes a); reflexivity.
  - rewrite addEdge_halves. intros Ha Hb. rewrite Ha.
    destruct (Obj.read nodes b); [reflexivity | reflexivity | contradiction].
  - intros na Ha Hb. rewrite addEdge_halves, (read_own _ _ Ha), Hb. simpl.
    split; [reflexivity|]. rewrite addHalf_nbrs. unfold nbrs. rewrite Ha.
    rewrite String.eqb_refl. simpl.
    destruct (includes (neighbors na) b); reflexivity.
  - intros na nb Ha Hb.
    now rewrite addEdge_halves, (read_own _ _ Ha), (read_own _ _ Hb).
Qed.

(** An undirected graph: every edge is recorded on both ends. *)
Definition undirected (nodes : Obj.t BoardNode) : Prop :=
  forall k m, In m (nbrs nodes k) -> In k (nbrs nodes m).

(** A call that returns keeps the graph undirected. *)
Lemma addEdge_undirected (nodes : Obj.t BoardNode) (a b : NodeId) :
  snd (addEdge nodes a b) = Ok tt ->
  undirected nodes -> undirected (fst (addEdge nodes a b)).
Proof.
  rewrite addEdge_outcome. intros Hout Hsym k m. rewrite !addEdge_In.
  intros [H|[(Ha & Hb & -> & ->)|(Ha & Hb & -> & ->)]].
  - left. now apply Hsym.
  - right. right. rewrite Ha in Hout. rewrite Hb in Hout.
    unfold present in Hout. rewrite Ha in Hout. simpl in Hout.
    destruct (own nodes b) eqn:Hob; [auto | discriminate].
  - right. left. unfold present. rewrite Hb. auto.
Qed.

Lemma nbrs_known (nodes : Obj.t BoardNode) (k m : NodeId) :
  In m (nbrs nodes k) -> exists n, Obj.get nodes k = Some n.
Proof.
  unfold nbrs. destruct (Obj.get nodes k) as [n|]; [eauto | intros []].
Qed.

(** The calls [addEdge(a, b)] of a list of edges, one after the other, up
    to the first that throws. *)
Definition addEdges (edges : list (NodeId * NodeId)) (nodes : Obj.t BoardNode)
  : Build :=
  forEach (fun g '(a, b) => addEdge g a b) edges nodes.

Lemma forEach_thrown (A : Type) (body : Obj.t BoardNode -> A -> Build)
      (xs : list A) (b : Build) :
  snd b <> Ok tt ->
  fold_left (fun b x => andThen b (fun nodes => body nodes x)) xs b = b.
Proof.
  intros Hb. induction xs as [|x xs IH]; simpl; [reflexivity|].
  destruct b as [nodes [[]| |]]; simpl in *; [contradiction | exact IH | exact IH].
Qed.

Lemma forEach_cons (A : Type) (body : Obj.t BoardNode -> A -> Build)
      (x : A) (xs : list A) (nodes : Obj.t BoardNode) :
  forEach body (x :: xs) nodes
  = andThen (body nodes x) (forEach body xs).
Proof.
  unfold forEach. simpl.
  destruct (body nodes x) as [nodes' [[]| |]] eqn:Hx; simpl;
    [reflexivity | |]; apply forEach_thrown; simpl; discriminate.
Qed.

Lemma addEdges_graph (edges : list (NodeId * NodeId)) :
  forall nodes,
    undirected nodes -> (forall k, NoDup (nbrs nodes k)) ->
    Obj.keys (fst (addEdges edges nodes)) = Obj.keys nodes
    /\ (forall k, NoDup (nbrs (fst (addEdges edges nodes)) k))
    /\ (Forall (fun e => Obj.inherited (fst e) = false
                         /\ Obj.inherited (snd e) = false) edges ->
        snd (addEdges edges nodes) = Ok tt)
    /\ (snd (addEdges edges nodes) = Ok tt ->
        undirected (fst (addEdges edges nodes))).
Proof.
  induction edges as [|[a b] rest IH]; intros nodes Hsym Hnd.
  - simpl. auto.
  - unfold addEdges in *. rewrite forEach_cons.
    pose proof (addEdge_keys nodes a b) as Hkeys.
    pose proof (@addEdge_NoDup nodes a b Hnd) as Hnd'.
    pose proof (@addEdge_undirected nodes a b) as Hsym'.
    pose proof (@addEdge_returns nodes a b) as Hret.
    destruct (addEdge nodes a b) as [nodes' [[]| |]]; simpl in *.
    + destruct (IH nodes' (Hsym' eq_refl Hsym) Hnd') as (Hk & Hn & Hr & Hu).
      split; [now rewrite Hk|]. split; [exact Hn|]. split; [|exact Hu].
      intros Hall. inversion Hall; subst. now apply Hr.
    + split; [exact Hkeys|]. split; [exact Hnd'|]. split; [|discriminate].
      intros Hall. inversion Hall as [|? ? [Ha Hb] _]; subst. simpl in *.
      now apply Hret.
    + split; [exact Hkeys|]. split; [exact Hnd'|]. split; [|discriminate].
      intros Hall. inversion Hall as [|? ? [Ha Hb] _]; subst. simpl in *.
      now apply Hret.
Qed.

(** X6.  Whatever edges are added, in whatever order, to a table of nodes
    without edges, the nodes stay the same and no neighbour is listed
    twice.  The calls all return when no end bears an inherited name, and
    when they all return the table is an undirected graph on its nodes:
    every neighbour is a node of the table and lists the node back. *)
Theorem addEdge_builds_undirected_graphs (nodes : Obj.t BoardNode)
        (edges : list (NodeId * NodeId)) :
  (forall k, nbrs nodes k = []) ->
  let built := fst (addEdges edges nodes) in
  Obj.keys built = Obj.keys nodes
  /\ (forall k, NoDup (nbrs built k))
  /\ (Forall (fun e => Obj.inherited (fst e) = false
                       /\ Obj.inherited (snd e) = false) edges ->
      snd (addEdges edges nodes) = Ok tt)
  /\ (snd (addEdges edges nodes) = Ok tt ->
      forall k m,
        In m (nbrs built k) ->
        In k (nbrs built m) /\ In m (Obj.keys nodes) /\ In k (Obj.keys nodes)).
Proof.
  intros Hempty built.
  destruct (@addEdges_graph edges nodes) as (Hk & Hn & Hr & Hu).
  - intros k m. now rewrite Hempty.
  - intros k. rewrite Hempty. constructor.
  - fold built in Hk, Hn, Hu. split; [exact Hk|]. split; [exact Hn|].
    split; [exact Hr|].
    intros Hok k m Hm. pose proof (Hu Hok k m Hm) as Hback.
    split; [exact Hback|]. rewrite <- Hk. split.
    + destruct (nbrs_known _ _ _ Hback) as [n Hn']. eapply get_key. exact Hn'.
    + destruct (nbrs_known _ _ _ Hm) as [n Hn']. eapply get_key. exact Hn'.
Qed.

(** The calls of [addEdge] the module makes, in order. *)
Definition edgeCalls : list (NodeId * NodeId) :=
  flat_map (fun '(r, c) =>
              (if (c + 1 <? Z.of_nat COLS)%Z
               then [(getId r c, getId r (c + 1))] else [])
              ++ (if (r + 1 <? Z.of_nat ROWS)%Z
                  then [(getId r c, getId (r + 1) c)] else []))
           grid
  ++ flat_map (fun '(r, c) =>
                 [ (getId r c, getId (r - 1) (c - 1));
                   (getId r c, getId (r - 1) (c + 1));
                   (getId r c, getId (r + 1) (c - 1));
                   (getId r c, getId (r + 1) (c + 1)) ])
              centers
  ++ [ (attachPointId, "m_top"); (attachPointId, "m_bottom");
       (attachPointId, "m_center");
       ("m_center", "m_top"); ("m_center", "m_right"); ("m_center", "m_bottom");
       ("m_top", "m_right"); ("m_right", "m_bottom") ].

Example BOARD_NODES_from_edgeCalls :
  addEdges edgeCalls allNodes = (BOARD_NODES, Ok tt).
Proof. vm_compute. reflexivity. Qed.

(** An edge to an inherited name: the first half is recorded, then the call
    throws. *)
Example addEdge_inherited_end :
  addEdge allNodes "constructor" "0,0" = (allNodes, TypeError)
  /\ snd (addEdge allNodes "0,0" "constructor") = TypeError
  /\ nbrs (fst (addEdge allNodes "0,0" "constructor")) "0,0" = ["constructor"].
Proof. vm_compute. auto. Qed.

Lemma addEdge_builds_undirected_graphs_witness :
  let built := fst (addEdges edgeCalls allNodes) in
  Obj.keys built = Obj.keys allNodes
  /\ (forall k, NoDup (nbrs built k))
  /\ (Forall (fun e => Obj.inherited (fst e) = false
                       /\ Obj.inherited (snd e) = false) edgeCalls ->
      snd (addEdges edgeCalls allNodes) = Ok tt)
  /\ (snd (addEdges edgeCalls allNodes) = Ok tt ->
      forall k m,
        In m (nbrs built k) ->
        In k (nbrs built m) /\ In m (Obj.keys allNodes)
        /\ In k (Obj.keys allNodes)).
Proof.
  apply (@addEdge_builds_undirected_graphs allNodes edgeCalls).
  intros k. unfold nbrs.
  destruct (Obj.get allNodes k) as [n|] eqn:Hk; [|reflexivity].
  apply get_In in Hk.
  assert (Hall : forallb (fun kv => match neighbors (snd kv) with
                                    | [] => true
                                    | _ :: _ => false
                                    end) allNodes = true)
    by (vm_compute; reflexivity).
  rewrite forallb_forall in Hall. specialize (Hall _ Hk). simpl in Hall.
  destruct (neighbors n); [reflexivity | discriminate].
Defined.

(** ** The continuation of a slide *)

Lemma nextInLine_none (prevId currentId : NodeId) (candidates : list NodeId) :
  nextInLine prevId currentId candidates = Ok None ->
  forall c, In c candidates -> c <> prevId ->
            collinear prevId currentId c = false.
Proof.
  induction candidates as [|c0 rest IH]; simpl; intros H c Hc Hne; [contradiction|].
  destruct (String.eqb_spec c0 prevId) as [->|Hc0].
  - destruct Hc as [<-|Hc]; [contradiction | now apply IH].
  - rewrite areCollinear_Ok in H. simpl in H.
    destruct (collinear prevId currentId c0) eqn:Hcol; [discriminate|].
    destruct Hc as [<-|Hc]; [exact Hcol | now apply IH].
Qed.

Lemma filter_at_most_one (A : Type) (f : A -> bool) (l : list A) (a b : A) :
  length (filter f l) <= 1 ->
  In a l -> f a = true -> In b l -> f b = true -> a = b.
Proof.
  intros Hlen Ha Hfa Hb Hfb.
  assert (Ia : In a (filter f l)) by now apply filter_In.
  assert (Ib : In b (filter f l)) by now apply filter_In.
  destruct (filter f l) as [|u [|v rest]]; simpl in *; [contradiction| |lia].
  destruct Ia as [<-|[]], Ib as [<-|[]]. reflexivity.
Qed.

(** On the board, a node reached from a neighbour has at most one other
    neighbour on the line, and that neighbour lies straight ahead, one
    equal step further. *)
Lemma continuation_unique_and_straight :
  forallb (fun kv =>
    forallb (fun prev =>
      let ahead :=
        filter (fun c => negb (c =? prev) && collinear prev (fst kv) c)
               (neighbors (snd kv)) in
      Nat.leb (length ahead) 1
      && forallb (fun c =>
                    match Obj.get BOARD_NODES prev, Obj.get BOARD_NODES c with
                    | Some p, Some q =>
                        (x q - x (snd kv) =? x (snd kv) - x p)%Z
                        && (y q - y (snd kv) =? y (snd kv) - y p)%Z
                    | _, _ => false
                    end) ahead)
      (neighbors (snd kv)))
    BOARD_NODES = true.
Proof. vm_compute. reflexivity. Qed.

(** X7.  The continuation of a slide does not depend on the order of the
    neighbour lists: from a node entered from one of its neighbours,
    [nextInLine] returns a node exactly when that node is a neighbour other
    than the previous one on the line through both, there is at most one,
    and it lies one equal step straight ahead (a slide never turns back,
    although [areCollinear] does not test the direction). *)
Theorem slide_continuation_is_the_node_straight_ahead
        (prevId currentId : NodeId) (node : BoardNode) :
  Obj.get BOARD_NODES currentId = Some node -> In prevId (neighbors node) ->
  (forall nxt,
      nextInLine prevId currentId (neighbors node) = Ok (Some nxt)
      <-> In nxt (neighbors node) /\ nxt <> prevId
          /\ areCollinear prevId currentId nxt = Ok true)
  /\ (forall nxt,
         nextInLine prevId currentId (neighbors node) = Ok (Some nxt) ->
         exists p q,
           Obj.get BOARD_NODES prevId = Some p /\ Obj.get BOARD_NODES nxt = Some q
           /\ (x q - x node = x node - x p)%Z
           /\ (y q - y node = y node - y p)%Z).
Proof.
  intros Hnode Hprev.
  pose proof continuation_unique_and_straight as Hboard.
  rewrite forallb_forall in Hboard.
  specialize (Hboard _ (get_In _ _ Hnode)). simpl in Hboard.
  rewrite forallb_forall in Hboard. specialize (Hboard _ Hprev).
  apply andb_true_iff in Hboard. destruct Hboard as [Hone Hstraight].
  apply Nat.leb_le in Hone. rewrite forallb_forall in Hstraight.
  assert (Hcand : forall c,
             In c (neighbors node) -> c <> prevId ->
             collinear prevId currentId c = true ->
             In c (filter (fun c => negb (c =? prevId)
                                    && collinear prevId currentId c)
                          (neighbors node))).
  { intros c Hc Hne Hcol. apply filter_In. split; [exact Hc|].
    rewrite Hcol. destruct (String.eqb_spec c prevId); [contradiction|reflexivity]. }
  split.
  - intros nxt. rewrite areCollinear_Ok. split.
    + intros H. apply nextInLine_sound in H. destruct H as (Hin & Hne & Hcol).
      now rewrite Hcol.
    + intros (Hin & Hne & Hcol). injection Hcol as Hcol.
      destruct (nextInLine_total prevId currentId (neighbors node)) as [[found|] Hrun].
      * rewrite Hrun. do 2 f_equal.
        destruct (nextInLine_sound _ _ _ Hrun) as (Hin' & Hne' & Hcol').
        pose proof (Hcand _ Hin Hne Hcol) as I1.
        pose proof (Hcand _ Hin' Hne' Hcol') as I2.
        apply filter_In in I1, I2.
        eapply filter_at_most_one; [exact Hone | | | |]; tauto.
      * pose proof (@nextInLine_none _ _ _ Hrun nxt Hin Hne). congruence.
  - intros nxt H. apply nextInLine_sound in H. destruct H as (Hin & Hne & Hcol).
    specialize (Hstraight _ (Hcand _ Hin Hne Hcol)).
    destruct (Obj.get BOARD_NODES prevId) as [p|]; [|discriminate].
    destruct (Obj.get BOARD_NODES nxt) as [q|]; [|discriminate].
    apply andb_true_iff in Hstraight. destruct Hstraight as [Hx Hy].
    apply Z.eqb_eq in Hx, Hy. exists p, q. auto.
Qed.

Lemma slide_continuation_is_the_node_straight_ahead_witness :
  (forall nxt,
      nextInLine "1,3" "2,4"
        ["1,4"; "2,3"; "3,4"; "1,3"; "3,3"; "m_top"; "m_bottom"; "m_center"]
      = Ok (Some nxt)
      <-> In nxt ["1,4"; "2,3"; "3,4"; "1,3"; "3,3"; "m_top"; "m_bottom"; "m_center"]
          /\ nxt <> "1,3" /\ areCollinear "1,3" "2,4" nxt = Ok true)
  /\ (forall nxt,
         nextInLine "1,3" "2,4"
           ["1,4"; "2,3"; "3,4"; "1,3"; "3,3"; "m_top"; "m_bottom"; "m_center"]
         = Ok (Some nxt) ->
         exists p q,
           Obj.get BOARD_NODES "1,3" = Some p /\ Obj.get BOARD_NODES nxt = Some q
           /\ (x q - 400 = 400 - x p)%Z
           /\ (y q - 200 = 200 - y p)%Z).
Proof.
  refine (@slide_continuation_is_the_node_straight_ahead "1,3" "2,4"
            (mkNode "2,4" 400 200
               ["1,4"; "2,3"; "3,4"; "1,3"; "3,3"; "m_top"; "m_bottom"; "m_center"]
               false) _ _).
  - vm_compute. reflexivity.
  - simpl. tauto.
Defined.

(** ** The capture checks in closed form *)

(** A loop that appends what each element contributes is a [flat_map]. *)
Lemma foldM_flat_map (A B : Type) (body : list A -> B -> result (list A))
      (f : B -> list A) (xs : list B) :
  (forall acc x, In x xs -> body acc x = Ok (acc ++ f x)) ->
  forall acc, foldM body acc xs = Ok (acc ++ flat_map f xs).
Proof.
  induction xs as [|x xs IH]; simpl; intros Hbody acc.
  - now rewrite app_nil_r.
  - rewrite Hbody by now left. simpl.
    rewrite IH by (intros; apply Hbody; now right).
    now rewrite app_assoc.
Qed.

(** A loop whose body never throws is a [fold_left]. *)
Lemma foldM_fold_left (A B : Type) (body : A -> B -> result A) (f : A -> B -> A)
      (xs : list B) :
  (forall acc x, In x xs -> body acc x = Ok (f acc x)) ->
  forall acc, foldM body acc xs = Ok (fold_left f xs acc).
Proof.
  induction xs as [|x xs IH]; simpl; intros Hbody acc; [reflexivity|].
  rewrite Hbody by now left. simpl.
  apply IH. intros; apply Hbody; now right.
Qed.

(** A list of strings without repetition, decided. *)
Fixpoint nodupb (l : list string) : bool :=
  match l with
  | [] => true
  | a :: rest => negb (includes rest a) && nodupb rest
  end.

Lemma nodupb_NoDup (l : list string) : nodupb l = true -> NoDup l.
Proof.
  induction l as [|a rest IH]; simpl; intros H; constructor.
  - apply andb_true_iff in H. destruct H as [H _].
    intros Hin. apply includes_In in Hin. rewrite Hin in H. discriminate.
  - apply IH. apply andb_true_iff in H. tauto.
Qed.

(** The nodes behind [n1] seen from [center] that clamp it: neighbours of
    [n1] other than [center], on the line, held by [me]. *)
Definition clampers (pieces : Obj.t Piece) (center : NodeId) (me : Player)
                    (n1 : NodeId) : list NodeId :=
  filter (fun n2 => negb (n2 =? center) && collinear center n1 n2
                    && ownedBy pieces n2 me)
         (nbrs BOARD_NODES n1).

(** A name inherited from [Object.prototype] is no node of the topology. *)
Lemma inherited_unknown (n : NodeId) :
  Obj.inherited n = true -> Obj.get BOARD_NODES n = None.
Proof.
  intros Hname. destruct (Obj.get BOARD_NODES n) as [node|] eqn:Hn;
    [|reflexivity].
  rewrite known_not_inherited in Hname by (now exists node). discriminate.
Qed.

Lemma checkClamp_closed_form (pieces : Obj.t Piece) (center : NodeId)
      (me : Player) :
  Obj.inherited center = false ->
  checkClamp pieces center me
  = Ok (flat_map (fun n1 =>
                    if ownedBy pieces n1 (getOpponent me)
                    then map (fun _ => n1) (clampers pieces center me n1)
                    else [])
                 (nbrs BOARD_NODES center)).
Proof.
  intros Hname. unfold checkClamp, Obj.read, nbrs at 1. rewrite Hname.
  destruct (Obj.get BOARD_NODES center) as [centerNode|] eqn:Hc; [|reflexivity].
  rewrite foldM_flat_map
    with (f := fun n1 =>
                 if ownedBy pieces n1 (getOpponent me)
                 then map (fun _ => n1) (clampers pieces center me n1)
                 else []); [reflexivity|].
  intros acc n1 Hn1.
  destruct (ownedBy pieces n1 (getOpponent me)); [|now rewrite app_nil_r].
  destruct (@neighbors_known _ _ _ Hc Hn1) as [n1Node Hn1Node].
  unfold clampers, nbrs. rewrite Hn1Node. simpl.
  rewrite foldM_flat_map
    with (f := fun n2 =>
                 if negb (n2 =? center) && collinear center n1 n2
                    && ownedBy pieces n2 me
                 then [n1] else []).
  - f_equal. f_equal. clear Hn1Node.
    induction (neighbors n1Node) as [|n2 rest IH]; simpl; [reflexivity|].
    destruct (negb (n2 =? center) && collinear center n1 n2
              && ownedBy pieces n2 me); simpl; now rewrite IH.
  - intros acc' n2 _. destruct (n2 =? center); simpl; [now rewrite app_nil_r|].
    rewrite areCollinear_Ok. simpl.
    destruct (collinear center n1 n2 && ownedBy pieces n2 me);
      [reflexivity | now rewrite app_nil_r].
Qed.

(** On the board at most one node clamps a neighbour of the centre. *)
Lemma clampers_at_most_one (pieces : Obj.t Piece) (center : NodeId) (me : Player)
      (n1 : NodeId) :
  In n1 (nbrs BOARD_NODES center) ->
  length (clampers pieces center me n1) <= 1.
Proof.
  intros Hn1. unfold nbrs in Hn1.
  destruct (Obj.get BOARD_NODES center) as [centerNode|] eqn:Hc; [|contradiction].
  destruct (@neighbors_symmetric _ _ _ Hc Hn1) as [n1Node [Hn1Node Hback]].
  pose proof continuation_unique_and_straight as Hboard.
  rewrite forallb_forall in Hboard.
  specialize (Hboard _ (get_In _ _ Hn1Node)). simpl in Hboard.
  rewrite forallb_forall in Hboard. specialize (Hboard _ Hback).
  apply andb_true_iff in Hboard. destruct Hboard as [Hone _].
  apply Nat.leb_le in Hone.
  unfold clampers, nbrs. rewrite Hn1Node.
  eapply Nat.le_trans; [|exact Hone]. clear.
  induction (neighbors n1Node) as [|n2 rest IH]; simpl; [lia|].
  destruct (negb (n2 =? center) && collinear center n1 n2) eqn:H1; simpl.
  - destruct (ownedBy pieces n2 me); simpl; lia.
  - exact IH.
Qed.

(** X8.  For a centre that bears a name inherited from [Object.prototype]
    [checkClamp] throws.  For every other centre, a node of the topology or
    not, it returns exactly the clamped neighbours of the centre: a node is
    returned if and only if it is a neighbour of the centre that holds an
    opponent piece and has, beyond it on the line from the centre, a
    neighbour other than the centre that holds a piece of the acting side.
    Each such node is returned once. *)
Theorem checkClamp_returns_exactly_the_clamped (pieces : Obj.t Piece)
        (center : NodeId) (me : Player) :
  (Obj.inherited center = true -> checkClamp pieces center me = TypeError)
  /\ (Obj.inherited center = false ->
      exists targets,
        checkClamp pieces center me = Ok targets
        /\ NoDup targets
        /\ forall n1,
             In n1 targets
             <-> In n1 (nbrs BOARD_NODES center)
                 /\ ownedBy pieces n1 (getOpponent me) = true
                 /\ exists n2,
                      In n2 (nbrs BOARD_NODES n1) /\ n2 <> center
                      /\ areCollinear center n1 n2 = Ok true
                      /\ ownedBy pieces n2 me = true).
Proof.
  split.
  { intros Hname. unfold checkClamp, Obj.read.
    now rewrite (inherited_unknown _ Hname), Hname. }
  intros Hname.
  eexists. split; [now apply checkClamp_closed_form|]. split.
  - assert (Hnd : NoDup (nbrs BOARD_NODES center)).
    { unfold nbrs. destruct (Obj.get BOARD_NODES center) as [node|] eqn:Hc;
        [|constructor].
      assert (Hall : forallb (fun kv => nodupb (neighbors (snd kv)))
                             BOARD_NODES = true) by (vm_compute; reflexivity).
      rewrite forallb_forall in Hall. specialize (Hall _ (get_In _ _ Hc)).
      now apply nodupb_NoDup. }
    assert (Hsub : forall l, (forall n, In n l -> In n (nbrs BOARD_NODES center)) ->
                   NoDup l ->
                   NoDup (flat_map
                            (fun n1 =>
                               if ownedBy pieces n1 (getOpponent me)
                               then map (fun _ => n1) (clampers pieces center me n1)
                               else []) l)
                   /\ forall z, In z (flat_map
                            (fun n1 =>
                               if ownedBy pieces n1 (getOpponent me)
                               then map (fun _ => n1) (clampers pieces center me n1)
                               else []) l) -> In z l).
    { induction l as [|n1 rest IH]; simpl; intros Hin Hl.
      - split; [constructor | tauto].
      - inversion Hl as [|? ? Hnotin Hrest]; subst.
        destruct IH as [IHnd IHin]; [intros; apply Hin; now right | exact Hrest|].
        pose proof (clampers_at_most_one pieces center me n1
                      (Hin n1 (or_introl eq_refl))) as Hone.
        destruct (ownedBy pieces n1 (getOpponent me)); simpl.
        2:{ split; [exact IHnd | intros z Hz; right; auto]. }
        destruct (clampers pieces center me n1) as [|c [|c' cs]]; simpl in *;
          [split; [exact IHnd | intros z Hz; right; auto] | | lia].
        split.
        + constructor; [|exact IHnd]. intros Hbad. apply Hnotin. auto.
        + intros z [<-|Hz]; [now left | right; auto]. }
    apply Hsub; auto.
  - intros n1. rewrite in_flat_map. split.
    + intros (c & Hc & Hin).
      destruct (ownedBy pieces c (getOpponent me)) eqn:Howned; [|contradiction].
      apply in_map_iff in Hin. destruct Hin as (n2 & <- & Hn2).
      unfold clampers in Hn2. apply filter_In in Hn2. destruct Hn2 as [Hn2 Hf].
      apply andb_true_iff in Hf. destruct Hf as [Hf Hme].
      apply andb_true_iff in Hf. destruct Hf as [Hne Hcol].
      split; [exact Hc|]. split; [exact Howned|].
      exists n2. rewrite areCollinear_Ok, Hcol. repeat split; auto.
      intros ->. now rewrite String.eqb_refl in Hne.
    + intros (Hc & Howned & n2 & Hn2 & Hne & Hcol & Hme).
      rewrite areCollinear_Ok in Hcol. injection Hcol as Hcol.
      exists n1. split; [exact Hc|]. rewrite Howned.
      apply in_map_iff. exists n2. split; [reflexivity|].
      unfold clampers. apply filter_In. split; [exact Hn2|].
      rewrite Hcol, Hme.
      destruct (String.eqb_spec n2 center); [contradiction | reflexivity].
Qed.

(** The body of the inner loop of [checkPick], which never throws. *)
Definition pickStep (pieces : Obj.t Piece) (center : NodeId) (opp : Player)
                    (acc : list NodeId * list string) (pair : NodeId * NodeId)
  : list NodeId * list string :=
  let '(res, visitedPairs) := acc in
  let '(n1, n2) := pair in
  if n1 =? n2 then acc
  else if includes visitedPairs (pairKey n1 n2) then acc
  else if collinear n1 center n2
          && (ownedBy pieces n1 opp && ownedBy pieces n2 opp)
  then (res ++ [n1; n2], visitedPairs ++ [pairKey n1 n2])
  else (res, visitedPairs ++ [pairKey n1 n2]).

Lemma fold_left_pairs (A B C : Type) (f : A -> B * C -> A) (l1 : list B)
      (l2 : list C) :
  forall acc,
    fold_left (fun a b => fold_left (fun a' c => f a' (b, c)) l2 a) l1 acc
    = fold_left f (list_prod l1 l2) acc.
Proof.
  induction l1 as [|b l1 IH]; simpl; intros acc; [reflexivity|].
  rewrite fold_left_app, IH. f_equal.
  clear. revert acc. induction l2 as [|c l2 IH]; simpl; intros acc; [reflexivity|].
  apply IH.
Qed.

(** [checkPick] is one pass over the ordered pairs of neighbours. *)
Lemma checkPick_closed_form (pieces : Obj.t Piece) (center : NodeId)
      (me : Player) :
  Obj.inherited center = false ->
  checkPick pieces center me
  = Ok (fst (fold_left (pickStep pieces center (getOpponent me))
                       (list_prod (nbrs BOARD_NODES center)
                                  (nbrs BOARD_NODES center))
                       ([], []))).
Proof.
  intros Hname. unfold checkPick, Obj.read, nbrs. rewrite Hname.
  destruct (Obj.get BOARD_NODES center) as [centerNode|]; [|reflexivity].
  rewrite <- fold_left_pairs.
  rewrite foldM_fold_left
    with (f := fun a n1 =>
                 fold_left (fun a' n2 =>
                              pickStep pieces center (getOpponent me) a' (n1, n2))
                           (neighbors centerNode) a).
  - simpl. now destruct (fold_left _ _ _).
  - intros acc n1 _. apply foldM_fold_left.
    intros [res vis] n2 _. unfold pickStep.
    destruct (n1 =? n2); [reflexivity|].
    destruct (includes vis (pairKey n1 n2)); [reflexivity|].
    rewrite areCollinear_Ok. simpl.
    destruct (collinear n1 center n2
              && (ownedBy pieces n1 (getOpponent me)
                  && ownedBy pieces n2 (getOpponent me))); reflexivity.
Qed.

(** An invariant of [fold_left] over the elements done so far. *)
Lemma fold_left_done (A B : Type) (f : A -> B -> A) (Inv : list B -> A -> Prop)
      (xs : list B) :
  (forall done x a, Inv done a -> In x xs -> Inv (done ++ [x]) (f a x)) ->
  forall done a, Inv done a -> Inv (done ++ xs) (fold_left f xs a).
Proof.
  induction xs as [|x xs IH]; simpl; intros Hstep done a Hinv.
  - now rewrite app_nil_r.
  - replace (done ++ x :: xs) with ((done ++ [x]) ++ xs)
      by now rewrite <- app_assoc.
    apply IH; [intros; apply Hstep; auto|]. apply Hstep; auto.
Qed.

(** The two neighbours flank the centre with opponent pieces. *)
Definition flanks (pieces : Obj.t Piece) (center : NodeId) (opp : Player)
                  (a b : NodeId) : Prop :=
  a <> b /\ collinear a center b = true
  /\ ownedBy pieces a opp = true /\ ownedBy pieces b opp = true.

Lemma flanks_sym (pieces : Obj.t Piece) (center : NodeId) (opp : Player)
      (a b : NodeId) :
  flanks pieces center opp a b -> flanks pieces center opp b a.
Proof.
  unfold flanks. rewrite (collinear_reverse b center a). intuition.
Qed.

(** On the board the key of a pair of neighbours names the pair. *)
Definition pairKeysDistinct (l : list NodeId) : bool :=
  forallb (fun a => forallb (fun b => forallb (fun c => forallb (fun d =>
    negb (pairKey a b =? pairKey c d)
    || ((a =? c) && (b =? d)) || ((a =? d) && (b =? c))) l) l) l) l.

Lemma pairKey_names_the_pair :
  forallb (fun kv => pairKeysDistinct (neighbors (snd kv))) BOARD_NODES = true.
Proof. vm_compute. reflexivity. Qed.

Lemma pairKey_injective (center a b c d : NodeId) :
  In a (nbrs BOARD_NODES center) -> In b (nbrs BOARD_NODES center) ->
  In c (nbrs BOARD_NODES center) -> In d (nbrs BOARD_NODES center) ->
  pairKey a b = pairKey c d -> (a = c /\ b = d) \/ (a = d /\ b = c).
Proof.
  unfold nbrs. destruct (Obj.get BOARD_NODES center) as [node|] eqn:Hc;
    [|intros []].
  intros Ha Hb Hc' Hd Hkey.
  pose proof pairKey_names_the_pair as H. rewrite forallb_forall in H.
  specialize (H _ (get_In _ _ Hc)). simpl in H. unfold pairKeysDistinct in H.
  rewrite forallb_forall in H. specialize (H _ Ha).
  rewrite forallb_forall in H. specialize (H _ Hb).
  rewrite forallb_forall in H. specialize (H _ Hc').
  rewrite forallb_forall in H. specialize (H _ Hd).
  rewrite Hkey, String.eqb_refl in H. simpl in H.
  apply orb_true_iff in H. destruct H as [H|H]; apply andb_true_iff in H;
    destruct H as [H1 H2]; apply String.eqb_eq in H1, H2; auto.
Qed.

Lemma ex_done_snoc (A : Type) (P : A -> Prop) (done : list A) (x : A) :
  (exists y, In y (done ++ [x]) /\ P y) <-> (exists y, In y done /\ P y) \/ P x.
Proof.
  split.
  - intros (y & Hy & Py). apply in_app_iff in Hy.
    destruct Hy as [Hy|[<-|[]]]; [left; eauto | now right].
  - intros [(y & Hy & Py)|Px].
    + exists y. rewrite in_app_iff. auto.
    + exists x. rewrite in_app_iff. simpl. auto.
Qed.

Section PickInvariant.
Variable pieces : Obj.t Piece.
Variable center : NodeId.
Variable opp : Player.

Let N := nbrs BOARD_NODES center.

(** [key] is the key of the pair [p] of distinct nodes. *)
Definition keyOf (key : string) (p : NodeId * NodeId) : Prop :=
  fst p <> snd p /\ pairKey (fst p) (snd p) = key.

(** [n] is one of the pair [p], which flanks the centre. *)
Definition flankOf (n : NodeId) (p : NodeId * NodeId) : Prop :=
  flanks pieces center opp (fst p) (snd p) /\ (n = fst p \/ n = snd p).

(** After the pairs [done]: the keys seen are the keys of the distinct
    pairs done, the targets are the nodes of the flanking pairs done. *)
Definition pickInv (done : list (NodeId * NodeId))
                   (acc : list NodeId * list string) : Prop :=
  Forall (fun p => In (fst p) N /\ In (snd p) N) done
  /\ (forall key, In key (snd acc) <-> exists p, In p done /\ keyOf key p)
  /\ (forall n, In n (fst acc) <-> exists p, In p done /\ flankOf n p).

Lemma pickStep_inv (done : list (NodeId * NodeId))
      (acc : list NodeId * list string) (p : NodeId * NodeId) :
  pickInv done acc -> In (fst p) N -> In (snd p) N ->
  pickInv (done ++ [p]) (pickStep pieces center opp acc p).
Proof.
  destruct acc as [res vis], p as [a b]. simpl.
  intros (HD & HV & HR) Ha Hb. simpl in HV, HR.
  assert (HD' : Forall (fun p => In (fst p) N /\ In (snd p) N) (done ++ [(a, b)])).
  { apply Forall_app. split; [exact HD|]. repeat constructor; assumption. }
  unfold pickStep.
  destruct (String.eqb_spec a b) as [Heq|Hne].
  { split; [exact HD'|]. simpl. split.
    - intros key. rewrite ex_done_snoc, <- HV. unfold keyOf. simpl. tauto.
    - intros n. rewrite ex_done_snoc, <- HR. unfold flankOf, flanks. simpl.
      tauto. }
  destruct (includes vis (pairKey a b)) eqn:Hvis.
  { apply includes_In in Hvis. split; [exact HD'|]. simpl. split.
    - intros key. rewrite ex_done_snoc, <- HV. unfold keyOf. simpl.
      split; [tauto|]. intros [H|[_ <-]]; assumption.
    - intros n. rewrite ex_done_snoc, <- HR. split; [tauto|].
      intros [H|[Hflank Hn]]; [exact H|]. simpl in Hflank, Hn.
      apply HV in Hvis. destruct Hvis as ([c d] & Hcd & Hcdne & Hkey).
      simpl in Hcdne, Hkey.
      rewrite Forall_forall in HD. destruct (HD _ Hcd) as [Hc Hd].
      simpl in Hc, Hd.
      apply HR. exists (c, d). split; [exact Hcd|]. unfold flankOf. simpl.
      destruct (@pairKey_injective center c d a b Hc Hd Ha Hb Hkey)
        as [[-> ->]|[-> ->]].
      + tauto.
      + split; [now apply flanks_sym | tauto]. }
  destruct (collinear a center b
            && (ownedBy pieces a opp && ownedBy pieces b opp)) eqn:Hgood.
  - apply andb_true_iff in Hgood. destruct Hgood as [Hcol Hown].
    apply andb_true_iff in Hown. destruct Hown as [Hoa Hob].
    split; [exact HD'|]. simpl. split.
    + intros key. rewrite ex_done_snoc, in_app_iff, <- HV. unfold keyOf. simpl.
      intuition.
    + intros n. rewrite ex_done_snoc, in_app_iff, <- HR.
      unfold flankOf, flanks. simpl. intuition.
  - split; [exact HD'|]. simpl. split.
    + intros key. rewrite ex_done_snoc, in_app_iff, <- HV. unfold keyOf. simpl.
      intuition.
    + intros n. rewrite ex_done_snoc, <- HR. unfold flankOf, flanks. simpl.
      split; [tauto|]. intros [H|[(_ & Hc & Hoa & Hob) _]]; [exact H|].
      rewrite Hc, Hoa, Hob in Hgood. discriminate.
Qed.

Lemma pickLoop_inv :
  pickInv (list_prod N N)
          (fold_left (pickStep pieces center opp) (list_prod N N) ([], [])).
Proof.
  change (list_prod N N) with ([] ++ list_prod N N) at 1.
  apply fold_left_done with (Inv := pickInv).
  - intros done p acc Hinv Hp. destruct p as [a b].
    apply in_prod_iff in Hp. now apply pickStep_inv.
  - split; [constructor|]. simpl.
    split; intros k; (split; [intros [] | intros (p & [] & _)]).
Qed.
End PickInvariant.

(** X9.  For a centre that bears a name inherited from [Object.prototype]
    [checkPick] throws.  For every other centre, a node of the topology or
    not, it returns exactly the nodes of the opponent pairs that flank the
    centre: a node is returned if and only if it is a neighbour of the
    centre holding an opponent piece and a different neighbour, on the line
    through the node and the centre, holds an opponent piece too.  The set
    of pairs seen makes the second visit of a pair, in the other order, add
    nothing. *)
Theorem checkPick_returns_exactly_the_flanking_pairs (pieces : Obj.t Piece)
        (center : NodeId) (me : Player) :
  (Obj.inherited center = true -> checkPick pieces center me = TypeError)
  /\ (Obj.inherited center = false ->
      exists targets,
        checkPick pieces center me = Ok targets
        /\ forall n,
             In n targets
             <-> In n (nbrs BOARD_NODES center)
                 /\ ownedBy pieces n (getOpponent me) = true
                 /\ exists partner,
                      In partner (nbrs BOARD_NODES center) /\ partner <> n
                      /\ areCollinear n center partner = Ok true
                      /\ ownedBy pieces partner (getOpponent me) = true).
Proof.
  split.
  { intros Hname. unfold checkPick, Obj.read.
    now rewrite (inherited_unknown _ Hname), Hname. }
  intros Hname.
  eexists. split; [now apply checkPick_closed_form|].
  destruct (pickLoop_inv pieces center (getOpponent me)) as (_ & _ & HR).
  intros n. rewrite HR. split.
  - intros ([a b] & Hab & (Hne & Hcol & Hoa & Hob) & Hn). simpl in *.
    apply in_prod_iff in Hab. destruct Hab as [Ha Hb].
    destruct Hn as [->| ->].
    + split; [exact Ha|]. split; [exact Hoa|]. exists b.
      rewrite areCollinear_Ok, Hcol. repeat split; auto.
    + split; [exact Hb|]. split; [exact Hob|]. exists a.
      rewrite areCollinear_Ok, collinear_reverse, Hcol. repeat split; auto.
  - intros (Hn & Hon & partner & Hp & Hne & Hcol & Hop).
    rewrite areCollinear_Ok in Hcol. injection Hcol as Hcol.
    exists (n, partner). split; [now apply in_prod_iff|].
    unfold flankOf, flanks. simpl. repeat split; auto.
Qed.

(** ** Captures change sides *)

Definition owns (p : Piece) (who : Player) : nat :=
  if Player_eqb (player p) who then 1 else 0.

Lemma countOf_cons (k : string) (p : Piece) (rest : Obj.t Piece) (who : Player) :
  countOf ((k, p) :: rest) who = owns p who + countOf rest who.
Proof.
  unfold countOf, owns. simpl. destruct (Player_eqb (player p) who); reflexivity.
Qed.

Lemma countOf_set_absent (o : Obj.t Piece) (k : string) (p : Piece) (who : Player) :
  Obj.get o k = None -> countOf (Obj.set o k p) who = countOf o who + owns p who.
Proof.
  induction o as [|[k0 p0] o IH]; simpl; intros H.
  - rewrite countOf_cons. unfold countOf. simpl. lia.
  - destruct (String.eqb_spec k0 k) as [->|Hne]; [discriminate|].
    rewrite !countOf_cons, IH by exact H. lia.
Qed.

Lemma countOf_set_present (o : Obj.t Piece) (k : string) (p q : Piece)
      (who : Player) :
  Obj.get o k = Some q ->
  countOf (Obj.set o k p) who + owns q who = countOf o who + owns p who.
Proof.
  induction o as [|[k0 p0] o IH]; simpl; intros H; [discriminate|].
  destruct (String.eqb_spec k0 k) as [->|Hne].
  - injection H as ->. rewrite !countOf_cons. lia.
  - rewrite !countOf_cons. specialize (IH H). lia.
Qed.

Lemma delete_absent (V : Type) (o : Obj.t V) (k : string) :
  ~ In k (Obj.keys o) -> Obj.delete o k = o.
Proof.
  unfold Obj.delete, Obj.keys.
  induction o as [|[k0 v0] o IH]; simpl; intros H; [reflexivity|].
  destruct (String.eqb_spec k0 k) as [->|Hne]; simpl.
  - exfalso. apply H. now left.
  - f_equal. apply IH. tauto.
Qed.

Lemma countOf_delete_present (o : Obj.t Piece) (k : string) (q : Piece)
      (who : Player) :
  Obj.wf o -> Obj.get o k = Some q ->
  countOf (Obj.delete o k) who + owns q who = countOf o who.
Proof.
  unfold Obj.wf. induction o as [|[k0 p0] o IH]; simpl; intros Hnd H;
    [discriminate|].
  inversion Hnd as [|? ? Hnotin Hnd']; subst.
  unfold Obj.delete in *. simpl.
  destruct (String.eqb_spec k0 k) as [->|Hne]; simpl.
  - injection H as ->. rewrite countOf_cons.
    fold (Obj.delete o k). rewrite delete_absent by exact Hnotin. lia.
  - rewrite !countOf_cons. specialize (IH Hnd' H). lia.
Qed.

(** Moving a piece to an empty node changes no count. *)
Lemma countOf_moved (o : Obj.t Piece) (fromId toId : NodeId) (q : Piece)
      (who : Player) :
  Obj.wf o -> Obj.get o fromId = Some q -> Obj.get o toId = None ->
  countOf (Obj.set (Obj.delete o fromId) toId q) who = countOf o who.
Proof.
  intros Hwf Hfrom Hto.
  rewrite countOf_set_absent.
  - now apply countOf_delete_present.
  - destruct (String.eqb_spec fromId toId) as [->|Hne].
    + apply get_delete_same.
    + now rewrite get_delete_other.
Qed.

(** Flipping a node of the other side moves one piece between the
    counts. *)
Lemma countOf_flip (me : Player) (o : Obj.t Piece) (c : NodeId) :
  ownedBy o c (getOpponent me) = true ->
  countOf (flipTo me o c) me = S (countOf o me)
  /\ S (countOf (flipTo me o c) (getOpponent me)) = countOf o (getOpponent me).
Proof.
  intros Hown. apply ownedBy_Some in Hown. destruct Hown as [q [Hq Hplayer]].
  unfold flipTo. rewrite Hq.
  pose proof (countOf_set_present o c (mkPiece (piece_id q) me) me Hq) as Hme.
  pose proof (countOf_set_present o c (mkPiece (piece_id q) me)
                (getOpponent me) Hq) as Hopp.
  unfold owns in *. simpl in *.
  rewrite Hplayer, Player_eqb_refl in *.
  destruct me; simpl in *; lia.
Qed.

Lemma flipTo_other (me : Player) (o : Obj.t Piece) (c n : NodeId) (who : Player) :
  c <> n -> ownedBy (flipTo me o c) n who = ownedBy o n who.
Proof.
  intros Hne. unfold flipTo, ownedBy.
  destruct (Obj.get o c); [|reflexivity]. now rewrite get_set_other.
Qed.

Lemma countOf_flips (me : Player) (caps : list NodeId) :
  forall o,
    NoDup caps ->
    Forall (fun c => ownedBy o c (getOpponent me) = true) caps ->
    countOf (fold_left (flipTo me) caps o) me = countOf o me + length caps
    /\ countOf (fold_left (flipTo me) caps o) (getOpponent me) + length caps
       = countOf o (getOpponent me).
Proof.
  induction caps as [|c rest IH]; simpl; intros o Hnd Hall; [lia|].
  inversion Hnd as [|? ? Hnotin Hnd']; subst.
  inversion Hall as [|? ? Hc Hrest]; subst.
  destruct (countOf_flip me o c Hc) as [Hme Hopp].
  destruct (IH (flipTo me o c) Hnd') as [IHme IHopp].
  - rewrite Forall_forall in *. intros n Hn.
    rewrite flipTo_other; [auto|]. intros ->. contradiction.
  - lia.
Qed.

(** The counts after a valid move. *)
Lemma validMove_counts (state : GameState) (fromId : NodeId) (m : Move) :
  Obj.wf (pieces state) -> validMove state fromId m ->
  exists next caps steps,
    simulateMove state m = Ok next
    /\ captures m = Some caps /\ captureSteps m = Some steps
    /\ concat steps = caps
    /\ Forall (fun g => g <> []) steps
    /\ countOf (pieces next) (currentPlayer state)
       = countOf (pieces state) (currentPlayer state) + length caps
    /\ countOf (pieces next) (getOpponent (currentPlayer state)) + length caps
       = countOf (pieces state) (getOpponent (currentPlayer state)).
Proof.
  intros Hwf Hvalid.
  destruct (validMove_applies Hvalid)
    as (piece & caps & steps & Hpiece & Hcaps & Hsteps & Hconcat & Hsim & _).
  destruct (validMove_captures Hvalid)
    as (caps' & steps' & Hcaps' & Hsteps' & _ & Hnd & Hne & Hnotfrom & Hnotto
        & Howned).
  assert (caps' = caps) by congruence. assert (steps' = steps) by congruence.
  subst caps' steps'.
  assert (Hempty : Obj.get (pieces state) (to m) = None).
  { destruct Hvalid as (_ & _ & _ & _ & _ & _ & _ & He & _).
    now apply isEmpty_get. }
  eexists. exists caps, steps. split; [exact Hsim|]. simpl.
  repeat split; auto.
  - destruct (@countOf_flips (currentPlayer state) caps
                (Obj.set (Obj.delete (pieces state) (from m)) (to m) piece) Hnd)
      as [Hme _].
    + rewrite Forall_forall in *. intros c Hc. specialize (Howned c Hc).
      unfold ownedBy in *.
      rewrite get_set_other by (intros Heq; apply Hnotto; now rewrite Heq).
      rewrite get_delete_other by (intros Heq; apply Hnotfrom; now rewrite Heq).
      exact Howned.
    + rewrite Hme. f_equal. now apply countOf_moved.
  - destruct (@countOf_flips (currentPlayer state) caps
                (Obj.set (Obj.delete (pieces state) (from m)) (to m) piece) Hnd)
      as [_ Hopp].
    + rewrite Forall_forall in *. intros c Hc. specialize (Howned c Hc).
      unfold ownedBy in *.
      rewrite get_set_other by (intros Heq; apply Hnotto; now rewrite Heq).
      rewrite get_delete_other by (intros Heq; apply Hnotfrom; now rewrite Heq).
      exact Howned.
    + rewrite Hopp. now apply countOf_moved.
Qed.

(** X10.  A move returned by [getValidMoves] shifts the piece counts by its
    number of captures: after [simulateMove] the mover's side has that many
    pieces more and the other side that many fewer. *)
Theorem captures_shift_the_piece_counts (state : GameState) (fromId : NodeId)
        (moves : list Move) (m : Move) :
  Obj.wf (pieces state) ->
  getValidMoves state fromId = Ok moves -> In m moves ->
  exists next caps,
    simulateMove state m = Ok next
    /\ captures m = Some caps
    /\ countOf (pieces next) (currentPlayer state)
       = countOf (pieces state) (currentPlayer state) + length caps
    /\ countOf (pieces next) (getOpponent (currentPlayer state)) + length caps
       = countOf (pieces state) (getOpponent (currentPlayer state)).
Proof.
  intros Hwf Hmoves Hm. apply getValidMoves_valid in Hmoves.
  rewrite Forall_forall in Hmoves. specialize (Hmoves _ Hm).
  destruct (validMove_counts Hwf Hmoves)
    as (next & caps & steps & Hsim & Hcaps & _ & _ & _ & Hme & Hopp).
  exists next, caps. auto.
Qed.

Lemma captures_shift_the_piece_counts_witness :
  exists next caps,
    simulateMove twoWins captureByPick = Ok next
    /\ captures captureByPick = Some caps
    /\ countOf (pieces next) white = countOf (pieces twoWins) white + length caps
    /\ countOf (pieces next) black + length caps = countOf (pieces twoWins) black.
Proof.
  refine (@captures_shift_the_piece_counts twoWins "1,4" _ captureByPick _ _ _).
  - unfold Obj.wf. simpl. repeat constructor; simpl; intuition discriminate.
  - vm_compute. reflexivity.
  - simpl. tauto.
Defined.

Lemma length_concat_nonempty (A : Type) (groups : list (list A)) :
  Forall (fun g => g <> []) groups -> length groups <= length (concat groups).
Proof.
  induction 1 as [|g rest Hg Hrest IH]; simpl; [lia|].
  rewrite length_app. destruct g; [contradiction | simpl; lia].
Qed.

(** X11.  No capture group of a generated move is empty: a move has at
    most as many groups as captures (none when it captures nothing), and at
    most as many captures as the other side has pieces. *)
Theorem capture_groups_are_nonempty_and_bounded (state : GameState)
        (fromId : NodeId) (moves : list Move) (m : Move) :
  Obj.wf (pieces state) ->
  getValidMoves state fromId = Ok moves -> In m moves ->
  exists caps steps,
    captures m = Some caps /\ captureSteps m = Some steps
    /\ Forall (fun g => g <> []) steps
    /\ length steps <= length caps
    /\ length caps <= countOf (pieces state) (getOpponent (currentPlayer state))
    /\ (caps = [] <-> steps = []).
Proof.
  intros Hwf Hmoves Hm. apply getValidMoves_valid in Hmoves.
  rewrite Forall_forall in Hmoves. specialize (Hmoves _ Hm).
  destruct (validMove_counts Hwf Hmoves)
    as (next & caps & steps & _ & Hcaps & Hsteps & Hconcat & Hne & _ & Hopp).
  exists caps, steps. repeat split; auto.
  - rewrite <- Hconcat. now apply length_concat_nonempty.
  - lia.
  - intros ->. destruct steps as [|g rest]; [reflexivity|].
    inversion Hne; subst. simpl in Hconcat.
    destruct g; [contradiction | discriminate].
  - intros ->. now rewrite <- Hconcat.
Qed.

Lemma capture_groups_are_nonempty_and_bounded_witness :
  exists caps steps,
    captures captureByPick = Some caps /\ captureSteps captureByPick = Some steps
    /\ Forall (fun g => g <> []) steps
    /\ length steps <= length caps
    /\ length caps <= countOf (pieces twoWins) black
    /\ (caps = [] <-> steps = []).
Proof.
  refine (@capture_groups_are_nonempty_and_bounded twoWins "1,4" _
            captureByPick _ _ _).
  - unfold Obj.wf. simpl. repeat constructor; simpl; intuition discriminate.
  - vm_compute. reflexivity.
  - simpl. tauto.
Defined.

(** ** Rays *)

(** The destinations already found do not influence the slide. *)
Lemma slide_acc (pieces : Obj.t Piece) (n : nat) :
  forall prevId currentId dests,
    slide n pieces prevId currentId dests
    = (extra <- slide n pieces prevId currentId [] ;; Ok (dests ++ extra)).
Proof.
  induction n as [|n IH]; simpl; intros prevId currentId dests.
  - now rewrite app_nil_r.
  - destruct (Obj.get BOARD_NODES currentId) as [node|]; simpl; [|reflexivity].
    destruct (nextInLine prevId currentId (neighbors node)) as [[nxt|]| |];
      simpl; try reflexivity; try now rewrite app_nil_r.
    destruct (truthy nxt && isEmpty pieces nxt); simpl;
      [|now rewrite app_nil_r].
    rewrite (IH currentId nxt (dests ++ [nxt])), (IH currentId nxt [nxt]).
    destruct (slide n pieces currentId nxt []) as [e| |]; simpl; try reflexivity.
    now rewrite <- app_assoc.
Qed.

(** The slide on a board with pieces stops where the slide on the empty
    board goes on. *)
Lemma slide_prefix (pieces : Obj.t Piece) (n : nat) :
  forall prevId currentId e e',
    slide n pieces prevId currentId [] = Ok e ->
    slide n [] prevId currentId [] = Ok e' ->
    exists rest, e' = e ++ rest.
Proof.
  induction n as [|n IH]; simpl; intros prevId currentId e e' H H'.
  - injection H as <-. injection H' as <-. now exists [].
  - destruct (Obj.get BOARD_NODES currentId) as [node|]; simpl in *;
      [|discriminate].
    destruct (nextInLine prevId currentId (neighbors node)) as [[nxt|]| |];
      simpl in *; try discriminate.
    2:{ injection H as <-. now exists e'. }
    destruct (truthy nxt); simpl in *.
    2:{ injection H as <-. now exists e'. }
    destruct (isEmpty pieces nxt).
    2:{ injection H as <-. now exists e'. }
    rewrite slide_acc in H, H'.
    destruct (slide n pieces currentId nxt []) as [t| |] eqn:Ht; try discriminate.
    destruct (slide n [] currentId nxt []) as [t'| |] eqn:Ht'; try discriminate.
    simpl in *. injection H as <-. injection H' as <-.
    destruct (IH _ _ _ _ Ht Ht') as [rest ->]. now exists rest.
Qed.

(** A slide that found fewer nodes than its bound is not cut by it. *)
Lemma slide_uncut (pieces : Obj.t Piece) (n : nat) :
  forall prevId currentId e,
    slide n pieces prevId currentId [] = Ok e -> length e < n ->
    forall m, n <= m -> slide m pieces prevId currentId [] = Ok e.
Proof.
  induction n as [|n IH]; intros prevId currentId e H Hlen m Hm; [lia|].
  destruct m as [|m]; [lia|]. simpl in *.
  destruct (Obj.get BOARD_NODES currentId) as [node|]; simpl in *;
    [|discriminate].
  destruct (nextInLine prevId currentId (neighbors node)) as [[nxt|]| |];
    simpl in *; try discriminate; [|exact H].
  destruct (truthy nxt && isEmpty pieces nxt); [|exact H].
  rewrite slide_acc in H. rewrite slide_acc.
  destruct (slide n pieces currentId nxt []) as [t| |] eqn:Ht; try discriminate.
  simpl in H. injection H as <-. simpl in Hlen.
  rewrite (IH _ _ _ Ht) by lia. reflexivity.
Qed.

(** The nodes a slide from [fromId] through its neighbour [nb] reaches
    after [nb]. *)
Definition rayOf (pieces : Obj.t Piece) (fromId nb : NodeId) : list NodeId :=
  match slide 10 pieces fromId nb [] with
  | Ok e => e
  | _ => []
  end.

(** On the empty board no ray is longer than five nodes, and the
    destinations from a node are pairwise different. *)
Lemma empty_board_rays :
  forallb (fun kv =>
    forallb (fun nb => Nat.leb (length (rayOf [] (fst kv) nb)) 5)
            (neighbors (snd kv))
    && nodupb (flat_map (fun nb => nb :: rayOf [] (fst kv) nb)
                        (neighbors (snd kv))))
    BOARD_NODES = true.
Proof. vm_compute. reflexivity. Qed.

Lemma rayOf_prefix (pieces : Obj.t Piece) (fromId nb : NodeId) :
  known nb -> exists rest, rayOf [] fromId nb = rayOf pieces fromId nb ++ rest.
Proof.
  intros Hnb. unfold rayOf.
  destruct (slide_total pieces 10 fromId [] Hnb) as [e He].
  destruct (slide_total [] 10 fromId [] Hnb) as [e' He'].
  rewrite He, He'. eapply slide_prefix; eauto.
Qed.

Lemma rayOf_short (pieces : Obj.t Piece) (fromId nb : NodeId) (node : BoardNode) :
  Obj.get BOARD_NODES fromId = Some node -> In nb (neighbors node) ->
  length (rayOf pieces fromId nb) <= 5.
Proof.
  intros Hfrom Hnb.
  pose proof empty_board_rays as H. rewrite forallb_forall in H.
  specialize (H _ (get_In _ _ Hfrom)). simpl in H.
  apply andb_true_iff in H. destruct H as [H _].
  rewrite forallb_forall in H. specialize (H _ Hnb). apply Nat.leb_le in H.
  destruct (@rayOf_prefix pieces fromId nb) as [rest Hrest].
  { eapply neighbors_known; eauto. }
  rewrite Hrest, length_app in H. lia.
Qed.

(** X12.  The bound of ten steps never cuts a slide: on the board a slide
    from a node through one of its neighbours finds at most five further
    nodes, whatever the position, and the loop returns the same destinations
    under any bound of ten or more. *)
Theorem slide_bound_is_never_reached (pieces : Obj.t Piece) (fromId nb : NodeId)
        (node : BoardNode) (dests : list NodeId) :
  Obj.get BOARD_NODES fromId = Some node -> In nb (neighbors node) ->
  exists extra,
    slide 10 pieces fromId nb dests = Ok (dests ++ extra)
    /\ length extra <= 5
    /\ forall bound, 10 <= bound ->
                     slide bound pieces fromId nb dests = Ok (dests ++ extra).
Proof.
  intros Hfrom Hnb.
  assert (Hknown : known nb) by (eapply neighbors_known; eauto).
  destruct (slide_total pieces 10 fromId [] Hknown) as [e He].
  pose proof (@rayOf_short pieces fromId nb node Hfrom Hnb) as Hshort.
  unfold rayOf in Hshort. rewrite He in Hshort.
  exists e. split; [|split].
  - rewrite slide_acc, He. reflexivity.
  - exact Hshort.
  - intros bound Hbound. rewrite slide_acc.
    rewrite (@slide_uncut pieces 10 fromId nb e He) by lia. reflexivity.
Qed.

Lemma slide_bound_is_never_reached_witness :
  exists extra,
    slide 10 (pieces getInitialState) "0,2" "1,3" ["1,3"] = Ok (["1,3"] ++ extra)
    /\ length extra <= 5
    /\ forall bound, 10 <= bound ->
                     slide bound (pieces getInitialState) "0,2" "1,3" ["1,3"]
                     = Ok (["1,3"] ++ extra).
Proof.
  refine (@slide_bound_is_never_reached (pieces getInitialState) "0,2" "1,3"
            (mkNode "0,2" 200 0 ["0,1"; "0,3"; "1,2"; "1,1"; "1,3"] false)
            ["1,3"] _ _).
  - vm_compute. reflexivity.
  - simpl. tauto.
Defined.

(** ** Destinations of a piece *)

(** What a neighbour of the source contributes to the destinations. *)
Definition viaNeighbor (pieces : Obj.t Piece) (fromId nb : NodeId)
  : list NodeId :=
  if isEmpty pieces nb then nb :: rayOf pieces fromId nb else [].

Lemma destinationsVia_closed_form (state : GameState) (fromId nb : NodeId)
      (acc : list NodeId) :
  known nb ->
  destinationsVia state fromId acc nb
  = Ok (acc ++ viaNeighbor (pieces state) fromId nb).
Proof.
  intros Hnb. unfold destinationsVia, viaNeighbor, rayOf.
  destruct (isEmpty (pieces state) nb); [|now rewrite app_nil_r].
  rewrite slide_acc.
  destruct (slide_total (pieces state) 10 fromId [] Hnb) as [e ->]. simpl.
  now rewrite <- app_assoc.
Qed.

Lemma moves_destinations (state : GameState) (fromId : NodeId)
      (dests : list NodeId) :
  forall acc moves,
    foldM (fun moves toId =>
             '(allCaptures, steps) <-
               calculateRecursiveCaptures state fromId toId ;;
             Ok (moves ++ [mkMove fromId toId (Some allCaptures) (Some steps)]))
          acc dests = Ok moves ->
    map (@to) moves = map (@to) acc ++ dests.
Proof.
  induction dests as [|d rest IH]; simpl; intros acc moves H.
  - injection H as <-. now rewrite app_nil_r.
  - inv_bind H. inv_bind Ha. destruct a0 as [caps steps]. injection Ha as <-.
    apply IH in H. rewrite H, map_app. simpl. now rewrite <- app_assoc.
Qed.

(** The destinations of the moves of a piece, in order. *)
Lemma getValidMoves_destinations (state : GameState) (fromId : NodeId)
      (moves : list Move) (piece : Piece) (startNode : BoardNode) :
  getValidMoves state fromId = Ok moves ->
  Obj.get (pieces state) fromId = Some piece ->
  player piece = currentPlayer state ->
  Obj.get BOARD_NODES fromId = Some startNode ->
  map (@to) moves
  = flat_map (viaNeighbor (pieces state) fromId) (neighbors startNode).
Proof.
  unfold getValidMoves. intros H Hpiece Hplayer Hstart.
  rewrite Hpiece, Hplayer, Player_eqb_refl, Hstart in H. simpl in H.
  rewrite foldM_flat_map
    with (f := viaNeighbor (pieces state) fromId) in H.
  - simpl in H. now apply moves_destinations in H.
  - intros acc nb Hnb. apply destinationsVia_closed_form.
    eapply neighbors_known; eauto.
Qed.

Lemma NoDup_flat_map_prefix (A B : Type) (f g : A -> list B) (l : list A) :
  (forall a, In a l -> exists rest, g a = f a ++ rest) ->
  NoDup (flat_map g l) ->
  NoDup (flat_map f l) /\ incl (flat_map f l) (flat_map g l).
Proof.
  induction l as [|a l IH]; simpl; intros Hpre Hnd.
  - split; [constructor | apply incl_refl].
  - destruct (Hpre a (or_introl eq_refl)) as [rest Hrest].
    destruct IH as [IHnd IHincl].
    + intros; apply Hpre; now right.
    + eapply NoDup_app_remove_l. exact Hnd.
    + assert (Hfa : incl (f a) (g a)).
      { rewrite Hrest. apply incl_appl, incl_refl. }
      split.
      * apply NoDup_app.
        -- apply NoDup_app_remove_r in Hnd. rewrite Hrest in Hnd.
           now apply NoDup_app_remove_r in Hnd.
        -- exact IHnd.
        -- intros z Hz Hz'.
           pose proof (Hfa _ Hz) as Hg. pose proof (IHincl _ Hz') as HG.
           clear - Hnd Hg HG.
           induction (g a) as [|u us IHu]; [contradiction|].
           simpl in Hnd. inversion Hnd as [|? ? Hnotin Hnd']; subst.
           destruct Hg as [->|Hg]; [|auto].
           apply Hnotin. apply in_or_app. now right.
      * apply incl_app; [apply incl_appl; exact Hfa | apply incl_appr; exact IHincl].
Qed.

Lemma getValidMoves_distinct (state : GameState)
        (fromId : NodeId) (moves : list Move) :
  getValidMoves state fromId = Ok moves ->
  NoDup (map (@to) moves)
  /\ (forall m m', In m moves -> In m' moves -> to m = to m' -> m = m')
  /\ length moves <= 18.
Proof.
  intros H.
  assert (Hto : NoDup (map (@to) moves) /\ length moves <= 18).
  { destruct (Obj.get (pieces state) fromId) as [piece|] eqn:Hpiece.
    2:{ unfold getValidMoves in H. rewrite Hpiece in H. injection H as <-.
        split; [constructor | simpl; lia]. }
    destruct (Player_eqb (player piece) (currentPlayer state)) eqn:Hplayer.
    2:{ unfold getValidMoves in H. rewrite Hpiece, Hplayer in H.
        injection H as <-. split; [constructor | simpl; lia]. }
    apply Player_eqb_eq in Hplayer.
    destruct (Obj.get BOARD_NODES fromId) as [startNode|] eqn:Hstart.
    2:{ unfold getValidMoves in H.
        rewrite Hpiece, Hplayer, Player_eqb_refl, Hstart in H. discriminate. }
    pose proof (@getValidMoves_destinations state fromId moves piece startNode
                  H Hpiece Hplayer Hstart) as Hdests.
    pose proof empty_board_rays as Hboard. rewrite forallb_forall in Hboard.
    specialize (Hboard _ (get_In _ _ Hstart)). simpl in Hboard.
    apply andb_true_iff in Hboard. destruct Hboard as [_ Hnd].
    apply nodupb_NoDup in Hnd.
    destruct (@NoDup_flat_map_prefix _ _
                (viaNeighbor (pieces state) fromId)
                (fun nb => nb :: rayOf [] fromId nb) (neighbors startNode))
      as [Hnodup Hincl]; [|exact Hnd|].
    - intros nb Hnb. unfold viaNeighbor.
      destruct (@rayOf_prefix (pieces state) fromId nb) as [rest Hrest].
      { eapply neighbors_known; eauto. }
      destruct (isEmpty (pieces state) nb).
      + exists rest. simpl. now rewrite Hrest.
      + eexists. reflexivity.
    - rewrite Hdests. split; [exact Hnodup|].
      rewrite <- (length_map (@to)), Hdests.
      apply NoDup_incl_length with (l' := flat_map (fun nb => nb :: rayOf [] fromId nb)
                                                   (neighbors startNode)) in Hnodup;
        [|exact Hincl].
      eapply Nat.le_trans; [exact Hnodup|].
      assert (Hmax : forallb (fun kv =>
                Nat.leb (length (flat_map (fun nb => nb :: rayOf [] (fst kv) nb)
                                          (neighbors (snd kv)))) 18)
                BOARD_NODES = true) by (vm_compute; reflexivity).
      rewrite forallb_forall in Hmax. specialize (Hmax _ (get_In _ _ Hstart)).
      now apply Nat.leb_le in Hmax. }
  destruct Hto as [Hnd Hlen]. split; [exact Hnd|]. split; [|exact Hlen].
  intros m m' Hm Hm' Heq.
  clear - Hnd Hm Hm' Heq. induction moves as [|x rest IH]; [contradiction|].
  simpl in Hnd. inversion Hnd as [|? ? Hnotin Hnd']; subst.
  destruct Hm as [->|Hm], Hm' as [->|Hm']; auto.
  - exfalso. apply Hnotin. rewrite Heq. now apply in_map.
  - exfalso. apply Hnotin. rewrite <- Heq. now apply in_map.
Qed.

(** X13.  The moves [getValidMoves] returns for a piece go to pairwise
    different nodes, so a destination names its move; on the board a piece
    has at most eighteen destinations. *)
Theorem destinations_of_a_piece_are_distinct (state : GameState)
        (fromId : NodeId) (moves : list Move) :
  getValidMoves state fromId = Ok moves ->
  NoDup (map (@to) moves)
  /\ (forall m m', In m moves -> In m' moves -> to m = to m' -> m = m')
  /\ length moves <= 18.
Proof. apply getValidMoves_distinct. Qed.

(** The moves of the white piece on 1,4 in [twoWins]. *)
Definition twoWinsMoves : list Move :=
  Eval vm_compute in
    match getValidMoves twoWins "1,4" with Ok moves => moves | _ => [] end.

Lemma destinations_of_a_piece_are_distinct_witness :
  NoDup (map (@to) twoWinsMoves)
  /\ (forall m m', In m twoWinsMoves -> In m' twoWinsMoves ->
                   to m = to m' -> m = m')
  /\ length twoWinsMoves <= 18.
Proof.
  apply (@destinations_of_a_piece_are_distinct twoWins "1,4" twoWinsMoves).
  vm_compute. reflexivity.
Defined.

(** ** The evaluation *)

Lemma Player_eqb_of_opponent (q p : Player) :
  Player_eqb q (getOpponent p) = negb (Player_eqb q p).
Proof. destruct q, p; reflexivity. Qed.

(** X14.  The evaluation is zero-sum: what a position is worth to one side
    is the negation of what it is worth to the other, and it fails for one
    side exactly when it fails for the other. *)
Theorem evaluate_is_zero_sum (state : GameState) (aiPlayer : Player) :
  evaluate state (getOpponent aiPlayer)
  = (v <- evaluate state aiPlayer ;; Ok (- v)%Z).
Proof.
  unfold evaluate.
  destruct (checkWinCondition state) as [w|].
  - rewrite Player_eqb_of_opponent.
    destruct (Player_eqb w aiPlayer); reflexivity.
  - change 0%Z with (- 0)%Z at 1.
    generalize 0%Z. generalize (Obj.entries (pieces state)).
    induction l as [|[nodeId piece] rest IH]; intros score; simpl;
      [reflexivity|].
    rewrite Player_eqb_of_opponent.
    unfold SCORES.PIECE_VALUE, SCORES.MAOCE_PENALTY.
    destruct (Player_eqb (player piece) aiPlayer); simpl;
      (destruct (isMaoceAt nodeId) as [[|]| |]; simpl;
       [| |reflexivity|reflexivity]);
      rewrite <- IH; f_equal; lia.
Qed.

Lemma isMaoceAt_known (nodeId : NodeId) (node : BoardNode) :
  Obj.get BOARD_NODES nodeId = Some node ->
  isMaoceAt nodeId = Ok (isMaoce node).
Proof. intros H. unfold isMaoceAt. now rewrite (read_own _ _ H). Qed.

(** What the piece on [nodeId] adds to the score of [aiPlayer]. *)
Definition worth (aiPlayer : Player) (entry : NodeId * Piece) : Z :=
  let base :=
    match Obj.get BOARD_NODES (fst entry) with
    | Some node => if isMaoce node then (-400)%Z else 100%Z
    | None => 0%Z
    end in
  if Player_eqb (player (snd entry)) aiPlayer then base else (- base)%Z.

Fixpoint sumZ (zs : list Z) : Z :=
  match zs with
  | [] => 0%Z
  | z :: zs' => (z + sumZ zs')%Z
  end.

Lemma evaluate_fold (aiPlayer : Player) (entries : list (NodeId * Piece)) :
  (forall k p, In (k, p) entries -> known k) ->
  forall score,
    foldM (fun score '(nodeId, piece) =>
             if Player_eqb (player piece) aiPlayer then
               let score1 := (score + SCORES.PIECE_VALUE)%Z in
               inMaoce <- isMaoceAt nodeId ;;
               if inMaoce then Ok (score1 + SCORES.MAOCE_PENALTY)%Z
               else Ok score1
             else
               let score1 := (score - SCORES.PIECE_VALUE)%Z in
               inMaoce <- isMaoceAt nodeId ;;
               if inMaoce then Ok (score1 - SCORES.MAOCE_PENALTY)%Z
               else Ok score1)
          score entries
    = Ok (score + sumZ (map (worth aiPlayer) entries))%Z.
Proof.
  match goal with |- _ -> forall score, foldM ?b _ _ = _ => set (body := b) end.
  induction entries as [|[nodeId piece] rest IH]; intros Hknown score.
  - simpl. f_equal. lia.
  - destruct (Hknown nodeId piece (or_introl eq_refl)) as [node Hnode].
    assert (Hworth : worth aiPlayer (nodeId, piece)
                     = let base := if isMaoce node then (-400)%Z else 100%Z in
                       if Player_eqb (player piece) aiPlayer
                       then base else (- base)%Z).
    { unfold worth. cbn [fst snd]. now rewrite Hnode. }
    cbn [map sumZ]. rewrite Hworth. clear Hworth.
    change (foldM body score ((nodeId, piece) :: rest))
      with (acc <- body score (nodeId, piece) ;; foldM body acc rest).
    unfold body at 1. rewrite (@isMaoceAt_known nodeId node Hnode).
    destruct (Player_eqb (player piece) aiPlayer); cbn [bind deref];
      destruct (isMaoce node); cbn [bind];
      (rewrite IH by (intros k p Hin; eapply Hknown; right; exact Hin));
      f_equal; unfold SCORES.PIECE_VALUE, SCORES.MAOCE_PENALTY; cbv zeta; lia.
Qed.

(** The weight of a node in the score, whoever stands on it. *)
Definition weight (k : NodeId) : Z :=
  match Obj.get BOARD_NODES k with
  | Some node => if isMaoce node then 400%Z else 100%Z
  | None => 0%Z
  end.

Lemma weight_nonneg (k : NodeId) : (0 <= weight k)%Z.
Proof.
  unfold weight. destruct (Obj.get BOARD_NODES k) as [node|]; [|lia].
  destruct (isMaoce node); lia.
Qed.

Lemma worth_weight (aiPlayer : Player) (entry : NodeId * Piece) :
  (- weight (fst entry) <= worth aiPlayer entry <= weight (fst entry))%Z.
Proof.
  unfold worth, weight.
  destruct (Obj.get BOARD_NODES (fst entry)) as [node|];
    destruct (Player_eqb (player (snd entry)) aiPlayer);
    try destruct (isMaoce node); simpl; lia.
Qed.

Lemma sumZ_app (xs ys : list Z) : sumZ (xs ++ ys) = (sumZ xs + sumZ ys)%Z.
Proof. induction xs as [|x xs IH]; simpl; [reflexivity | rewrite IH; lia]. Qed.

(** Distinct nodes weigh no more than the nodes they are among. *)
Lemma weights_of_distinct_nodes (ks : list NodeId) :
  forall all, NoDup ks -> incl ks all ->
              (sumZ (map weight ks) <= sumZ (map weight all))%Z.
Proof.
  induction ks as [|k ks IH]; intros all Hnd Hincl; simpl.
  - induction all as [|a all IHa]; simpl; [lia|].
    pose proof (weight_nonneg a).
    assert (0 <= sumZ (map weight all))%Z by (apply IHa; intros ? []).
    lia.
  - inversion Hnd as [|? ? Hnotin Hnd']; subst.
    destruct (in_split k all (Hincl k (or_introl eq_refl)))
      as [l1 [l2 ->]].
    rewrite map_app, sumZ_app. simpl.
    specialize (IH (l1 ++ l2) Hnd').
    rewrite map_app, sumZ_app in IH.
    assert (incl ks (l1 ++ l2)).
    { intros z Hz. pose proof (Hincl z (or_intror Hz)) as Hin.
      apply in_app_or in Hin. apply in_or_app.
      destruct Hin as [Hin|[->|Hin]]; auto. contradiction. }
    specialize (IH H). lia.
Qed.

Lemma board_weight : sumZ (map weight (Obj.keys BOARD_NODES)) = 4100%Z.
Proof. vm_compute. reflexivity. Qed.

Lemma sum_worth_weight (aiPlayer : Player) (entries : list (NodeId * Piece)) :
  (- sumZ (map weight (map fst entries))
   <= sumZ (map (worth aiPlayer) entries)
   <= sumZ (map weight (map fst entries)))%Z.
Proof.
  induction entries as [|e rest IH]; simpl; [lia|].
  pose proof (worth_weight aiPlayer e). lia.
Qed.

(** X15.  On a position whose pieces stand on distinct nodes of the board,
    [evaluate] returns; a decided position is worth 10000 to the winner and
    -10000 to the loser, and an undecided one is worth the sum of its pieces
    (100 for an own piece, -400 for an own piece in a Maoce node, the
    opposite for a piece of the opponent), which lies within 4100 of zero:
    a win always outranks every undecided position. *)
Theorem evaluate_ranks_wins_above_material (state : GameState)
        (aiPlayer : Player) :
  Obj.wf (pieces state) -> wfPosition state ->
  exists v,
    evaluate state aiPlayer = Ok v
    /\ (checkWinCondition state = Some aiPlayer -> v = 10000%Z)
    /\ (checkWinCondition state = Some (getOpponent aiPlayer)
        -> v = (-10000)%Z)
    /\ (checkWinCondition state = None ->
        v = sumZ (map (worth aiPlayer) (Obj.entries (pieces state)))
        /\ (-4100 <= v <= 4100)%Z).
Proof.
  intros Hwf Hknown. unfold evaluate.
  destruct (checkWinCondition state) as [w|].
  - destruct (Player_eqb w aiPlayer) eqn:Hw; eexists; (split; [reflexivity|]);
      repeat split; try discriminate; try reflexivity;
      intros [= ->]; destruct aiPlayer; discriminate.
  - rewrite evaluate_fold.
    2:{ intros k p Hin. apply Hknown. eapply entry_key. exact Hin. }
    eexists. split; [reflexivity|].
    split; [discriminate|]. split; [discriminate|]. intros _.
    split; [reflexivity|]. simpl.
    pose proof (sum_worth_weight aiPlayer (Obj.entries (pieces state))) as Hsum.
    assert (Hboard : (sumZ (map weight (map fst (Obj.entries (pieces state))))
                      <= 4100)%Z).
    { rewrite <- board_weight. apply weights_of_distinct_nodes.
      - exact Hwf.
      - intros k Hk. destruct (Hknown k Hk) as [node Hnode].
        eapply get_key. exact Hnode. }
    unfold Obj.entries, Obj.t, NodeId in *. lia.
Qed.

Lemma evaluate_ranks_wins_above_material_witness :
  exists v,
    evaluate twoWins white = Ok v
    /\ (checkWinCondition twoWins = Some white -> v = 10000%Z)
    /\ (checkWinCondition twoWins = Some (getOpponent white)
        -> v = (-10000)%Z)
    /\ (checkWinCondition twoWins = None ->
        v = sumZ (map (worth white) (Obj.entries (pieces twoWins)))
        /\ (-4100 <= v <= 4100)%Z).
Proof.
  apply (@evaluate_ranks_wins_above_material twoWins white).
  - unfold Obj.wf. simpl. repeat constructor; simpl; intuition discriminate.
  - intros k Hk. simpl in Hk.
    repeat (destruct Hk as [<-|Hk]; [eexists; vm_compute; reflexivity|]).
    contradiction.
Defined.

(** ** Positions stay well formed *)

Section ObjShape.
Variable V : Type.
Implicit Types (o : Obj.t V) (k : string) (v : V).

Lemma keys_delete_filter o k :
  Obj.keys (Obj.delete o k) = filter (fun k' => negb (k' =? k)) (Obj.keys o).
Proof.
  unfold Obj.keys, Obj.delete.
  induction o as [|[k0 v0] o IH]; simpl; [reflexivity|].
  destruct (k0 =? k); simpl; now rewrite IH.
Qed.

Lemma wf_delete o k : Obj.wf o -> Obj.wf (Obj.delete o k).
Proof.
  unfold Obj.wf. rewrite keys_delete_filter. apply NoDup_filter.
Qed.

Lemma wf_set o k v : Obj.wf o -> Obj.wf (Obj.set o k v).
Proof.
  unfold Obj.wf. intros Hwf.
  destruct (Obj.get o k) as [v'|] eqn:Hget.
  - now rewrite (@keys_set_present V o k v v' Hget).
  - rewrite (@keys_set_absent V o k v Hget).
    apply NoDup_app; [exact Hwf | repeat constructor; intros [] |].
    intros k' Hk' [<-|[]]. apply get_None_key in Hget. contradiction.
Qed.

Lemma values_set_absent o k v :
  Obj.get o k = None -> Obj.values (Obj.set o k v) = Obj.values o ++ [v].
Proof.
  unfold Obj.values. induction o as [|[k0 v0] o IH]; simpl; [reflexivity|].
  destruct (String.eqb_spec k0 k) as [->|Hne]; simpl; intros H.
  - discriminate.
  - now rewrite IH.
Qed.

Lemma values_delete_present o k v :
  Obj.wf o -> Obj.get o k = Some v ->
  Permutation (Obj.values o) (v :: Obj.values (Obj.delete o k)).
Proof.
  unfold Obj.wf, Obj.keys, Obj.values, Obj.delete.
  induction o as [|[k0 v0] o IH]; simpl; intros Hnd H; [discriminate|].
  inversion Hnd as [|? ? Hnotin Hnd']; subst.
  destruct (String.eqb_spec k0 k) as [->|Hne]; simpl.
  - injection H as ->.
    change (filter (fun kv => negb (fst kv =? k)) o) with (Obj.delete o k).
    now rewrite delete_absent.
  - rewrite perm_swap. constructor. now apply IH.
Qed.
End ObjShape.

(** The identities of the pieces on the board, in property order. *)
Definition identities (pieces : Obj.t Piece) : list string :=
  map piece_id (Obj.values pieces).

Lemma flipTo_identities (who : Player) (pieces : Obj.t Piece) (capId : NodeId) :
  identities (flipTo who pieces capId) = identities pieces.
Proof.
  unfold flipTo, identities, Obj.values.
  destruct (Obj.get pieces capId) as [p|] eqn:Hget; [|reflexivity].
  induction pieces as [|[k0 v0] o IH]; simpl in *; [discriminate|].
  destruct (String.eqb_spec k0 capId) as [->|Hne]; simpl.
  - injection Hget as ->. reflexivity.
  - now rewrite IH.
Qed.

Lemma flips_identities (who : Player) (caps : list NodeId) :
  forall pieces,
    identities (fold_left (flipTo who) caps pieces) = identities pieces.
Proof.
  induction caps as [|c rest IH]; simpl; intros pieces; [reflexivity|].
  now rewrite IH, flipTo_identities.
Qed.

Lemma flips_wf (who : Player) (caps : list NodeId) (pieces : Obj.t Piece) :
  Obj.wf pieces -> Obj.wf (fold_left (flipTo who) caps pieces).
Proof. unfold Obj.wf. now rewrite flips_keys. Qed.

(** What a valid move does to the shape of the board. *)
Lemma validMove_shape (state : GameState) (fromId : NodeId) (m : Move) :
  Obj.wf (pieces state) -> wfPosition state -> validMove state fromId m ->
  exists played next,
    executeMove state m = Ok played
    /\ simulateMove state m = Ok next
    /\ pieces next = pieces played
    /\ Obj.wf (pieces played)
    /\ wfPosition played
    /\ Permutation (identities (pieces played)) (identities (pieces state)).
Proof.
  intros Hwf Hknown Hvalid.
  destruct (validMove_applies Hvalid)
    as (piece & caps & steps & Hpiece & _ & _ & _ & Hsim & played & Hexec
        & Hpieces & _).
  destruct (validMove_simulates Hknown Hvalid) as (next & Hsim' & Hnext).
  exists played, next. split; [exact Hexec|]. split; [exact Hsim'|].
  assert (Heq : pieces next = pieces played).
  { rewrite Hsim in Hsim'. injection Hsim' as <-. now rewrite Hpieces. }
  split; [exact Heq|].
  split; [|split].
  - rewrite Hpieces. apply flips_wf, wf_set, wf_delete, Hwf.
  - intros k Hk. apply Hnext. unfold NodeId in *. now rewrite Heq.
  - rewrite Hpieces, flips_identities. unfold identities.
    destruct Hvalid as (_ & _ & _ & _ & _ & _ & _ & Hempty & _).
    apply isEmpty_get in Hempty.
    rewrite values_set_absent.
    + rewrite map_app. simpl.
      rewrite (Permutation_map piece_id (values_delete_present _ Hwf Hpiece)).
      simpl. symmetry. apply Permutation_cons_append.
    + destruct (String.eqb_spec (from m) (to m)) as [Heq'|Hne].
      * rewrite Heq'. apply get_delete_same.
      * now rewrite get_delete_other.
Qed.

(** X16.  A legal move keeps the position well formed: after it, in the
    game as in the search, the pieces stand on distinct nodes of the board
    and they are the pieces that were there before, with the same
    identities; captures change owners, never identities or the number of
    pieces. *)
Theorem legal_moves_keep_the_position_well_formed (state : GameState)
        (fromId : NodeId) (moves : list Move) (m : Move) :
  Obj.wf (pieces state) -> wfPosition state ->
  getValidMoves state fromId = Ok moves -> In m moves ->
  exists played next,
    executeMove state m = Ok played
    /\ simulateMove state m = Ok next
    /\ pieces next = pieces played
    /\ Obj.wf (pieces played)
    /\ wfPosition played
    /\ Permutation (identities (pieces played)) (identities (pieces state)).
Proof.
  intros Hwf Hknown Hmoves Hm. apply validMove_shape with (fromId := fromId);
    [exact Hwf | exact Hknown |].
  apply getValidMoves_valid in Hmoves. rewrite Forall_forall in Hmoves. auto.
Qed.

Lemma legal_moves_keep_the_position_well_formed_witness :
  exists played next,
    executeMove twoWins captureByPick = Ok played
    /\ simulateMove twoWins captureByPick = Ok next
    /\ pieces next = pieces played
    /\ Obj.wf (pieces played)
    /\ wfPosition played
    /\ Permutation (identities (pieces played)) (identities (pieces twoWins)).
Proof.
  apply (@legal_moves_keep_the_position_well_formed
           twoWins "1,4" twoWinsMoves captureByPick).
  - unfold Obj.wf. simpl. repeat constructor; simpl; intuition discriminate.
  - intros k Hk. simpl in Hk.
    repeat (destruct Hk as [<-|Hk]; [eexists; vm_compute; reflexivity|]).
    contradiction.
  - vm_compute. reflexivity.
  - vm_compute. tauto.
Defined.

(** ** The scores of the search *)

(** The scores [evaluate] gives to well-formed positions. *)
Definition leafScore (r : EZ) : Prop :=
  exists z, r = Fin z
            /\ (z = SCORES.WIN \/ z = SCORES.LOSS \/ (-4100 <= z <= 4100)%Z).

Lemma leafScore_max (a b : EZ) :
  leafScore a -> leafScore b -> leafScore (EZ.max a b).
Proof.
  intros [x [-> Hx]] [y [-> Hy]]. cbn. exists (Z.max x y).
  split; [reflexivity|]. destruct (Z.max_spec x y) as [[_ ->]|[_ ->]]; auto.
Qed.

Lemma leafScore_min (a b : EZ) :
  leafScore a -> leafScore b -> leafScore (EZ.min a b).
Proof.
  intros [x [-> Hx]] [y [-> Hy]]. cbn. exists (Z.min x y).
  split; [reflexivity|]. destruct (Z.min_spec x y) as [[_ ->]|[_ ->]]; auto.
Qed.

Lemma evaluate_leafScore (state : GameState) (aiPlayer : Player) (z : Z) :
  Obj.wf (pieces state) -> wfPosition state ->
  evaluate state aiPlayer = Ok z -> leafScore (Fin z).
Proof.
  intros Hwf Hknown Hz. exists z. split; [reflexivity|].
  unfold evaluate in Hz.
  destruct (checkWinCondition state) as [w|].
  - destruct (Player_eqb w aiPlayer); injection Hz as <-; auto.
  - rewrite evaluate_fold in Hz.
    2:{ intros k p Hin. apply Hknown. eapply entry_key. exact Hin. }
    injection Hz as <-. right. right.
    pose proof (sum_worth_weight aiPlayer (Obj.entries (pieces state))) as Hsum.
    assert (Hboard : (sumZ (map weight (map fst (Obj.entries (pieces state))))
                      <= 4100)%Z).
    { rewrite <- board_weight. apply weights_of_distinct_nodes.
      - exact Hwf.
      - intros k Hk. destruct (Hknown k Hk) as [node Hnode].
        eapply get_key. exact Hnode. }
    unfold Obj.entries, Obj.t, NodeId in *. lia.
Qed.

(** A position whose pieces stand on distinct nodes of the board. *)
Definition wellFormed (state : GameState) : Prop :=
  Obj.wf (pieces state) /\ wfPosition state.

Section LoopScores.
Variable child : GameState -> EZ -> EZ -> result EZ.
Variable state : GameState.
Hypothesis child_leaf :
  forall s a b r, wellFormed s -> child s a b = Ok r -> leafScore r.

Lemma maxLoop_leafScore (moves : list Move) :
  forall maxEval alpha beta r,
    (forall m next, In m moves -> simulateMove state m = Ok next ->
                    wellFormed next) ->
    maxLoop child state moves maxEval alpha beta = Ok r ->
    (maxEval = NegInf /\ moves <> []) \/ leafScore maxEval ->
    leafScore r.
Proof.
  induction moves as [|move rest IH]; simpl;
    intros maxEval alpha beta r Hnext H Hstart.
  - injection H as <-. destruct Hstart as [[_ Hne]|Hs]; [contradiction|exact Hs].
  - inv_bind H. inv_bind H.
    apply child_leaf in Ha0; [|eapply Hnext; eauto].
    assert (Hleaf : leafScore (EZ.max maxEval a0)).
    { destruct Hstart as [[-> _]|Hs]; [|now apply leafScore_max].
      destruct Ha0 as [z [-> Hz]]. cbn. now exists z. }
    destruct (EZ.leb beta (EZ.max alpha a0)).
    + injection H as <-. exact Hleaf.
    + eapply IH; [|exact H|now right]. intros; eapply Hnext; eauto.
Qed.

Lemma minLoop_leafScore (moves : list Move) :
  forall minEval alpha beta r,
    (forall m next, In m moves -> simulateMove state m = Ok next ->
                    wellFormed next) ->
    minLoop child state moves minEval alpha beta = Ok r ->
    (minEval = PosInf /\ moves <> []) \/ leafScore minEval ->
    leafScore r.
Proof.
  induction moves as [|move rest IH]; simpl;
    intros minEval alpha beta r Hnext H Hstart.
  - injection H as <-. destruct Hstart as [[_ Hne]|Hs]; [contradiction|exact Hs].
  - inv_bind H. inv_bind H.
    apply child_leaf in Ha0; [|eapply Hnext; eauto].
    assert (Hleaf : leafScore (EZ.min minEval a0)).
    { destruct Hstart as [[-> _]|Hs]; [|now apply leafScore_min].
      destruct Ha0 as [z [-> Hz]]. cbn. now exists z. }
    destruct (EZ.leb (EZ.min beta a0) alpha).
    + injection H as <-. exact Hleaf.
    + eapply IH; [|exact H|now right]. intros; eapply Hnext; eauto.
Qed.
End LoopScores.

(** The positions the search visits from a well-formed one are well
    formed. *)
Lemma getAllMoves_wellFormed (state : GameState) (who : Player)
      (moves : list Move) :
  wellFormed state -> getAllMoves state who = Ok moves ->
  forall m next, In m moves -> simulateMove state m = Ok next ->
                 wellFormed next.
Proof.
  intros [Hwf Hknown] Hmoves m next Hm Hnext.
  apply getAllMoves_valid in Hmoves. rewrite Forall_forall in Hmoves.
  destruct (Hmoves m Hm) as [fromId Hvalid].
  destruct (validMove_shape Hwf Hknown Hvalid)
    as (played & next' & _ & Hsim & Heq & Hwf' & Hknown' & _).
  rewrite Hnext in Hsim. injection Hsim as <-.
  split.
  - now rewrite Heq.
  - intros k Hk. apply Hknown'. unfold NodeId in *. now rewrite <- Heq.
Qed.

Lemma minimax_leafScore (fuel : nat) :
  forall state depth isMaximizing alpha beta aiPlayer r,
    wellFormed state ->
    minimax fuel state depth isMaximizing alpha beta aiPlayer = Ok r ->
    leafScore r.
Proof.
  induction fuel as [|fuel IH];
    intros state depth isMaximizing alpha beta aiPlayer r Hwell;
    pose proof Hwell as [Hwf Hknown];
    rewrite minimax_eq;
    (destruct (isSome (checkWinCondition state) || (depth =? 0)%Z);
     [intros H; inv_bind H; injection H as <-;
      eapply evaluate_leafScore; eauto|]);
    (destruct (getAllMoves state
                 (if isMaximizing then aiPlayer else getOpponent aiPlayer))
       as [moves| |] eqn:Hmoves; simpl; try discriminate);
    (destruct moves as [|m rest];
     [intros H; inv_bind H; injection H as <-;
      eapply evaluate_leafScore; eauto|]);
    [discriminate|].
  destruct isMaximizing; intros H.
  - eapply maxLoop_leafScore with (moves := m :: rest); [| |exact H|].
    + intros s a b r'. apply IH.
    + eapply getAllMoves_wellFormed; eauto.
    + left. split; [reflexivity | discriminate].
  - eapply minLoop_leafScore with (moves := m :: rest); [| |exact H|].
    + intros s a b r'. apply IH.
    + eapply getAllMoves_wellFormed; eauto.
    + left. split; [reflexivity | discriminate].
Qed.

(** X17.  On a position whose pieces stand on distinct nodes of the board,
    every score [minimax] returns, at any depth and for any window, is the
    evaluation of a position: a finite number that is 10000, -10000 or
    within 4100 of zero.  The infinities of the window never come back as a
    score. *)
Theorem minimax_scores_are_evaluations (fuel : nat) (state : GameState)
        (depth : Z) (isMaximizing : bool) (alpha beta : EZ)
        (aiPlayer : Player) (r : EZ) :
  Obj.wf (pieces state) -> wfPosition state ->
  minimax fuel state depth isMaximizing alpha beta aiPlayer = Ok r ->
  exists z,
    r = Fin z
    /\ (z = 10000 \/ z = -10000 \/ -4100 <= z <= 4100)%Z.
Proof.
  intros Hwf Hknown H.
  exact (@minimax_leafScore fuel state depth isMaximizing alpha beta aiPlayer r
           (conj Hwf Hknown) H).
Qed.

Lemma minimax_scores_are_evaluations_witness :
  exists z,
    Fin 10000 = Fin z
    /\ (z = 10000 \/ z = -10000 \/ -4100 <= z <= 4100)%Z.
Proof.
  apply (@minimax_scores_are_evaluations 2 twoWins 2 true (Fin 0) (Fin 50)
           white (Fin 10000)).
  - unfold Obj.wf. simpl. repeat constructor; simpl; intuition discriminate.
  - intros k Hk. simpl in Hk.
    repeat (destruct Hk as [<-|Hk]; [eexists; vm_compute; reflexivity|]).
    contradiction.
  - vm_compute. reflexivity.
Defined.

(** ** The move of the search is a legal move *)

(** Every move of [getAllMoves] is a move [getValidMoves] generates for a
    piece of the side. *)
Lemma getAllMoves_origin (state : GameState) (who : Player)
      (all : list Move) :
  getAllMoves state who = Ok all ->
  Forall (fun m => exists nodeId piece moves,
              In (nodeId, piece) (pieces state) /\ player piece = who
              /\ getValidMoves state nodeId = Ok moves /\ In m moves) all.
Proof.
  unfold getAllMoves.
  apply foldM_invariant
    with (P := Forall (fun m => exists nodeId piece moves,
                           In (nodeId, piece) (pieces state)
                           /\ player piece = who
                           /\ getValidMoves state nodeId = Ok moves
                           /\ In m moves));
    [|constructor].
  intros acc [nodeId piece] acc' Hin Hacc.
  destruct (Player_eqb (player piece) who) eqn:Hp.
  - intros H. inv_bind H. injection H as <-.
    apply Forall_app. split; [exact Hacc|].
    rewrite Forall_forall. intros m Hm.
    exists nodeId, piece, a. apply Player_eqb_eq in Hp. auto.
  - intros H. injection H as <-. exact Hacc.
Qed.

Lemma getBestMove_generated (state : GameState) (depth : Z)
      (aiPlayer : Player) (m : Move) :
  getBestMove state depth aiPlayer = Ok (Some m) ->
  exists all, getAllMoves state aiPlayer = Ok all /\ In m all.
Proof.
  unfold getBestMove, searchRoot. intros H.
  inv_bind H. rename a into found. injection H as Hfst.
  inv_bind Ha. rename a into all. exists all. split; [exact Ha0|].
  apply rootLoop_first with (processed := []) in Ha;
    [|unfold rootInv; simpl; auto].
  simpl in Ha. unfold rootInv in Ha. rewrite Hfst in Ha.
  destruct Ha as (before & after & Hsplit & _).
  eapply Permutation_in; [apply sortMoves_perm|].
  rewrite Hsplit. apply in_or_app. right. now left.
Qed.

(** X18.  The move [getBestMove] returns is legal: it moves a piece of the
    searching side, which is the side to move, it is one of the moves
    [getValidMoves] generates for that piece on the position searched, and
    [executeMove] applies it. *)
Theorem best_move_is_a_legal_move (state : GameState) (depth : Z)
        (aiPlayer : Player) (m : Move) :
  getBestMove state depth aiPlayer = Ok (Some m) ->
  exists piece moves played,
    Obj.get (pieces state) (from m) = Some piece
    /\ player piece = currentPlayer state
    /\ (Obj.wf (pieces state) -> aiPlayer = currentPlayer state)
    /\ getValidMoves state (from m) = Ok moves
    /\ In m moves
    /\ isEmpty (pieces state) (to m) = true
    /\ executeMove state m = Ok played
    /\ currentPlayer played = getOpponent (currentPlayer state).
Proof.
  intros H. destruct (getBestMove_generated _ _ _ H) as (all & Hall & Hm).
  apply getAllMoves_origin in Hall. rewrite Forall_forall in Hall.
  destruct (Hall m Hm) as (nodeId & piece0 & moves & Hentry & Hside & Hmoves & Hin).
  pose proof (getValidMoves_valid _ _ Hmoves) as Hvalid.
  rewrite Forall_forall in Hvalid. specialize (Hvalid m Hin).
  destruct (validMove_applies Hvalid)
    as (piece & _ & _ & Hpiece & _ & _ & _ & _ & played & Hexec & _ & Hturn).
  destruct Hvalid as (piece' & _ & _ & Hget & Hplayer & Hfrom & _ & Hempty & _).
  subst nodeId. rewrite Hpiece in Hget. injection Hget as <-.
  exists piece, moves, played. repeat split; auto.
  intros Hwf. rewrite (In_get _ _ Hwf Hentry) in Hpiece.
  injection Hpiece as <-. congruence.
Qed.

Lemma best_move_is_a_legal_move_witness :
  exists piece moves played,
    Obj.get (pieces twoWins) (from captureByPick) = Some piece
    /\ player piece = currentPlayer twoWins
    /\ (Obj.wf (pieces twoWins) -> white = currentPlayer twoWins)
    /\ getValidMoves twoWins (from captureByPick) = Ok moves
    /\ In captureByPick moves
    /\ isEmpty (pieces twoWins) (to captureByPick) = true
    /\ executeMove twoWins captureByPick = Ok played
    /\ currentPlayer played = getOpponent (currentPlayer twoWins).
Proof.
  apply (@best_move_is_a_legal_move twoWins 3 white captureByPick).
  vm_compute. reflexivity.
Defined.

(** ** Undo *)

Lemma nth_error_last (A : Type) (l : list A) (a : A) :
  nth_error (l ++ [a]) (length l) = Some a.
Proof.
  rewrite nth_error_app2 by lia. now rewrite Nat.sub_diag.
Qed.

Lemma firstn_all_app (A : Type) (l l' : list A) :
  firstn (length l) (l ++ l') = l.
Proof.
  rewrite firstn_app, Nat.sub_diag, firstn_all. simpl. apply app_nil_r.
Qed.

(** What [executeMove] records. *)
Lemma executeMove_history (gs played : GameState) (m : Move) :
  executeMove gs m = Ok played ->
  history played
  = history gs ++ [mkSnapshot (pieces gs) (currentPlayer gs)]
  /\ turnCount played = (turnCount gs + 1)%Z
  /\ currentPlayer played = getOpponent (currentPlayer gs)
  /\ winner played = checkWinCondition played.
Proof.
  unfold executeMove. intros H. inv_bind H. injection H as <-. simpl.
  repeat split.
Qed.

(** The game state [undoTo] restores from a snapshot. *)
Definition restored (snap : GameStateSnapshot)
           (history : list GameStateSnapshot) (turnCount : Z) : GameState :=
  mkState (snap_pieces snap) (snap_currentPlayer snap) None history turnCount.

(** X19.  Between two players, undo takes back the last move: after a move
    played on a page, [handleUndo] restores the pieces, the side to move
    and the history of that page, with no winner and no selection.  The
    turn counter is not taken back: it keeps counting the move undone. *)
Theorem undo_takes_back_the_last_move (page page' : Page) (m : Move) :
  gameMode page = PvP -> aiThinking page = false ->
  playMove page m = Ok page' ->
  exists back,
    handleUndo page' = Ok back
    /\ pieces (gameState back) = pieces (gameState page)
    /\ currentPlayer (gameState back) = currentPlayer (gameState page)
    /\ history (gameState back) = history (gameState page)
    /\ winner (gameState back) = None
    /\ turnCount (gameState back) = (turnCount (gameState page) + 1)%Z
    /\ selectedNode back = None /\ validMoves back = [].
Proof.
  intros Hmode Hai Hplay. unfold playMove in Hplay. inv_bind Hplay.
  rename a into played. injection Hplay as <-.
  destruct (executeMove_history _ _ Ha) as (Hhist & Hturn & _).
  unfold handleUndo, undoTo. simpl. rewrite Hmode, Hai, Hhist.
  rewrite length_app. simpl.
  replace (length (history (gameState page)) + 1 - 1)
    with (length (history (gameState page))) by lia.
  rewrite nth_error_last, firstn_all_app.
  replace (Nat.eqb (length (history (gameState page)) + 1) 0) with false
    by (symmetry; apply Nat.eqb_neq; lia).
  simpl. eexists. split; [reflexivity|]. simpl. repeat split. exact Hturn.
Qed.

(** A small position with black to move, for examples: one piece each. *)
Definition duel : GameState :=
  mkState [ ("0,0", mkPiece "b-0" black); ("4,4", mkPiece "w-0" white) ]
          black None [] 0.

Lemma undo_takes_back_the_last_move_witness :
  exists back,
    handleUndo
      (mkPage (mkState [("4,4", mkPiece "w-0" white);
                        ("0,1", mkPiece "b-0" black)]
                       white None [mkSnapshot (pieces duel) black] 1)
              None [] PvP false None)
    = Ok back
    /\ pieces (gameState back) = pieces duel
    /\ currentPlayer (gameState back) = black
    /\ history (gameState back) = []
    /\ winner (gameState back) = None
    /\ turnCount (gameState back) = (0 + 1)%Z
    /\ selectedNode back = None /\ validMoves back = [].
Proof.
  apply (@undo_takes_back_the_last_move
           (mkPage duel (Some "0,0") [] PvP false None) _
           (mkMove "0,0" "0,1" (Some []) (Some []))).
  - reflexivity.
  - reflexivity.
  - vm_compute. reflexivity.
Defined.

(** X20.  Against the machine, undo takes back two moves: after a move of
    the player and the reply [runAi] plays, [handleUndo] restores the
    pieces, the side to move and the history of the page before the
    player's move.  After a single move on a fresh game it resets the
    game. *)
Theorem undo_against_the_machine_takes_back_two_moves
        (page afterPlayer afterMachine : Page) (m reply : Move) :
  gameMode page = PvE -> aiThinking page = false ->
  playMove page m = Ok afterPlayer ->
  getBestMove (gameState afterPlayer) 3 white = Ok (Some reply) ->
  currentPlayer (gameState afterPlayer) = white ->
  winner (gameState afterPlayer) = None ->
  runAi afterPlayer = Ok afterMachine ->
  (exists back,
      handleUndo afterMachine = Ok back
      /\ pieces (gameState back) = pieces (gameState page)
      /\ currentPlayer (gameState back) = currentPlayer (gameState page)
      /\ history (gameState back) = history (gameState page)
      /\ winner (gameState back) = None
      /\ turnCount (gameState back) = (turnCount (gameState page) + 2)%Z
      /\ selectedNode back = None /\ validMoves back = [])
  /\ (history (gameState page) = [] ->
      handleUndo afterPlayer = Ok (handleReset afterPlayer)).
Proof.
  intros Hmode Hai Hplay Hbest Hwhite Hwinner Hrun.
  unfold playMove in Hplay. inv_bind Hplay.
  rename a into played. injection Hplay as <-.
  destruct (executeMove_history _ _ Ha) as (Hhist & Hturn & _).
  simpl in *. split.
  - unfold runAi in Hrun. simpl in Hrun.
    rewrite Hmode, Hwhite, Hwinner, Hai, Hbest in Hrun. simpl in Hrun.
    inv_bind Hrun. rename a into replied. injection Hrun as <-.
    destruct (executeMove_history _ _ Ha0) as (Hhist' & Hturn' & _).
    unfold handleUndo, undoTo. simpl. rewrite Hhist', Hhist.
    rewrite <- app_assoc. simpl.
    rewrite length_app. simpl.
    replace (length (history (gameState page)) + 2 - 2)
      with (length (history (gameState page))) by lia.
    rewrite firstn_all_app.
    rewrite nth_error_app2 by lia. rewrite Nat.sub_diag. simpl.
    replace (Nat.eqb (length (history (gameState page)) + 2) 0) with false
      by (symmetry; apply Nat.eqb_neq; lia).
    replace (Nat.ltb (length (history (gameState page)) + 2) 2) with false
      by (symmetry; apply Nat.ltb_ge; lia).
    simpl. eexists. split; [reflexivity|]. simpl. repeat split. lia.
  - intros Hnil. unfold handleUndo. simpl.
    rewrite Hmode, Hai, Hhist, Hnil. reflexivity.
Qed.

(** The duel against the machine: black plays [0,0 -> 0,1], white
    replies. *)
Definition duelPage : Page := mkPage duel None [] PvE false None.

Definition duelMove : Move := mkMove "0,0" "0,1" (Some []) (Some []).

Definition duelAfterPlayer : Page :=
  Eval vm_compute in
    match playMove duelPage duelMove with Ok p => p | _ => duelPage end.

Definition duelReply : Move :=
  Eval vm_compute in
    match getBestMove (gameState duelAfterPlayer) 3 white with
    | Ok (Some reply) => reply
    | _ => duelMove
    end.

Definition duelAfterMachine : Page :=
  Eval vm_compute in
    match runAi duelAfterPlayer with Ok p => p | _ => duelPage end.

Lemma undo_against_the_machine_takes_back_two_moves_witness :
  (exists back,
      handleUndo duelAfterMachine = Ok back
      /\ pieces (gameState back) = pieces (gameState duelPage)
      /\ currentPlayer (gameState back) = currentPlayer (gameState duelPage)
      /\ history (gameState back) = history (gameState duelPage)
      /\ winner (gameState back) = None
      /\ turnCount (gameState back) = (turnCount (gameState duelPage) + 2)%Z
      /\ selectedNode back = None /\ validMoves back = [])
  /\ (history (gameState duelPage) = [] ->
      handleUndo duelAfterPlayer = Ok (handleReset duelAfterPlayer)).
Proof.
  apply (@undo_against_the_machine_takes_back_two_moves
           duelPage duelAfterPlayer duelAfterMachine duelMove duelReply);
    vm_compute; reflexivity.
Defined.

(** ** The page, event after event *)

(** The events of the page: a click on a node, the undo and reset buttons,
    the mode buttons, and the turn of the machine. *)
Inductive Event : Type :=
| Click (nodeId : NodeId)
| Undo
| Reset
| Mode (mode : GameMode)
| Machine.

Definition handle (page : Page) (event : Event) : result Page :=
  match event with
  | Click nodeId => handleNodeClick page nodeId
  | Undo => handleUndo page
  | Reset => Ok (handleReset page)
  | Mode mode => Ok (selectMode mode page)
  | Machine => runAi page
  end.

(** The page after a sequence of events, from the first rendering. *)
Definition run (events : list Event) : result Page :=
  foldM handle initialPage events.

(** The pieces of the game: those of the initial position, each on a node
    of the board of its own. *)
Definition soundBoard (board : Obj.t Piece) : Prop :=
  Obj.wf board
  /\ (forall k, In k (Obj.keys board) -> known k)
  /\ Permutation (identities board) (identities (pieces getInitialState)).

(** A snapshot of the history: a sound board that no side has won. *)
Definition soundSnapshot (snap : GameStateSnapshot) : Prop :=
  soundBoard (snap_pieces snap)
  /\ checkWinCondition (restored snap [] 0) = None.

Definition soundState (gs : GameState) : Prop :=
  soundBoard (pieces gs)
  /\ winner gs = checkWinCondition gs
  /\ Forall soundSnapshot (history gs).

(** The moves listed are those of the node selected, on the position
    shown. *)
Definition coherent (page : Page) : Prop :=
  match selectedNode page with
  | Some s => getValidMoves (gameState page) s = Ok (validMoves page)
  | None => validMoves page = []
  end.

Definition sound (page : Page) : Prop :=
  soundState (gameState page) /\ coherent page.

Lemma checkWinCondition_pieces (s s' : GameState) :
  pieces s = pieces s' -> checkWinCondition s = checkWinCondition s'.
Proof. unfold checkWinCondition. now intros ->. Qed.

Lemma initial_soundBoard : soundBoard (pieces getInitialState).
Proof.
  split; [|split].
  - apply nodupb_NoDup. vm_compute. reflexivity.
  - assert (H : forallb (fun k => isSome (Obj.get BOARD_NODES k))
                        (Obj.keys (pieces getInitialState)) = true)
      by (vm_compute; reflexivity).
    rewrite forallb_forall in H. intros k Hk. specialize (H k Hk).
    unfold known. destruct (Obj.get BOARD_NODES k); [eauto | discriminate].
  - reflexivity.
Qed.

Lemma initial_soundState : soundState getInitialState.
Proof.
  split; [exact initial_soundBoard|].
  split; [vm_compute; reflexivity | constructor].
Qed.

Lemma soundBoard_ten (board : Obj.t Piece) :
  soundBoard board -> length board = 10.
Proof.
  intros (_ & _ & Hperm). apply Permutation_length in Hperm.
  unfold identities, Obj.values in Hperm. rewrite !length_map in Hperm.
  rewrite Hperm. vm_compute. reflexivity.
Qed.

(** A legal move played on an undecided sound state leaves a sound
    state. *)
Lemma soundState_played (gs : GameState) (fromId : NodeId) (m : Move) :
  soundState gs -> winner gs = None -> validMove gs fromId m ->
  exists played, executeMove gs m = Ok played /\ soundState played.
Proof.
  intros ((Hwf & Hknown & Hids) & Hwin & Hhist) Hnone Hvalid.
  destruct (validMove_shape Hwf Hknown Hvalid)
    as (played & _ & Hexec & _ & _ & Hwf' & Hknown' & Hids').
  exists played. split; [exact Hexec|].
  destruct (executeMove_history _ _ Hexec) as (Hh & _ & _ & Hw).
  split; [|split].
  - split; [exact Hwf'|]. split; [exact Hknown'|].
    now rewrite Hids'.
  - exact Hw.
  - rewrite Hh. apply Forall_app. split; [exact Hhist|].
    constructor; [|constructor]. split.
    + simpl. repeat split; assumption.
    + rewrite <- Hnone, Hwin. now apply checkWinCondition_pieces.
Qed.

Lemma soundState_undone (gs : GameState) (back : nat) (page : Page) :
  soundState gs -> gameState page = gs ->
  1 <= back <= length (history gs) ->
  exists page', undoTo page back = Ok page' /\ sound page'.
Proof.
  intros (_ & _ & Hhist) <- Hback. unfold undoTo.
  destruct (nth_error (history (gameState page))
                      (length (history (gameState page)) - back))
    as [prev|] eqn:Hprev.
  2:{ apply nth_error_None in Hprev. lia. }
  simpl. eexists. split; [reflexivity|].
  rewrite Forall_forall in Hhist.
  destruct (Hhist prev (nth_error_In _ _ Hprev)) as [Hboard Hopen].
  split; [|reflexivity]. simpl. split; [exact Hboard|]. split.
  - rewrite <- Hopen. now apply checkWinCondition_pieces.
  - rewrite Forall_forall. intros snap Hsnap. apply Hhist.
    rewrite <- (firstn_skipn (length (history (gameState page)) - back)
                             (history (gameState page))).
    apply in_or_app. now left.
Qed.

Lemma handleUndo_sound (page : Page) :
  sound page -> exists page', handleUndo page = Ok page' /\ sound page'.
Proof.
  intros Hsound. pose proof Hsound as [Hstate Hsel]. unfold handleUndo.
  destruct (Nat.eqb_spec (length (history (gameState page))) 0) as [Hz|Hz];
    simpl; [eauto|].
  destruct (aiThinking page); [eauto|].
  destruct (gameMode page).
  - apply soundState_undone with (gs := gameState page); auto; lia.
  - destruct (Nat.ltb_spec (length (history (gameState page))) 2) as [Hlt|Hge].
    + eexists. split; [reflexivity|].
      split; [exact initial_soundState | reflexivity].
    + apply soundState_undone with (gs := gameState page); auto; lia.
Qed.

Lemma playMove_sound (page : Page) (fromId : NodeId) (m : Move) :
  sound page -> winner (gameState page) = None ->
  validMove (gameState page) fromId m ->
  exists page', playMove page m = Ok page' /\ sound page'.
Proof.
  intros [Hstate _] Hnone Hvalid.
  destruct (soundState_played Hstate Hnone Hvalid) as (played & Hexec & Hplayed).
  unfold playMove. rewrite Hexec. simpl. eexists. split; [reflexivity|].
  split; [exact Hplayed | reflexivity].
Qed.

Lemma handleNodeClick_sound (page : Page) (nodeId : NodeId) :
  sound page ->
  exists page', handleNodeClick page nodeId = Ok page' /\ sound page'.
Proof.
  intros Hsound. pose proof Hsound as [Hstate Hsel]. unfold handleNodeClick.
  destruct (winner (gameState page)) as [w|] eqn:Hwinner; simpl; [eauto|].
  destruct (aiThinking page); [eauto|].
  destruct (GameMode_eqb (gameMode page) PvE
            && Player_eqb (currentPlayer (gameState page)) white); [eauto|].
  destruct (Obj.get (pieces (gameState page)) nodeId) as [piece|] eqn:Hpiece.
  - destruct (Player_eqb (player piece) (currentPlayer (gameState page))).
    + destruct Hstate as ((_ & Hknown & _) & _).
      destruct (@getValidMoves_total (gameState page) nodeId) as [moves Hmoves].
      { apply Hknown. eapply get_key. exact Hpiece. }
      rewrite Hmoves. simpl. eexists. split; [reflexivity|].
      split; [exact (proj1 Hsound) | exact Hmoves].
    + destruct (selectedNode page) as [s|] eqn:Hs; simpl; [|eauto].
      destruct (truthy s); [|eauto]. unfold coherent in Hsel. rewrite Hs in Hsel.
      destruct (find (fun m => to m =? nodeId) (validMoves page))
        as [move|] eqn:Hfind.
      * apply find_some in Hfind. destruct Hfind as [Hin _].
        apply getValidMoves_valid in Hsel. rewrite Forall_forall in Hsel.
        eapply playMove_sound; eauto.
      * eexists. split; [reflexivity|]. split; [exact Hstate | reflexivity].
  - destruct (selectedNode page) as [s|] eqn:Hs; simpl; [|eauto].
    destruct (truthy s); [|eauto]. unfold coherent in Hsel. rewrite Hs in Hsel.
    destruct (find (fun m => to m =? nodeId) (validMoves page))
      as [move|] eqn:Hfind.
    + apply find_some in Hfind. destruct Hfind as [Hin _].
      apply getValidMoves_valid in Hsel. rewrite Forall_forall in Hsel.
      eapply playMove_sound; eauto.
    + eexists. split; [reflexivity|]. split; [exact Hstate | reflexivity].
Qed.

(** The search of the machine returns on a position of the board. *)
Lemma getBestMove_total (state : GameState) (depth : Z) (aiPlayer : Player) :
  wfPosition state -> (1 <= depth)%Z ->
  exists best, getBestMove state depth aiPlayer = Ok best.
Proof.
  intros Hknown Hdepth.
  destruct (plainRootScore_total aiPlayer Hknown Hdepth) as [v Hv].
  destruct (searchRoot_refines_plain _ _ _ Hv) as [best [Hbest _]].
  unfold getBestMove. rewrite Hbest. simpl. eauto.
Qed.

Lemma runAi_sound (page : Page) :
  sound page -> exists page', runAi page = Ok page' /\ sound page'.
Proof.
  intros Hsound. pose proof Hsound as [Hstate Hsel]. unfold runAi.
  destruct (GameMode_eqb (gameMode page) PvE
            && Player_eqb (currentPlayer (gameState page)) white); simpl;
    [|eauto].
  destruct (winner (gameState page)) as [w|] eqn:Hwinner; simpl; [eauto|].
  destruct (aiThinking page); simpl; [eauto|].
  destruct Hstate as (Hboard & Hrest). pose proof Hboard as (_ & Hknown & _).
  destruct (@getBestMove_total (gameState page) 3 white Hknown ltac:(lia))
    as [best Hbest].
  rewrite Hbest. simpl. destruct best as [move|].
  - destruct (getBestMove_generated _ _ _ Hbest) as (all & Hall & Hin).
    apply getAllMoves_valid in Hall. rewrite Forall_forall in Hall.
    destruct (Hall move Hin) as [fromId Hvalid].
    destruct (@soundState_played (gameState page) fromId move
                (conj Hboard Hrest) Hwinner Hvalid)
      as (played & Hexec & Hplayed).
    rewrite Hexec. simpl. eexists. split; [reflexivity|].
    split; [exact Hplayed | reflexivity].
  - eexists. split; [reflexivity|].
    split; [exact (conj Hboard Hrest) | exact Hsel].
Qed.

Lemma handle_sound (page : Page) (event : Event) :
  sound page -> exists page', handle page event = Ok page' /\ sound page'.
Proof.
  intros Hsound. destruct event as [nodeId| | |mode|]; simpl.
  - now apply handleNodeClick_sound.
  - now apply handleUndo_sound.
  - eexists. split; [reflexivity|].
    split; [exact initial_soundState | reflexivity].
  - eexists. split; [reflexivity|].
    split; [exact initial_soundState | reflexivity].
  - now apply runAi_sound.
Qed.

(** X21.  Whatever the clicks, undos, resets, changes of mode and turns of
    the machine, no handler of the page throws, and the page it leaves
    shows the ten pieces of the initial position, each on a node of the
    board of its own; its winner is the one [checkWinCondition] gives for the
    pieces shown, every snapshot of its history is such a board that no
    side had won, and the moves listed are those of the node selected. *)
Theorem the_page_never_throws_and_stays_sound (events : list Event) :
  exists page,
    run events = Ok page
    /\ length (pieces (gameState page)) = 10
    /\ Obj.wf (pieces (gameState page))
    /\ wfPosition (gameState page)
    /\ Permutation (identities (pieces (gameState page)))
                   (identities (pieces getInitialState))
    /\ winner (gameState page) = checkWinCondition (gameState page)
    /\ Forall soundSnapshot (history (gameState page))
    /\ coherent page.
Proof.
  unfold run.
  destruct (@foldM_total Page Event sound handle events) with (acc := initialPage)
    as [page [Hrun Hsound]].
  - intros a x _. apply handle_sound.
  - split; [exact initial_soundState | reflexivity].
  - exists page. split; [exact Hrun|].
    destruct Hsound as ((Hboard & Hwin & Hhist) & Hsel).
    split; [now apply soundBoard_ten|].
    destruct Hboard as (Hwf & Hknown & Hids). repeat split; assumption.
Qed.

(** ** Playing by clicks *)

Lemma find_first_of_distinct (moves : list Move) (m : Move) :
  NoDup (map (@to) moves) -> In m moves ->
  find (fun m' => to m' =? to m) moves = Some m.
Proof.
  induction moves as [|x rest IH]; simpl; intros Hnd Hin; [contradiction|].
  inversion Hnd as [|? ? Hnotin Hnd']; subst.
  destruct Hin as [->|Hin].
  - now rewrite String.eqb_refl.
  - destruct (String.eqb_spec (to x) (to m)) as [Heq|Hne]; [|auto].
    exfalso. apply Hnotin. rewrite Heq. now apply in_map.
Qed.

Lemma empty_string_unknown : Obj.get BOARD_NODES "" = None.
Proof. vm_compute. reflexivity. Qed.

(** X22.  With a node selected and its moves listed, a click on the
    destination of one of them plays that move and no other: the listed
    moves have pairwise different destinations, the destination is empty,
    and the click does what [executeMove] does with the move. *)
Theorem a_click_on_a_destination_plays_its_move (page : Page) (s : NodeId)
        (m : Move) :
  selectedNode page = Some s ->
  getValidMoves (gameState page) s = Ok (validMoves page) ->
  In m (validMoves page) ->
  winner (gameState page) = None -> aiThinking page = false ->
  gameMode page = PvP \/ currentPlayer (gameState page) = black ->
  exists page',
    handleNodeClick page (to m) = Ok page'
    /\ playMove page m = Ok page'
    /\ (forall m', In m' (validMoves page) -> to m' = to m -> m' = m).
Proof.
  intros Hs Hmoves Hin Hwinner Hai Hturn.
  destruct (getValidMoves_distinct _ _ Hmoves) as (Hnd & Huniq & _).
  pose proof (getValidMoves_valid _ _ Hmoves) as Hvalid.
  rewrite Forall_forall in Hvalid. specialize (Hvalid m Hin).
  destruct (validMove_applies Hvalid)
    as (_ & _ & _ & _ & _ & _ & _ & _ & played & Hexec & _).
  destruct Hvalid as (piece & _ & _ & Hpiece & _ & _ & Hreach & Hempty & _).
  apply isEmpty_get in Hempty.
  assert (Htruthy : truthy s = true).
  { destruct Hreach as (startNode & _ & Hstart & _).
    unfold truthy. destruct (String.eqb_spec s "") as [->|]; [|reflexivity].
    rewrite empty_string_unknown in Hstart. discriminate. }
  unfold handleNodeClick, playMove.
  rewrite Hwinner, Hai, Hempty, Hs, Hexec. simpl.
  replace (GameMode_eqb (gameMode page) PvE
           && Player_eqb (currentPlayer (gameState page)) white) with false.
  2:{ destruct Hturn as [-> | ->]; [reflexivity|].
      now rewrite andb_false_r. }
  rewrite Htruthy, (find_first_of_distinct _ _ Hnd Hin), Hexec. simpl.
  eexists. split; [reflexivity|]. split; [reflexivity|].
  intros m' Hin' Hto. now apply Huniq.
Qed.

Lemma a_click_on_a_destination_plays_its_move_witness :
  exists page',
    handleNodeClick (mkPage twoWins (Some "1,4") twoWinsMoves PvP false None)
                    (to captureByPick) = Ok page'
    /\ playMove (mkPage twoWins (Some "1,4") twoWinsMoves PvP false None)
                captureByPick = Ok page'
    /\ (forall m', In m' twoWinsMoves -> to m' = to captureByPick ->
                   m' = captureByPick).
Proof.
  apply (@a_click_on_a_destination_plays_its_move
           (mkPage twoWins (Some "1,4") twoWinsMoves PvP false None)
           "1,4" captureByPick).
  - reflexivity.
  - vm_compute. reflexivity.
  - vm_compute. tauto.
  - reflexivity.
  - reflexivity.
  - left. reflexivity.
Defined.

(** A game of three clicks and an undo, from the first rendering: black
    selects [0,2], plays to [1,2], and takes the move back. *)
Example three_clicks_and_an_undo :
  exists page,
    run [Click "0,2"; Click "1,2"; Undo] = Ok page
    /\ pieces (gameState page) = pieces getInitialState
    /\ currentPlayer (gameState page) = black
    /\ turnCount (gameState page) = 1%Z.
Proof. vm_compute. eexists. repeat split. Qed.

(** ** Alpha-beta below the root *)

(** [minimax] returns on a position of the board when its fuel covers the
    depth. *)
Lemma minimax_total (fuel : nat) (state : GameState) (depth : Z)
      (isMaximizing : bool) (alpha beta : EZ) (aiPlayer : Player) :
  wfPosition state -> (0 <= depth)%Z -> Z.to_nat depth <= fuel ->
  EZ.lt alpha beta ->
  exists v r,
    plainMinimax fuel state depth isMaximizing aiPlayer = Ok v
    /\ minimax fuel state depth isMaximizing alpha beta aiPlayer = Ok r
    /\ within alpha beta v r.
Proof.
  intros Hknown Hdepth Hfuel Hab.
  destruct (@plainMinimax_total fuel state depth isMaximizing aiPlayer
              Hknown Hdepth Hfuel) as [v Hv].
  destruct (@minimax_refines_plain fuel state depth isMaximizing aiPlayer
              alpha beta v Hab Hv) as [r [Hr Hw]].
  exists v, r. auto.
Qed.

Lemma within_exact (alpha beta v r : EZ) :
  within alpha beta v r -> EZ.lt alpha v -> EZ.lt v beta -> r = v.
Proof.
  intros (H & _) Ha Hb. destruct (H Ha Hb) as [H1 H2]. clear H.
  destruct r, v; cbn in *; try tauto. f_equal. lia.
Qed.

(** X23.  Alpha-beta answers for plain minimax in every window: on a
    position of the board, for a depth of at least zero and any window
    [alpha < beta], [minimax] returns; its score is the plain minimax value
    when that value lies strictly inside the window, it is at most [alpha]
    when the value is, and at least [beta] when the value is.  Pruning
    never changes a score that the caller can tell apart from a bound. *)
Theorem alphabeta_answers_for_minimax_in_every_window (fuel : nat)
        (state : GameState) (depth : Z) (isMaximizing : bool)
        (alpha beta : EZ) (aiPlayer : Player) :
  wfPosition state -> (0 <= depth)%Z -> Z.to_nat depth <= fuel ->
  EZ.lt alpha beta ->
  exists v r,
    plainMinimax fuel state depth isMaximizing aiPlayer = Ok v
    /\ minimax fuel state depth isMaximizing alpha beta aiPlayer = Ok r
    /\ (EZ.lt alpha v -> EZ.lt v beta -> r = v)
    /\ (EZ.le v alpha -> EZ.le r alpha)
    /\ (EZ.le beta v -> EZ.le beta r).
Proof.
  intros Hknown Hdepth Hfuel Hab.
  destruct (@minimax_total fuel state depth isMaximizing alpha beta aiPlayer
              Hknown Hdepth Hfuel Hab) as (v & r & Hv & Hr & Hw).
  exists v, r. split; [exact Hv|]. split; [exact Hr|].
  split; [now apply within_exact|]. destruct Hw as (_ & Hlow & Hhigh). auto.
Qed.

Lemma alphabeta_answers_for_minimax_in_every_window_witness :
  exists v r,
    plainMinimax 2 twoWins 2 true white = Ok v
    /\ minimax 2 twoWins 2 true (Fin 0) (Fin 50) white = Ok r
    /\ (EZ.lt (Fin 0) v -> EZ.lt v (Fin 50) -> r = v)
    /\ (EZ.le v (Fin 0) -> EZ.le r (Fin 0))
    /\ (EZ.le (Fin 50) v -> EZ.le (Fin 50) r).
Proof.
  apply (@alphabeta_answers_for_minimax_in_every_window
           2 twoWins 2 true (Fin 0) (Fin 50) white).
  - intros k Hk. simpl in Hk.
    repeat (destruct Hk as [<-|Hk]; [eexists; vm_compute; reflexivity|]).
    contradiction.
  - lia.
  - simpl. lia.
  - unfold EZ.lt. cbn. lia.
Defined.

(** ** Termination of move generation and the first capture group *)

(** X24.  Move generation terminates: the capture cascade of
    [calculateRecursiveCaptures] ends within its bound of one pass per
    piece and returns for every position, source and destination, but for
    a destination that bears a name inherited from [Object.prototype],
    where its first pick check throws.  [getValidMoves] returns for every
    node of the board, and for a node that does not hold a piece of the
    side to move the list is empty. *)
Theorem move_generation_terminates (state : GameState) (fromId : NodeId) :
  (forall toId,
      Obj.inherited toId = false ->
      exists caps steps,
        calculateRecursiveCaptures state fromId toId = Ok (caps, steps))
  /\ (forall toId,
         Obj.inherited toId = true ->
         calculateRecursiveCaptures state fromId toId = TypeError)
  /\ (known fromId -> exists moves, getValidMoves state fromId = Ok moves)
  /\ (ownedBy (pieces state) fromId (currentPlayer state) = false ->
      getValidMoves state fromId = Ok []).
Proof.
  split; [|split; [|split]].
  - intros toId Hname.
    destruct (@calculateRecursiveCaptures_total state fromId toId Hname)
      as [[caps steps] H].
    now exists caps, steps.
  - intros toId Hname.
    destruct (@centerFlips_inherited
                (virtualBoard (pieces state) fromId toId)
                (currentPlayer state) toId
                (inherited_unknown _ Hname) Hname) as (_ & _ & Hflips).
    unfold calculateRecursiveCaptures. simpl.
    unfold cascadePass, processCenter, markProcessed. simpl.
    now rewrite Hflips.
  - apply getValidMoves_total.
  - unfold ownedBy, getValidMoves.
    destruct (Obj.get (pieces state) fromId) as [piece|]; [|reflexivity].
    now intros ->.
Qed.

Section FirstGroup.
Variable me : Player.

Lemma applyFlip_captures (st : Cascade) (fid n : NodeId) :
  In n (totalCaptures (applyFlip me st fid))
  <-> In n (totalCaptures st) \/ n = fid.
Proof.
  unfold applyFlip.
  destruct (includes (totalCaptures st) fid) eqn:Hinc.
  - apply includes_In in Hinc. split; [tauto|]. intros [H| ->]; assumption.
  - destruct (Obj.get (board st) fid); simpl; rewrite in_app_iff; simpl;
      intuition congruence.
Qed.

Lemma applyFlip_same_lists (st : Cascade) (fid : NodeId) :
  totalCaptures st = currentStepFlips st ->
  totalCaptures (applyFlip me st fid) = currentStepFlips (applyFlip me st fid).
Proof.
  unfold applyFlip. intros H.
  destruct (includes (totalCaptures st) fid); [exact H|].
  destruct (Obj.get (board st) fid); simpl; now rewrite H.
Qed.

Lemma applyFlip_batch (st : Cascade) (fid : NodeId) :
  nextBatch st = [] \/ currentStepFlips st <> [] ->
  nextBatch (applyFlip me st fid) = []
  \/ currentStepFlips (applyFlip me st fid) <> [].
Proof.
  unfold applyFlip. intros H.
  destruct (includes (totalCaptures st) fid); [exact H|].
  destruct (Obj.get (board st) fid); simpl; right;
    destruct (currentStepFlips st); discriminate.
Qed.

Lemma applyFlips_first (flipped : list NodeId) :
  forall st,
    totalCaptures st = currentStepFlips st ->
    nextBatch st = [] \/ currentStepFlips st <> [] ->
    let st' := fold_left (applyFlip me) flipped st in
    totalCaptures st' = currentStepFlips st'
    /\ (nextBatch st' = [] \/ currentStepFlips st' <> [])
    /\ forall n, In n (totalCaptures st')
                 <-> In n (totalCaptures st) \/ In n flipped.
Proof.
  induction flipped as [|fid rest IH]; simpl; intros st Hsame Hbatch.
  - split; [exact Hsame|]. split; [exact Hbatch | tauto].
  - destruct (IH (applyFlip me st fid)) as (Hs & Hb & Hin).
    + now apply applyFlip_same_lists.
    + now apply applyFlip_batch.
    + split; [exact Hs|]. split; [exact Hb|].
      intros n. rewrite Hin, applyFlip_captures. intuition congruence.
Qed.

Lemma cascadeLoop_steps (fuel : nat) :
  forall st activeNodes steps caps out,
    cascadeLoop fuel me st activeNodes steps = Ok (caps, out) ->
    exists more, out = steps ++ more.
Proof.
  induction fuel as [|fuel IH]; intros st activeNodes steps caps out; simpl.
  - destruct activeNodes; [|discriminate].
    intros H. injection H as _ <-. exists []. now rewrite app_nil_r.
  - destruct activeNodes as [|c rest].
    + intros H. injection H as _ <-. exists []. now rewrite app_nil_r.
    + intros H. inv_bind H. apply IH in H. destruct H as [more ->].
      destruct (currentStepFlips a) as [|f fs]; [now exists more|].
      exists ((f :: fs) :: more). now rewrite <- app_assoc.
Qed.
End FirstGroup.

(** X25.  The first capture group of a move is the pattern its piece
    completes on arrival: the targets [checkPick] finds around the
    destination on the board after the move or, when there are none, those
    [checkClamp] finds.  A move captures nothing exactly when neither
    pattern is complete at its destination. *)
Theorem first_capture_group_is_the_pattern_at_the_destination
        (state : GameState) (fromId toId : NodeId)
        (caps : list NodeId) (steps : list (list NodeId)) :
  calculateRecursiveCaptures state fromId toId = Ok (caps, steps) ->
  exists flipped,
    centerFlips (virtualBoard (pieces state) fromId toId) toId
                (currentPlayer state) = Ok flipped
    /\ (steps = [] <-> flipped = [])
    /\ (caps = [] <-> flipped = [])
    /\ (forall g rest, steps = g :: rest ->
                       forall n, In n g <-> In n flipped).
Proof.
  intros Hrun.
  destruct (calculateRecursiveCaptures_spec _ _ _ Hrun)
    as (_ & Hconcat & Hnonempty & _).
  assert (Hcaps : caps = [] <-> steps = []).
  { subst caps. split; [|now intros ->].
    destruct steps as [|g rest]; [reflexivity|].
    inversion Hnonempty as [|? ? Hg _]; subst.
    destruct g; [contradiction | discriminate]. }
  unfold calculateRecursiveCaptures in Hrun. simpl in Hrun.
  inv_bind Hrun. rename a into st. unfold processCenter in Ha. simpl in Ha.
  inv_bind Ha. rename a into passed. injection Ha as <-.
  inv_bind Ha0. rename a into flipped. injection Ha0 as <-.
  unfold markProcessed in *. simpl in *.
  exists flipped. split; [exact Ha|].
  match type of Hrun with
  | cascadeLoop _ _ (fold_left _ _ ?st0) _ _ = _ =>
      destruct (@applyFlips_first (currentPlayer state) flipped st0)
        as (Hsame & Hbatch & Hin); [reflexivity | now left |]
  end.
  simpl in Hsame, Hbatch, Hin.
  match type of Hrun with
  | cascadeLoop _ _ ?st1 _ _ = _ => set (st' := st1) in *
  end.
  assert (Hflips : forall k, In k (currentStepFlips st') <-> In k flipped).
  { intros k. rewrite <- Hsame, Hin. simpl. tauto. }
  destruct (currentStepFlips st') as [|f fs] eqn:Hcur.
  - assert (Hnone : flipped = []).
    { destruct flipped as [|y ys]; [reflexivity|].
      exfalso. apply (proj2 (Hflips y)). now left. }
    destruct Hbatch as [Hbatch|Hbatch]; [|contradiction].
    rewrite Hbatch in Hrun.
    assert (Hsteps : steps = []).
    { destruct (length (virtualBoard (pieces state) fromId toId));
        simpl in Hrun; now injection Hrun as _ <-. }
    split; [tauto|]. split; [tauto|].
    intros g rest Hg. rewrite Hsteps in Hg. discriminate.
  - assert (Hsome : flipped <> []).
    { intros ->. apply (proj1 (Hflips f)). now left. }
    pose proof (cascadeLoop_steps _ _ _ _ _ Hrun) as [more Hout].
    simpl in Hout.
    assert (Hsteps : steps <> []) by (rewrite Hout; discriminate).
    split; [tauto|]. split; [tauto|].
    intros g rest Hg k. rewrite Hout in Hg. injection Hg as <- _.
    apply Hflips.
Qed.

Lemma first_capture_group_is_the_pattern_at_the_destination_witness :
  exists flipped,
    centerFlips (virtualBoard (pieces twoWins) "1,4" "2,4") "2,4"
                (currentPlayer twoWins) = Ok flipped
    /\ ([["2,3"; "m_center"]] = [] <-> flipped = [])
    /\ (["2,3"; "m_center"] = [] <-> flipped = [])
    /\ (forall g rest, [["2,3"; "m_center"]] = g :: rest ->
                       forall n, In n g <-> In n flipped).
Proof.
  apply (@first_capture_group_is_the_pattern_at_the_destination
           twoWins "1,4" "2,4" ["2,3"; "m_center"] [["2,3"; "m_center"]]).
  vm_compute. reflexivity.
Defined.
